(** * ReflectionsApp: the client-side encryption layer

    A shallow embedding of [src/lib/encryption/crypto.ts],
    [src/lib/encryption/keyStorage.ts] and
    [src/lib/encryption/useEncryption.ts].

    JavaScript strings are sequences of UTF-16 code units and typed arrays
    are sequences of bytes; both are lists of [N].  The browser facilities
    the files call ([btoa], [atob], [TextEncoder], [TextDecoder],
    [crypto.subtle] with AES-GCM, [JSON], [localStorage]) are modelled after
    the standards that define them (WHATWG Infra and Encoding, NIST SP
    800-38D, FIPS 197, ECMA-262 and ECMA-404). *)

From Stdlib Require Import NArith ZArith List Lia String Ascii Bool Zify ZifyClasses.
From Stdlib Require Import Decimal DecimalFacts DecimalN.
From Stdlib Require SpecFloat.
From stdpp Require Import gmap.
Import ListNotations.

Local Open Scope N_scope.

(** ** Values and exceptions *)

(** A JavaScript string: UTF-16 code units, each below [2^16]. *)
Abbreviation jsstring := (list N).

(** The contents of an [ArrayBuffer] or [Uint8Array]: bytes below [2^8]. *)
Abbreviation bytes := (list N).

Definition is_bytes (b : bytes) : bool := forallb (fun x => x <? 256) b.
Definition is_jsstring (s : jsstring) : bool := forallb (fun c => c <? 65536) s.

(** A string literal of the source, as code units. *)
Definition js (s : string) : jsstring :=
  List.map N_of_ascii (list_ascii_of_string s).

(** What a JavaScript [throw] carries.  The DOM and Web Crypto raise
    [DOMException]s with a name; everything the two source files throw
    themselves is [new Error(message)]. *)
Inductive exn : Type :=
  | InvalidCharacterError
  | OperationError
  | DataError
  | SyntaxError
  | TypeError
  | Error (message : string).

Inductive result (A : Type) : Type :=
  | Ok (a : A)
  | Throw (e : exn).
Arguments Ok {A} a.
Arguments Throw {A} e.

Definition bind {A B} (r : result A) (k : A -> result B) : result B :=
  match r with
  | Ok a => k a
  | Throw e => Throw e
  end.

(** [try { body } catch (error) { throw new Error(message) }] *)
Definition try_catch_rethrow {A} (body : result A) (message : string) : result A :=
  match body with
  | Ok a => Ok a
  | Throw _ => Throw (Error message)
  end.

Notation "'let*' x ':=' r 'in' k" := (bind r (fun x => k))
  (at level 10, x pattern, r at level 100, k at level 200).

Definition is_ok {A} (r : result A) : bool :=
  match r with Ok _ => true | Throw _ => false end.

(** ** Base64: [btoa] and [atob] (WHATWG Infra, forgiving-base64) *)

Module Base64.

(** The character of a 6-bit value. *)
Definition char_of (v : N) : N :=
  if v <? 26 then 65 + v
  else if v <? 52 then 97 + (v - 26)
  else if v <? 62 then 48 + (v - 52)
  else if v =? 62 then 43
  else 47.

(** The 6-bit value of a character of the alphabet. *)
Definition value_of (c : N) : option N :=
  if (65 <=? c) && (c <=? 90) then Some (c - 65)
  else if (97 <=? c) && (c <=? 122) then Some (c - 71)
  else if (48 <=? c) && (c <=? 57) then Some (c + 4)
  else if c =? 43 then Some 62
  else if c =? 47 then Some 63
  else None.

Definition pad : N := 61.

(** Three bytes give four characters; the last group is padded with [=]. *)
Fixpoint encode_groups (b : bytes) : jsstring :=
  match b with
  | [] => []
  | [x] => [char_of (x / 4); char_of ((x mod 4) * 16)]
  | [x; y] =>
      [char_of (x / 4); char_of ((x mod 4) * 16 + y / 16);
       char_of ((y mod 16) * 4)]
  | x :: y :: z :: rest =>
      char_of (x / 4) :: char_of ((x mod 4) * 16 + y / 16)
      :: char_of ((y mod 16) * 4 + z / 64) :: char_of (z mod 64)
      :: encode_groups rest
  end.

Definition padding (n : nat) : jsstring :=
  match Nat.modulo n 3 with
  | 1%nat => [pad; pad]
  | 2%nat => [pad]
  | _ => []
  end.

Definition encode (b : bytes) : jsstring :=
  encode_groups b ++ padding (List.length b).

(** [btoa(data)]: throws when a code unit is above U+00FF. *)
Definition btoa (data : jsstring) : result jsstring :=
  if forallb (fun c => c <=? 255) data then Ok (encode data)
  else Throw InvalidCharacterError.

Definition is_ascii_whitespace (c : N) : bool :=
  (c =? 9) || (c =? 10) || (c =? 12) || (c =? 13) || (c =? 32).

(** Step 2 of forgiving-base64 decode: when the length is a multiple of
    four, one or two trailing [=] are removed. *)
Definition strip_padding (s : jsstring) : jsstring :=
  if Nat.eqb (Nat.modulo (List.length s) 4) 0 then
    match rev s with
    | c1 :: r1 =>
        if c1 =? pad then
          match r1 with
          | c2 :: r2 => if c2 =? pad then rev r2 else rev r1
          | [] => rev r1
          end
        else s
    | [] => s
    end
  else s.

Fixpoint values_of (s : jsstring) : option (list N) :=
  match s with
  | [] => Some []
  | c :: rest =>
      match value_of c, values_of rest with
      | Some v, Some vs => Some (v :: vs)
      | _, _ => None
      end
  end.

(** Four 6-bit values give three bytes; of a last group of two or three
    values the surplus bits are dropped. *)
Fixpoint decode_groups (vs : list N) : bytes :=
  match vs with
  | a :: b :: c :: d :: rest =>
      (a * 4 + b / 16) :: ((b mod 16) * 16 + c / 4) :: ((c mod 4) * 64 + d)
      :: decode_groups rest
  | [a; b; c] => [a * 4 + b / 16; (b mod 16) * 16 + c / 4]
  | [a; b] => [a * 4 + b / 16]
  | _ => []
  end.

(** [atob(data)] *)
Definition atob (data : jsstring) : result jsstring :=
  let data := List.filter (fun c => negb (is_ascii_whitespace c)) data in
  let data := strip_padding data in
  if Nat.eqb (Nat.modulo (List.length data) 4) 1 then Throw InvalidCharacterError
  else match values_of data with
       | Some vs => Ok (decode_groups vs)
       | None => Throw InvalidCharacterError
       end.

End Base64.

(** ** UTF-8: [TextEncoder] and [TextDecoder] (WHATWG Encoding) *)

Module Utf8.

Definition is_high_surrogate (c : N) : bool := (0xD800 <=? c) && (c <=? 0xDBFF).
Definition is_low_surrogate (c : N) : bool := (0xDC00 <=? c) && (c <=? 0xDFFF).

Definition replacement : N := 0xFFFD.
Definition byte_order_mark : N := 0xFEFF.

(** The conversion of a JavaScript string to scalar values (a [USVString]):
    a surrogate pair is one scalar value, a surrogate that is not part of a
    pair becomes U+FFFD. *)
Fixpoint to_scalars (s : jsstring) : list N :=
  match s with
  | [] => []
  | c :: rest =>
      if is_high_surrogate c then
        match rest with
        | d :: rest' =>
            if is_low_surrogate d
            then (0x10000 + (c - 0xD800) * 1024 + (d - 0xDC00)) :: to_scalars rest'
            else replacement :: to_scalars rest
        | [] => [replacement]
        end
      else if is_low_surrogate c then replacement :: to_scalars rest
      else c :: to_scalars rest
  end.

(** The UTF-8 encoder. *)
Definition encode_scalar (cp : N) : bytes :=
  if cp <? 0x80 then [cp]
  else if cp <? 0x800 then [0xC0 + cp / 64; 0x80 + cp mod 64]
  else if cp <? 0x10000 then
    [0xE0 + cp / 4096; 0x80 + (cp / 64) mod 64; 0x80 + cp mod 64]
  else
    [0xF0 + cp / 262144; 0x80 + (cp / 4096) mod 64;
     0x80 + (cp / 64) mod 64; 0x80 + cp mod 64].

Definition encode_scalars (l : list N) : bytes := flat_map encode_scalar l.

(** [new TextEncoder().encode(text)] *)
Definition TextEncoder_encode (text : jsstring) : bytes :=
  encode_scalars (to_scalars text).

(** The state of the UTF-8 decoder: the code point under construction, the
    continuation bytes still needed, and the bounds of the next byte. *)
Record decoder := {
  code_point : N;
  bytes_needed : N;
  lower_boundary : N;
  upper_boundary : N
}.

Definition initial : decoder :=
  {| code_point := 0; bytes_needed := 0;
     lower_boundary := 0x80; upper_boundary := 0xBF |}.

(** A byte met when no continuation byte is needed. *)
Definition lead (b : N) : list N * decoder :=
  if b <=? 0x7F then ([b], initial)
  else if (0xC2 <=? b) && (b <=? 0xDF) then
    ([], {| code_point := b mod 32; bytes_needed := 1;
            lower_boundary := 0x80; upper_boundary := 0xBF |})
  else if (0xE0 <=? b) && (b <=? 0xEF) then
    ([], {| code_point := b mod 16; bytes_needed := 2;
            lower_boundary := if b =? 0xE0 then 0xA0 else 0x80;
            upper_boundary := if b =? 0xED then 0x9F else 0xBF |})
  else if (0xF0 <=? b) && (b <=? 0xF4) then
    ([], {| code_point := b mod 8; bytes_needed := 3;
            lower_boundary := if b =? 0xF0 then 0x90 else 0x80;
            upper_boundary := if b =? 0xF4 then 0x8F else 0xBF |})
  else ([replacement], initial).

(** One byte of input.  A byte outside the bounds ends the sequence with
    U+FFFD and is then read again as a lead byte. *)
Definition step (st : decoder) (b : N) : list N * decoder :=
  if bytes_needed st =? 0 then lead b
  else if (lower_boundary st <=? b) && (b <=? upper_boundary st) then
    let cp := code_point st * 64 + b mod 64 in
    if bytes_needed st =? 1 then ([cp], initial)
    else ([], {| code_point := cp; bytes_needed := bytes_needed st - 1;
                 lower_boundary := 0x80; upper_boundary := 0xBF |})
  else
    let (out, st') := lead b in (replacement :: out, st').

Fixpoint run (st : decoder) (input : bytes) : list N :=
  match input with
  | [] => if bytes_needed st =? 0 then [] else [replacement]
  | b :: rest => let (out, st') := step st b in out ++ run st' rest
  end.

(** Scalar values back to UTF-16 code units. *)
Definition units_of_scalar (cp : N) : jsstring :=
  if cp <? 0x10000 then [cp]
  else [0xD800 + (cp - 0x10000) / 1024; 0xDC00 + (cp - 0x10000) mod 1024].

Definition from_scalars (l : list N) : jsstring := flat_map units_of_scalar l.

(** With [ignoreBOM] false, a leading U+FEFF is not part of the output. *)
Definition strip_bom (l : list N) : list N :=
  match l with
  | c :: rest => if c =? byte_order_mark then rest else l
  | [] => []
  end.

(** [new TextDecoder().decode(buffer)]: UTF-8, not fatal, [ignoreBOM] false. *)
Definition TextDecoder_decode (buffer : bytes) : jsstring :=
  from_scalars (strip_bom (run initial buffer)).

(** No unpaired surrogate. *)
Fixpoint well_formed (s : jsstring) : bool :=
  match s with
  | [] => true
  | c :: rest =>
      if is_high_surrogate c then
        match rest with
        | d :: rest' => is_low_surrogate d && well_formed rest'
        | [] => false
        end
      else negb (is_low_surrogate c) && well_formed rest
  end.

Definition starts_with_bom (s : jsstring) : bool :=
  match s with
  | c :: _ => c =? byte_order_mark
  | [] => false
  end.

(** A Unicode scalar value: a code point that is not a surrogate. *)
Definition is_scalar (cp : N) : Prop :=
  cp < 0x110000 /\ ~ (0xD800 <= cp <= 0xDFFF).

End Utf8.

(** ** AES (FIPS 197) *)

Module AES.

(** Multiplication by [x] in GF(2^8), modulo [x^8 + x^4 + x^3 + x + 1]. *)
Definition xtime (b : N) : N :=
  if b <? 128 then 2 * b else N.lxor (2 * b - 256) 0x1B.

Fixpoint gmul_aux (n : nat) (a b acc : N) : N :=
  match n with
  | O => acc
  | S n' =>
      gmul_aux n' (xtime a) (b / 2) (if N.odd b then N.lxor acc a else acc)
  end.

(** The product of two bytes in GF(2^8). *)
Definition gmul (a b : N) : N := gmul_aux 8 a b 0.

Definition square (a : N) : N := gmul a a.

(** [a^254], the inverse of a non-zero byte (and 0 for 0). *)
Definition inverse (a : N) : N :=
  let a2 := square a in
  let a4 := square a2 in
  let a8 := square a4 in
  let a16 := square a8 in
  let a32 := square a16 in
  let a64 := square a32 in
  let a128 := square a64 in
  gmul a128 (gmul a64 (gmul a32 (gmul a16 (gmul a8 (gmul a4 a2))))).

Definition rotl8 (b : N) (k : N) : N :=
  (N.shiftl b k mod 256) + N.shiftr b (8 - k).

Definition sbox_of (a : N) : N :=
  let b := inverse a in
  N.lxor b (N.lxor (rotl8 b 1) (N.lxor (rotl8 b 2)
    (N.lxor (rotl8 b 3) (N.lxor (rotl8 b 4) 0x63)))).

Definition sbox_table : list N :=
  Eval vm_compute in List.map (fun i => sbox_of (N.of_nat i)) (seq 0 256).

Definition sbox (a : N) : N := nth (N.to_nat a) sbox_table 0.

Definition xor_bytes (a b : bytes) : bytes :=
  List.map (fun p => N.lxor (fst p) (snd p)) (combine a b).

Definition sub_bytes (st : bytes) : bytes := List.map sbox st.

(** The state is stored by columns: byte [r + 4c] is row [r] of column [c]. *)
Definition shift_rows (st : bytes) : bytes :=
  List.map (fun i => nth i st 0)
    [0; 5; 10; 15; 4; 9; 14; 3; 8; 13; 2; 7; 12; 1; 6; 11]%nat.

Definition mix_column (a0 a1 a2 a3 : N) : bytes :=
  [N.lxor (gmul 2 a0) (N.lxor (gmul 3 a1) (N.lxor a2 a3));
   N.lxor a0 (N.lxor (gmul 2 a1) (N.lxor (gmul 3 a2) a3));
   N.lxor a0 (N.lxor a1 (N.lxor (gmul 2 a2) (gmul 3 a3)));
   N.lxor (gmul 3 a0) (N.lxor a1 (N.lxor a2 (gmul 2 a3)))].

Fixpoint mix_columns (st : bytes) : bytes :=
  match st with
  | a0 :: a1 :: a2 :: a3 :: rest => mix_column a0 a1 a2 a3 ++ mix_columns rest
  | _ => []
  end.

Definition sub_word (w : bytes) : bytes := List.map sbox w.

Definition rot_word (w : bytes) : bytes :=
  match w with
  | a :: rest => rest ++ [a]
  | [] => []
  end.

Fixpoint rcon (i : nat) : N :=
  match i with
  | O => 0
  | 1%nat => 1
  | S i' => xtime (rcon i')
  end.

(** The words [Nk .. Nk + count - 1] of the key schedule, appended to the
    words [w] already computed; a word is four bytes. *)
Fixpoint expand (Nk : nat) (count : nat) (w : list bytes) : list bytes :=
  match count with
  | O => w
  | S count' =>
      let i := List.length w in
      let temp := nth (i - 1) w [] in
      let temp :=
        if Nat.eqb (Nat.modulo i Nk) 0
        then xor_bytes (sub_word (rot_word temp)) [rcon (Nat.div i Nk); 0; 0; 0]
        else if Nat.ltb 6 Nk && Nat.eqb (Nat.modulo i Nk) 4 then sub_word temp
        else temp in
      expand Nk count' (w ++ [xor_bytes (nth (i - Nk) w []) temp])
  end.

Fixpoint words (b : bytes) : list bytes :=
  match b with
  | a0 :: a1 :: a2 :: a3 :: rest => [a0; a1; a2; a3] :: words rest
  | _ => []
  end.

(** The round keys of a key of 16, 24 or 32 bytes: [Nr + 1] blocks. *)
Definition key_schedule (key : bytes) : list bytes :=
  let Nk := Nat.div (List.length key) 4 in
  let Nr := (Nk + 6)%nat in
  let w := expand Nk (4 * (Nr + 1) - Nk) (words key) in
  List.map (@List.concat N) (
    (fix blocks (n : nat) (w : list bytes) : list (list bytes) :=
       match n, w with
       | S n', w0 :: w1 :: w2 :: w3 :: rest => [w0; w1; w2; w3] :: blocks n' rest
       | _, _ => []
       end) (Nr + 1)%nat w).

Definition round (st rk : bytes) : bytes :=
  xor_bytes (mix_columns (shift_rows (sub_bytes st))) rk.

Definition final_round (st rk : bytes) : bytes :=
  xor_bytes (shift_rows (sub_bytes st)) rk.

Fixpoint rounds (st : bytes) (rks : list bytes) : bytes :=
  match rks with
  | [] => st
  | [rk] => final_round st rk
  | rk :: rest => rounds (round st rk) rest
  end.

(** The cipher: one block of 16 bytes under a key of 16, 24 or 32 bytes. *)
Definition encrypt_block (key : bytes) (block : bytes) : bytes :=
  match key_schedule key with
  | rk0 :: rks => rounds (xor_bytes block rk0) rks
  | [] => block
  end.

End AES.


(** ** Galois/Counter Mode (NIST SP 800-38D) *)

Module GCM.

(** A block is the number its sixteen bytes denote, first byte highest. *)
Definition block_of_bytes (b : bytes) : N :=
  fold_left (fun acc x => acc * 256 + x) b 0.

Fixpoint bytes_of_block (n : nat) (x : N) : bytes :=
  match n with
  | O => []
  | S n' => bytes_of_block n' (x / 256) ++ [x mod 256]
  end.

(** Multiplication in GF(2^128): the leftmost bit of a block is the
    coefficient of [x^0], and [R] is [11100001 || 0^120]. *)
Definition R : N := 0xE1 * 2 ^ 120.

Fixpoint mul_aux (n : nat) (x v z : N) : N :=
  match n with
  | O => z
  | S n' =>
      mul_aux n' x
        (if N.odd v then N.lxor (v / 2) R else v / 2)
        (if N.testbit x (N.of_nat n') then N.lxor z v else z)
  end.

Definition mul (x y : N) : N := mul_aux 128 x y 0.

Definition pad16 (b : bytes) : bytes := b ++ repeat 0 (16 - List.length b).

(** The blocks of a byte string, the last one padded with zeros. *)
Fixpoint blocks_of (fuel : nat) (b : bytes) : list N :=
  match fuel, b with
  | S fuel', _ :: _ =>
      block_of_bytes (pad16 (firstn 16 b)) :: blocks_of fuel' (skipn 16 b)
  | _, _ => []
  end.

Definition blocks (b : bytes) : list N := blocks_of (List.length b) b.

Definition ghash (H : N) (xs : list N) : N :=
  fold_left (fun y x => mul (N.lxor y x) H) xs 0.

(** The two bit lengths, 64 bits each. *)
Definition lengths (a c : bytes) : N :=
  (8 * N.of_nat (List.length a)) * 2 ^ 64 + 8 * N.of_nat (List.length c).

Definition inc32 (x : N) : N := (x / 2 ^ 32) * 2 ^ 32 + (x + 1) mod 2 ^ 32.

Section Mode.

(** The block cipher: key and block to block. *)
Variable cipher : bytes -> bytes -> bytes.

Definition E (key : bytes) (x : N) : N :=
  block_of_bytes (cipher key (bytes_of_block 16 x)).

Definition hash_subkey (key : bytes) : N := E key 0.

(** The pre-counter block [J0]. *)
Definition J0 (key iv : bytes) : N :=
  if Nat.eqb (List.length iv) 12 then block_of_bytes iv * 2 ^ 32 + 1
  else ghash (hash_subkey key) (blocks iv ++ [lengths [] iv]).

Fixpoint keystream (key : bytes) (cb : N) (n : nat) : bytes :=
  match n with
  | O => []
  | S n' => bytes_of_block 16 (E key cb) ++ keystream key (inc32 cb) n'
  end.

(** [GCTR]: the input xored with the encrypted counter blocks. *)
Definition gctr (key : bytes) (icb : N) (x : bytes) : bytes :=
  AES.xor_bytes x (keystream key icb (Nat.div (List.length x) 16 + 1)).

(** The 128-bit authentication tag of ciphertext [c]. *)
Definition tag (key iv aad c : bytes) : bytes :=
  let s := ghash (hash_subkey key) (blocks aad ++ blocks c ++ [lengths aad c]) in
  bytes_of_block 16 (N.lxor s (E key (J0 key iv))).

(** Authenticated encryption: the ciphertext followed by its tag. *)
Definition encrypt (key iv aad p : bytes) : bytes :=
  let c := gctr key (inc32 (J0 key iv)) p in
  c ++ tag key iv aad c.

Definition bytes_eqb (a b : bytes) : bool :=
  Nat.eqb (List.length a) (List.length b)
  && forallb (fun p => fst p =? snd p) (combine a b).

(** Authenticated decryption: [None] is the failure the standard calls FAIL. *)
Definition decrypt (key iv aad ct : bytes) : option bytes :=
  if Nat.ltb (List.length ct) 16 then None
  else
    let n := (List.length ct - 16)%nat in
    let c := firstn n ct in
    let t := skipn n ct in
    if bytes_eqb t (tag key iv aad c)
    then Some (gctr key (inc32 (J0 key iv)) c)
    else None.

(** Tag verification: the input holds a tag, and it is the tag of the rest. *)
Definition verify (key iv aad ct : bytes) : bool :=
  negb (Nat.ltb (List.length ct) 16)
  && bytes_eqb (skipn (List.length ct - 16) ct)
       (tag key iv aad (firstn (List.length ct - 16) ct)).

End Mode.

End GCM.

(** ** The environment of a call *)

(** The durable key-value storage, the bytes the secure random source will
    hand out and the readings of the clock, with how many of each have been
    consumed. *)
Record world := {
  localStorage : gmap jsstring jsstring;
  entropy : nat -> N;
  drawn : nat;
  clock : nat -> N;
  ticks : nat
}.

(** A computation reads and updates the world and returns or throws; what
    it did before a throw stays done. *)
Definition M (A : Type) : Type := world -> result A * world.

Definition ret {A} (a : A) : M A := fun w => (Ok a, w).

Definition throw {A} (e : exn) : M A := fun w => (Throw e, w).

Definition bindM {A B} (m : M A) (k : A -> M B) : M B :=
  fun w =>
    match m w with
    | (Ok a, w') => k a w'
    | (Throw e, w') => (Throw e, w')
    end.

Definition lift {A} (r : result A) : M A := fun w => (r, w).

Notation "'let!' x ':=' m 'in' k" := (bindM m (fun x => k))
  (at level 10, x pattern, m at level 100, k at level 200).

(** [try { body } catch (error) { throw new Error(message) }] *)
Definition try_catch {A} (body : M A) (message : string) : M A :=
  fun w =>
    match body w with
    | (Ok a, w') => (Ok a, w')
    | (Throw _, w') => (Throw (Error message), w')
    end.

(** [crypto.getRandomValues(new Uint8Array(n))] *)
Definition getRandomValues (n : nat) : M bytes :=
  fun w =>
    (Ok (List.map (fun i => entropy w (drawn w + i)%nat mod 256) (seq 0 n)),
     {| localStorage := localStorage w; entropy := entropy w;
        drawn := (drawn w + n)%nat; clock := clock w; ticks := ticks w |}).

(** [Date.now()]: milliseconds, at most 8.64e15. *)
Definition Date_now : M N :=
  fun w =>
    (Ok (N.min (clock w (ticks w)) 8640000000000000),
     {| localStorage := localStorage w; entropy := entropy w;
        drawn := drawn w; clock := clock w; ticks := S (ticks w) |}).

(** ** Web Crypto: [crypto.subtle] with AES-GCM *)

(** A [CryptoKey] of algorithm AES-GCM, extractable, usable to encrypt and
    decrypt: it is determined by its raw bytes. *)
Record CryptoKey := { raw : bytes }.

(** [crypto.subtle.generateKey({name: 'AES-GCM', length: 256}, true, ...)] *)
Definition subtle_generateKey : M CryptoKey :=
  let! k := getRandomValues 32 in
  ret {| raw := k |}.

(** [crypto.subtle.exportKey('raw', key)] *)
Definition subtle_exportKey (key : CryptoKey) : result bytes := Ok (raw key).

(** [crypto.subtle.importKey('raw', data, {name: 'AES-GCM'}, ...)]: the data
    must be 128, 192 or 256 bits long. *)
Definition subtle_importKey (data : bytes) : result CryptoKey :=
  let n := List.length data in
  if Nat.eqb n 16 || Nat.eqb n 24 || Nat.eqb n 32
  then Ok {| raw := data |}
  else Throw DataError.

(** The iv AES-GCM is given: 96 bits, the length the standard recommends
    and the only one the source generates, or 128 bits.  An iv of another
    length, the empty one included, is refused: implementations do not
    agree on them, and SP 800-38D has no empty iv. *)
Definition iv_supported (iv : bytes) : bool :=
  Nat.eqb (List.length iv) 12 || Nat.eqb (List.length iv) 16.

(** [crypto.subtle.encrypt({name: 'AES-GCM', iv}, key, data)]: no additional
    data, a tag of 128 bits. *)
Definition subtle_encrypt (iv : bytes) (key : CryptoKey) (data : bytes) : result bytes :=
  if iv_supported iv
  then Ok (GCM.encrypt AES.encrypt_block (raw key) iv [] data)
  else Throw OperationError.

(** [crypto.subtle.decrypt({name: 'AES-GCM', iv}, key, data)] *)
Definition subtle_decrypt (iv : bytes) (key : CryptoKey) (data : bytes) : result bytes :=
  if iv_supported iv then
    match GCM.decrypt AES.encrypt_block (raw key) iv [] data with
    | Some plaintext => Ok plaintext
    | None => Throw OperationError
    end
  else Throw OperationError.

(** A [Blob]: its bytes and its media type. *)
Record Blob := { blob_bytes : bytes; blob_type : jsstring }.

Definition ascii_lowercase (c : N) : N :=
  if (65 <=? c) && (c <=? 90) then c + 32 else c.

(** [new Blob([buffer], {type})]: the type is lowercased, and dropped when
    it has a character outside U+0020 .. U+007E. *)
Definition new_Blob (buffer : bytes) (type : jsstring) : Blob :=
  {| blob_bytes := buffer;
     blob_type :=
       if forallb (fun c => (0x20 <=? c) && (c <=? 0x7E)) type
       then List.map ascii_lowercase type else [] |}.

(** ** [crypto.ts] *)

Module Crypto.

Definition ALGORITHM : jsstring := js "AES-GCM".
Definition KEY_LENGTH : jsstring := js "256".
Definition IV_LENGTH : nat := 12.

Record EncryptedData := {
  ciphertext : jsstring;
  iv : jsstring;
  algorithm : jsstring
}.

Record EncryptionKey := {
  key : CryptoKey;
  keyData : jsstring
}.

Record EncryptedFile := {
  encryptedBlob : Blob;
  file_iv : jsstring;
  file_algorithm : jsstring
}.

(** [String.fromCharCode(n)] *)
Definition fromCharCode (n : N) : N := n mod 65536.

(** [arrayBufferToBase64(buffer)]: the bytes become a binary string, one
    code unit per byte, which [btoa] encodes. *)
Definition arrayBufferToBase64 (buffer : bytes) : result jsstring :=
  let binary := List.map fromCharCode buffer in
  Base64.btoa binary.

(** [base64ToArrayBuffer(base64)]: [atob], then one byte per code unit
    (a store into a [Uint8Array] keeps the low eight bits). *)
Definition base64ToArrayBuffer (base64 : jsstring) : result bytes :=
  let* binary := Base64.atob base64 in
  Ok (List.map (fun c => c mod 256) binary).

Definition generateEncryptionKey : M EncryptionKey :=
  try_catch
    (let! key := subtle_generateKey in
     let! rawKey := lift (subtle_exportKey key) in
     let! keyData := lift (arrayBufferToBase64 rawKey) in
     ret {| key := key; keyData := keyData |})
    "Failed to generate encryption key".

Definition importEncryptionKey (keyData : jsstring) : result CryptoKey :=
  try_catch_rethrow
    (let* rawKey := base64ToArrayBuffer keyData in
     let* key := subtle_importKey rawKey in
     Ok key)
    "Failed to import encryption key".

Definition encryptText (text : jsstring) (key : CryptoKey) : M EncryptedData :=
  try_catch
    (let! iv := getRandomValues IV_LENGTH in
     let data := Utf8.TextEncoder_encode text in
     let! ciphertext := lift (subtle_encrypt iv key data) in
     let! ciphertext64 := lift (arrayBufferToBase64 ciphertext) in
     let! iv64 := lift (arrayBufferToBase64 iv) in
     ret {| ciphertext := ciphertext64; iv := iv64;
            algorithm := ALGORITHM ++ js "-" ++ KEY_LENGTH |})
    "Failed to encrypt text".

Definition decryptText (encryptedData : EncryptedData) (key : CryptoKey) : result jsstring :=
  try_catch_rethrow
    (let* ciphertext := base64ToArrayBuffer (ciphertext encryptedData) in
     let* iv := base64ToArrayBuffer (iv encryptedData) in
     let* decrypted := subtle_decrypt iv key ciphertext in
     Ok (Utf8.TextDecoder_decode decrypted))
    "Failed to decrypt text. Data may be corrupted or key is incorrect.".

Definition encryptFile (file : Blob) (key : CryptoKey) : M EncryptedFile :=
  try_catch
    (let! iv := getRandomValues IV_LENGTH in
     let fileBuffer := blob_bytes file in
     let! ciphertext := lift (subtle_encrypt iv key fileBuffer) in
     let encryptedBlob := new_Blob ciphertext (js "application/octet-stream") in
     let! iv64 := lift (arrayBufferToBase64 iv) in
     ret {| encryptedBlob := encryptedBlob; file_iv := iv64;
            file_algorithm := ALGORITHM ++ js "-" ++ KEY_LENGTH |})
    "Failed to encrypt file".

Definition decryptFile (encryptedBlob : Blob) (iv : jsstring) (key : CryptoKey)
    (originalType : jsstring) : result Blob :=
  try_catch_rethrow
    (let ciphertext := blob_bytes encryptedBlob in
     let* ivBuffer := base64ToArrayBuffer iv in
     let* decrypted := subtle_decrypt ivBuffer key ciphertext in
     Ok (new_Blob decrypted originalType))
    "Failed to decrypt file. Data may be corrupted or key is incorrect.".

End Crypto.

Import Crypto.

(** ** JavaScript values and [JSON] (ECMA-262, ECMA-404) *)

(** A number is a double.  An integer of magnitude at most [2^53] is [Int];
    any other finite double is [Double], with the mantissa and the exponent
    binary64 gives it ([m × 2^e], [m] below [2^53]); the rest is
    [Infinite].  Negative zero is not told apart from zero: nothing the
    program does with a number can tell. *)
Inductive number : Type :=
  | Int (z : Z)
  | Double (negative : bool) (m : positive) (e : Z)
  | Infinite (negative : bool).

Module Num.

Definition signed (negative : bool) (z : Z) : Z := if negative then (- z)%Z else z.

(** The double nearest to [m × 10^e], ties to even.  A value that is sure
    to overflow or to round to zero is settled without the power of ten. *)
Definition double_of_decimal (m : positive) (e : Z) : SpecFloat.spec_float :=
  let bits := Z.log2 (Zpos m) in
  match e with
  | Z0 => SpecFloat.binary_normalize 53 1024 (Zpos m) 0 false
  | Zpos k =>
      if (1100 <? bits + 3 * e)%Z then SpecFloat.S754_infinity false
      else SpecFloat.binary_normalize 53 1024 (Zpos m * 10 ^ e) 0 false
  | Zneg k =>
      if (bits + 1 + 3 * e <? -1100)%Z then SpecFloat.S754_zero false
      else SpecFloat.SFdiv 53 1024 (SpecFloat.S754_finite false m 0)
             (SpecFloat.S754_finite false (10 ^ k) 0)
  end.

(** The number a double is. *)
Definition of_double (negative : bool) (f : SpecFloat.spec_float) : number :=
  match f with
  | SpecFloat.S754_finite _ m e =>
      match e with
      | Z0 =>
          if (Zpos m <=? 2 ^ 53)%Z then Int (signed negative (Zpos m))
          else Double negative m e
      | Zpos _ =>
          if (Zpos m * 2 ^ e <=? 2 ^ 53)%Z then Int (signed negative (Zpos m * 2 ^ e))
          else Double negative m e
      | Zneg k =>
          if (Zpos m mod 2 ^ Zpos k =? 0)%Z
          then Int (signed negative (Zpos m / 2 ^ Zpos k))
          else Double negative m e
      end
  | SpecFloat.S754_infinity _ => Infinite negative
  | _ => Int 0
  end.

(** The Number value of the decimal [± m × 10^e]. *)
Definition of_decimal (negative : bool) (m : N) (e : Z) : number :=
  match m with
  | N0 => Int 0
  | Npos p =>
      if (e =? 0)%Z && (m <=? 2 ^ 53) then Int (signed negative (Z.of_N m))
      else of_double negative (double_of_decimal p e)
  end.

(** Whether the decimal [s × 10^j] is read as the double [m × 2^e]. *)
Definition reads_as (m : positive) (e : Z) (s : Z) (j : Z) : bool :=
  match s with
  | Zpos p =>
      match double_of_decimal p j with
      | SpecFloat.S754_finite _ m' e' => (m' =? m)%positive && (e' =? e)%Z
      | _ => false
      end
  | _ => false
  end.

(** The least [j] from [fuel] down with [10^j * num >= den], counted from
    zero: how far below one the value [num / den] lies. *)
Fixpoint below_one (fuel : nat) (num den : Z) : Z :=
  match fuel with
  | O => 0
  | S fuel' => if (den <=? num)%Z then 0 else 1 + below_one fuel' (10 * num) den
  end.

(** The number of decimal digits of a positive integer. *)
Fixpoint count_digits (fuel : nat) (z : Z) : Z :=
  match fuel with
  | O => 0
  | S fuel' => if (z <? 10)%Z then 1 else 1 + count_digits fuel' (z / 10)
  end.

(** [n] with [10^(n-1) <= num / den < 10^n]. *)
Definition magnitude (num den : Z) : Z :=
  if (den <=? num)%Z then count_digits 400 (num / den)
  else 1 - below_one 400 num den.

(** [num / den] in units of [10^j]: numerator and denominator. *)
Definition scaled (num den j : Z) : Z * Z :=
  if (j <=? 0)%Z then (num * 10 ^ (- j), den)%Z else (num, den * 10 ^ j)%Z.

Definition scaled_floor (num den j : Z) : Z * Z :=
  let (A, B) := scaled num den j in ((A / B)%Z, j).

(** The decimal of [k] digits nearest to [num / den], among those read as
    the double: the one below, the one above, or none. *)
Definition candidate (m : positive) (e : Z) (num den n k : Z) : option (Z * Z) :=
  let j := (n - k)%Z in
  let (A, B) := scaled num den j in
  let s := (A / B)%Z in
  let r := (A mod B)%Z in
  match reads_as m e s j, reads_as m e (s + 1) j with
  | true, true =>
      if (2 * r <? B)%Z then Some (s, j)
      else if (B <? 2 * r)%Z then Some (s + 1, j)%Z
      else if Z.even s then Some (s, j) else Some (s + 1, j)%Z
  | true, false => Some (s, j)
  | false, true => Some (s + 1, j)%Z
  | false, false => None
  end.

(** The shortest decimal read as the double, from one digit up; seventeen
    digits always do. *)
Fixpoint shortest_from (fuel : nat) (m : positive) (e : Z) (num den n k : Z) : Z * Z :=
  match fuel with
  | O => scaled_floor num den (n - 17)
  | S fuel' =>
      match candidate m e num den n k with
      | Some c => c
      | None => shortest_from fuel' m e num den n (k + 1)
      end
  end.

Fixpoint strip_zeros (fuel : nat) (s j : Z) : Z * Z :=
  match fuel with
  | O => (s, j)
  | S fuel' =>
      if (s mod 10 =? 0)%Z then strip_zeros fuel' (s / 10) (j + 1) else (s, j)
  end.

(** The digits [s] and the exponent [j] of the shortest decimal [s × 10^j]
    of the double [m × 2^e]; [s] does not end in zero. *)
Definition shortest (m : positive) (e : Z) : Z * Z :=
  let num := (Zpos m * 2 ^ Z.max e 0)%Z in
  let den := (2 ^ Z.max (- e) 0)%Z in
  let n := magnitude num den in
  let (s, j) := shortest_from 17 m e num den n 1 in
  strip_zeros 20 s j.

End Num.

#[warnings="-register-all"]
Inductive value : Type :=
  | Undefined
  | Null
  | Bool (b : bool)
  | Num (n : number)
  | Str (s : jsstring)
  | Arr (elements : list value)
  | Obj (fields : list (jsstring * value)).

Module JS.

(** [ToBoolean] *)
Definition truthy (v : value) : bool :=
  match v with
  | Undefined | Null => false
  | Bool b => b
  | Num (Int z) => negb (Z.eqb z 0)
  | Num _ => true
  | Str s => negb (Nat.eqb (List.length s) 0)
  | Arr _ | Obj _ => true
  end.

Definition jsstring_eqb (a b : jsstring) : bool :=
  if decide (a = b) then true else false.

(** The decimal digits of a natural number, by the library's conversion. *)
Fixpoint codes_of_uint (u : Decimal.uint) : jsstring :=
  match u with
  | Decimal.Nil => []
  | Decimal.D0 u' => 0x30 :: codes_of_uint u'
  | Decimal.D1 u' => 0x31 :: codes_of_uint u'
  | Decimal.D2 u' => 0x32 :: codes_of_uint u'
  | Decimal.D3 u' => 0x33 :: codes_of_uint u'
  | Decimal.D4 u' => 0x34 :: codes_of_uint u'
  | Decimal.D5 u' => 0x35 :: codes_of_uint u'
  | Decimal.D6 u' => 0x36 :: codes_of_uint u'
  | Decimal.D7 u' => 0x37 :: codes_of_uint u'
  | Decimal.D8 u' => 0x38 :: codes_of_uint u'
  | Decimal.D9 u' => 0x39 :: codes_of_uint u'
  end.

Definition digits (n : N) : jsstring := codes_of_uint (N.to_uint n).

(** [Number::toString] of an exact integer. *)
Definition print_int (z : Z) : jsstring :=
  if (z <? 0)%Z then 0x2D :: digits (Z.abs_N z) else digits (Z.abs_N z).

(** [Number::toString] of a double that is not [Int]: the digits of its
    shortest decimal, written out when the point falls within twenty-one
    digits or at most six zeros follow it, and with an exponent otherwise. *)
Definition print_double (m : positive) (e : Z) : jsstring :=
  let (s, j) := Num.shortest m e in
  let ds := digits (Z.to_N s) in
  let k := Z.of_nat (List.length ds) in
  let n := (k + j)%Z in
  if ((k <=? n) && (n <=? 21))%Z then ds ++ repeat 0x30 (Z.to_nat (n - k))
  else if ((0 <? n) && (n <=? 21))%Z
  then firstn (Z.to_nat n) ds ++ 0x2E :: skipn (Z.to_nat n) ds
  else if ((-6 <? n) && (n <=? 0))%Z
  then 0x30 :: 0x2E :: repeat 0x30 (Z.to_nat (- n)) ++ ds
  else
    let exponent :=
      0x65 :: (if (n - 1 <? 0)%Z then 0x2D else 0x2B) :: digits (Z.abs_N (n - 1)) in
    match ds with
    | [d] => d :: exponent
    | d :: rest => d :: 0x2E :: rest ++ exponent
    | [] => exponent
    end.

(** [Number::toString] *)
Definition print_number (n : number) : jsstring :=
  match n with
  | Int z => print_int z
  | Double negative m e =>
      if negative then 0x2D :: print_double m e else print_double m e
  | Infinite negative =>
      if negative then js "-Infinity" else js "Infinity"
  end.

(** The number a string of digits denotes. *)
Fixpoint uint_of_codes (s : jsstring) : option Decimal.uint :=
  match s with
  | [] => Some Decimal.Nil
  | c :: rest =>
      match uint_of_codes rest with
      | None => None
      | Some u =>
          if c =? 0x30 then Some (Decimal.D0 u)
          else if c =? 0x31 then Some (Decimal.D1 u)
          else if c =? 0x32 then Some (Decimal.D2 u)
          else if c =? 0x33 then Some (Decimal.D3 u)
          else if c =? 0x34 then Some (Decimal.D4 u)
          else if c =? 0x35 then Some (Decimal.D5 u)
          else if c =? 0x36 then Some (Decimal.D6 u)
          else if c =? 0x37 then Some (Decimal.D7 u)
          else if c =? 0x38 then Some (Decimal.D8 u)
          else if c =? 0x39 then Some (Decimal.D9 u)
          else None
      end
  end.

Definition digits_value (s : jsstring) : option N :=
  match uint_of_codes s with
  | Some u => Some (N.of_uint u)
  | None => None
  end.

(** A property name is an array index when it is the canonical form of an
    integer below [2^32 - 1]. *)
Definition array_index (k : jsstring) : option N :=
  match k with
  | [] => None
  | c :: rest =>
      if (c =? 0x30) && negb (Nat.eqb (List.length rest) 0) then None
      else match digits_value k with
           | Some n => if n <? 2 ^ 32 - 1 then Some n else None
           | None => None
           end
  end.

Fixpoint has_key (fields : list (jsstring * value)) (k : jsstring) : bool :=
  match fields with
  | [] => false
  | (k', _) :: rest => jsstring_eqb k k' || has_key rest k
  end.

Fixpoint replace (fields : list (jsstring * value)) (k : jsstring) (v : value)
    : list (jsstring * value) :=
  match fields with
  | [] => []
  | (k', v') :: rest =>
      if jsstring_eqb k k' then (k, v) :: rest else (k', v') :: replace rest k v
  end.

(** A new array index goes before the first property that is not an array
    index or is a larger one. *)
Fixpoint insert_index (fields : list (jsstring * value)) (i : N) (k : jsstring)
    (v : value) : list (jsstring * value) :=
  match fields with
  | [] => [(k, v)]
  | (k', v') :: rest =>
      match array_index k' with
      | Some j => if j <? i then (k', v') :: insert_index rest i k v
                  else (k, v) :: fields
      | None => (k, v) :: fields
      end
  end.

(** Defining property [k] of an ordinary object: an existing property keeps
    its place; a new one is enumerated after the others, array indices
    first and in ascending order. *)
Definition set (fields : list (jsstring * value)) (k : jsstring) (v : value)
    : list (jsstring * value) :=
  if has_key fields k then replace fields k v
  else match array_index k with
       | Some i => insert_index fields i k v
       | None => fields ++ [(k, v)]
       end.

Fixpoint lookup (fields : list (jsstring * value)) (k : jsstring) : value :=
  match fields with
  | [] => Undefined
  | (k', v) :: rest => if jsstring_eqb k k' then v else lookup rest k
  end.

(** [v.name], for the names the source reads ([keyData], [metadata],
    [version], [createdAt], [userId]): none of them is a property of arrays,
    strings, numbers or booleans. *)
Definition get (v : value) (name : jsstring) : result value :=
  match v with
  | Undefined | Null => Throw TypeError
  | Obj fields => Ok (lookup fields name)
  | _ => Ok Undefined
  end.

Definition join (sep : jsstring) (parts : list jsstring) : jsstring :=
  match parts with
  | [] => []
  | p :: rest => p ++ flat_map (fun q => sep ++ q) rest
  end.

(** [ToString] *)
Fixpoint to_string (v : value) : jsstring :=
  match v with
  | Undefined => js "undefined"
  | Null => js "null"
  | Bool true => js "true"
  | Bool false => js "false"
  | Num n => print_number n
  | Str s => s
  | Arr l =>
      join (js ",")
        (List.map (fun e => match e with
                            | Undefined | Null => []
                            | _ => to_string e
                            end) l)
  | Obj _ => js "[object Object]"
  end.

(** The own enumerable properties [{...v}] copies. *)
Definition own_properties (v : value) : list (jsstring * value) :=
  match v with
  | Obj fields => fields
  | Arr l =>
      List.map (fun p => (digits (N.of_nat (fst p)), snd p))
        (combine (seq 0 (List.length l)) l)
  | Str s =>
      List.map (fun p => (digits (N.of_nat (fst p)), Str [snd p]))
        (combine (seq 0 (List.length s)) s)
  | _ => []
  end.

(** [{...v}]: the properties are defined one by one on a new object. *)
Definition spread (v : value) : list (jsstring * value) :=
  fold_left (fun acc p => set acc (fst p) (snd p)) (own_properties v) [].

End JS.

Module JSON.

Definition hex_char (d : N) : N := if d <? 10 then 0x30 + d else 0x61 + (d - 10).

(** The escape [\uXXXX] of a code unit. *)
Definition unicode_escape (c : N) : jsstring :=
  [0x5C; 0x75; hex_char (c / 4096); hex_char ((c / 256) mod 16);
   hex_char ((c / 16) mod 16); hex_char (c mod 16)].

(** One code unit that is not a surrogate, quoted. *)
Definition quote_unit (c : N) : jsstring :=
  if c =? 0x08 then [0x5C; 0x62]
  else if c =? 0x09 then [0x5C; 0x74]
  else if c =? 0x0A then [0x5C; 0x6E]
  else if c =? 0x0C then [0x5C; 0x66]
  else if c =? 0x0D then [0x5C; 0x72]
  else if c =? 0x22 then [0x5C; 0x22]
  else if c =? 0x5C then [0x5C; 0x5C]
  else if c <? 0x20 then unicode_escape c
  else [c].

(** [QuoteJSONString] without the enclosing quotes: a surrogate pair stays,
    a surrogate outside a pair is escaped. *)
Fixpoint quote_body (s : jsstring) : jsstring :=
  match s with
  | [] => []
  | c :: rest =>
      if Utf8.is_high_surrogate c then
        match rest with
        | d :: rest' =>
            if Utf8.is_low_surrogate d then c :: d :: quote_body rest'
            else unicode_escape c ++ quote_body rest
        | [] => unicode_escape c
        end
      else if Utf8.is_low_surrogate c then unicode_escape c ++ quote_body rest
      else quote_unit c ++ quote_body rest
  end.

Definition quote (s : jsstring) : jsstring := 0x22 :: quote_body s ++ [0x22].

(** [JSON.stringify(v)] with no replacer and no indentation.  A property
    whose value is [undefined] is left out; in an array [undefined] is
    [null]. *)
Fixpoint stringify (v : value) : jsstring :=
  match v with
  | Undefined => js "undefined"
  | Null => js "null"
  | Bool true => js "true"
  | Bool false => js "false"
  | Num (Infinite _) => js "null"
  | Num n => JS.print_number n
  | Str s => quote s
  | Arr l =>
      0x5B :: JS.join [0x2C]
        (List.map (fun e => match e with
                            | Undefined => js "null"
                            | _ => stringify e
                            end) l) ++ [0x5D]
  | Obj fields =>
      0x7B :: JS.join [0x2C]
        (flat_map (fun p => match snd p with
                            | Undefined => []
                            | _ => [quote (fst p) ++ 0x3A :: stringify (snd p)]
                            end) fields) ++ [0x7D]
  end.

Definition is_ws (c : N) : bool :=
  (c =? 0x20) || (c =? 0x09) || (c =? 0x0A) || (c =? 0x0D).

Fixpoint skip_ws (s : jsstring) : jsstring :=
  match s with
  | c :: rest => if is_ws c then skip_ws rest else s
  | [] => []
  end.

Definition hex_value (c : N) : option N :=
  if (0x30 <=? c) && (c <=? 0x39) then Some (c - 0x30)
  else if (0x61 <=? c) && (c <=? 0x66) then Some (c - 0x61 + 10)
  else if (0x41 <=? c) && (c <=? 0x46) then Some (c - 0x41 + 10)
  else None.

Definition simple_escape (e : N) : option N :=
  if e =? 0x22 then Some 0x22
  else if e =? 0x5C then Some 0x5C
  else if e =? 0x2F then Some 0x2F
  else if e =? 0x62 then Some 0x08
  else if e =? 0x66 then Some 0x0C
  else if e =? 0x6E then Some 0x0A
  else if e =? 0x72 then Some 0x0D
  else if e =? 0x74 then Some 0x09
  else None.

(** The characters of a string literal after its opening quote, up to and
    with the closing quote. *)
Fixpoint parse_string (s : jsstring) : option (jsstring * jsstring) :=
  match s with
  | [] => None
  | c :: rest =>
      if c =? 0x22 then Some ([], rest)
      else if c =? 0x5C then
        match rest with
        | e :: rest1 =>
            if e =? 0x75 then
              match rest1 with
              | h1 :: h2 :: h3 :: h4 :: rest2 =>
                  match hex_value h1, hex_value h2, hex_value h3, hex_value h4 with
                  | Some a, Some b, Some c', Some d =>
                      match parse_string rest2 with
                      | Some (str, r) =>
                          Some ((a * 4096 + b * 256 + c' * 16 + d) :: str, r)
                      | None => None
                      end
                  | _, _, _, _ => None
                  end
              | _ => None
              end
            else
              match simple_escape e with
              | Some u =>
                  match parse_string rest1 with
                  | Some (str, r) => Some (u :: str, r)
                  | None => None
                  end
              | None => None
              end
        | [] => None
        end
      else if c <? 0x20 then None
      else match parse_string rest with
           | Some (str, r) => Some (c :: str, r)
           | None => None
           end
  end.

Definition is_digit (c : N) : bool := (0x30 <=? c) && (c <=? 0x39).

(** The longest prefix of digits. *)
Fixpoint span_digits (s : jsstring) : jsstring * jsstring :=
  match s with
  | c :: rest =>
      if is_digit c then let (d, r) := span_digits rest in (c :: d, r)
      else ([], s)
  | [] => ([], [])
  end.

(** The integer part: [0], or digits that do not start with [0]. *)
Definition span_int (s : jsstring) : option (jsstring * jsstring) :=
  match s with
  | c :: rest =>
      if c =? 0x30 then Some ([c], rest)
      else if is_digit c then Some (span_digits s)
      else None
  | [] => None
  end.

Definition span_fraction (s : jsstring) : option (jsstring * jsstring) :=
  match s with
  | c :: rest =>
      if c =? 0x2E then
        match span_digits rest with
        | ([], _) => None
        | (d, r) => Some (c :: d, r)
        end
      else Some ([], s)
  | [] => Some ([], [])
  end.

Definition span_exponent (s : jsstring) : option (jsstring * jsstring) :=
  match s with
  | c :: rest =>
      if (c =? 0x65) || (c =? 0x45) then
        let (sign, rest1) :=
          match rest with
          | g :: rest' => if (g =? 0x2B) || (g =? 0x2D) then ([g], rest') else ([], rest)
          | [] => ([], [])
          end in
        match span_digits rest1 with
        | ([], _) => None
        | (d, r) => Some (c :: sign ++ d, r)
        end
      else Some ([], s)
  | [] => Some ([], [])
  end.

Definition safe_integer (z : Z) : bool :=
  ((- 2 ^ 53 <=? z) && (z <=? 2 ^ 53))%Z.

(** The value of an exponent part: [e], a sign or none, digits. *)
Definition exponent_value (exp : jsstring) : Z :=
  let value (d : jsstring) : Z :=
    match JS.digits_value d with
    | Some n => Z.of_N n
    | None => 0%Z
    end in
  match exp with
  | _ :: g :: d =>
      if g =? 0x2D then (- value d)%Z
      else if g =? 0x2B then value d
      else value (g :: d)
  | _ => 0%Z
  end.

(** A number literal: its value is the double nearest to the decimal it
    writes, the digits before and after the point times the power of ten
    the exponent and the place of the point give. *)
Definition parse_number (s : jsstring) : option (number * jsstring) :=
  let (sign, s1) :=
    match s with
    | c :: rest => if c =? 0x2D then ([c], rest) else ([], s)
    | [] => ([], [])
    end in
  match span_int s1 with
  | None => None
  | Some (int, s2) =>
      match span_fraction s2 with
      | None => None
      | Some (frac, s3) =>
          match span_exponent s3 with
          | None => None
          | Some (exp, s4) =>
              let negative := match sign with [] => false | _ => true end in
              let decimals := List.tl frac in
              match JS.digits_value (int ++ decimals) with
              | Some m =>
                  Some (Num.of_decimal negative m
                          (exponent_value exp - Z.of_nat (List.length decimals)),
                        s4)
              | None => None
              end
          end
      end
  end.

(** [s] without the prefix [p], when it starts with it. *)
Fixpoint strip_prefix (p s : jsstring) : option jsstring :=
  match p, s with
  | [], _ => Some s
  | a :: p', b :: s' => if a =? b then strip_prefix p' s' else None
  | _ :: _, [] => None
  end.

(** The parser proper.  [fuel] bounds the number of values and members
    read; the length of the text is always enough. *)
Fixpoint parse_value (fuel : nat) (s : jsstring) : option (value * jsstring) :=
  match fuel with
  | O => None
  | S fuel' =>
      match skip_ws s with
      | [] => None
      | c :: r =>
          if c =? 0x22 then
            match parse_string r with
            | Some (str, r') => Some (Str str, r')
            | None => None
            end
          else if c =? 0x7B then
            match skip_ws r with
            | c' :: r' =>
                if c' =? 0x7D then Some (Obj [], r')
                else parse_members fuel' [] r
            | [] => None
            end
          else if c =? 0x5B then
            match skip_ws r with
            | c' :: r' =>
                if c' =? 0x5D then Some (Arr [], r')
                else match parse_elements fuel' r with
                     | Some (l, r'') => Some (Arr l, r'')
                     | None => None
                     end
            | [] => None
            end
          else if c =? 0x74 then
            match strip_prefix (js "rue") r with
            | Some r' => Some (Bool true, r')
            | None => None
            end
          else if c =? 0x66 then
            match strip_prefix (js "alse") r with
            | Some r' => Some (Bool false, r')
            | None => None
            end
          else if c =? 0x6E then
            match strip_prefix (js "ull") r with
            | Some r' => Some (Null, r')
            | None => None
            end
          else
            match parse_number (c :: r) with
            | Some (n, r') => Some (Num n, r')
            | None => None
            end
      end
  end

with parse_members (fuel : nat) (acc : list (jsstring * value)) (s : jsstring)
    : option (value * jsstring) :=
  match fuel with
  | O => None
  | S fuel' =>
      match skip_ws s with
      | c :: r =>
          if c =? 0x22 then
            match parse_string r with
            | Some (k, r1) =>
                match skip_ws r1 with
                | c1 :: r2 =>
                    if c1 =? 0x3A then
                      match parse_value fuel' r2 with
                      | Some (v, r3) =>
                          match skip_ws r3 with
                          | c3 :: r4 =>
                              if c3 =? 0x2C then parse_members fuel' (JS.set acc k v) r4
                              else if c3 =? 0x7D then Some (Obj (JS.set acc k v), r4)
                              else None
                          | [] => None
                          end
                      | None => None
                      end
                    else None
                | [] => None
                end
            | None => None
            end
          else None
      | [] => None
      end
  end

with parse_elements (fuel : nat) (s : jsstring) : option (list value * jsstring) :=
  match fuel with
  | O => None
  | S fuel' =>
      match parse_value fuel' s with
      | Some (v, r1) =>
          match skip_ws r1 with
          | c :: r2 =>
              if c =? 0x2C then
                match parse_elements fuel' r2 with
                | Some (l, r3) => Some (v :: l, r3)
                | None => None
                end
              else if c =? 0x5D then Some ([v], r2)
              else None
          | [] => None
          end
      | None => None
      end
  end.

(** [JSON.parse(text)] *)
Definition parse (text : jsstring) : result value :=
  match parse_value (S (List.length text)) text with
  | Some (v, rest) =>
      match skip_ws rest with
      | [] => Ok v
      | _ :: _ => Throw SyntaxError
      end
  | None => Throw SyntaxError
  end.

(** The text after a number does not go on with it. *)
Definition number_end (rest : jsstring) : bool :=
  match rest with
  | [] => true
  | c :: _ => negb (is_digit c || (c =? 0x2E) || (c =? 0x65) || (c =? 0x45))
  end.

(** The values [stringify] and [parse] carry without loss: no [undefined],
    numbers that are exact integers, and objects whose properties are in
    the order JavaScript enumerates them, no name twice. *)
Fixpoint exact (v : value) : Prop :=
  match v with
  | Undefined => False
  | Null | Bool _ | Str _ => True
  | Num (Int z) => safe_integer z = true
  | Num _ => False
  | Arr l =>
      (fix all (l : list value) : Prop :=
         match l with
         | [] => True
         | e :: l' => exact e /\ all l'
         end) l
  | Obj fields =>
      (fix all (fields : list (jsstring * value)) : Prop :=
         match fields with
         | [] => True
         | p :: fields' => exact (snd p) /\ all fields'
         end) fields
      /\ JS.spread (Obj fields) = fields
  end.

(** What it is for a value to be read back from its text, whatever follows
    the text. *)
Definition reads_back (v : value) : Prop :=
  exact v -> forall fuel rest,
    (List.length (stringify v) < fuel)%nat -> number_end rest = true ->
    parse_value fuel (stringify v ++ rest) = Some (v, rest).

(** The first character of the text of a value. *)
Definition value_start (c : N) : bool :=
  (c =? 0x22) || (c =? 0x7B) || (c =? 0x5B) || (c =? 0x74) || (c =? 0x66)
  || (c =? 0x6E) || (c =? 0x2D) || is_digit c.

(** The text of an array element and of an object member. *)
Definition element_text (e : value) : jsstring :=
  match e with
  | Undefined => js "null"
  | _ => stringify e
  end.

Definition member_text (p : jsstring * value) : jsstring :=
  quote (fst p) ++ 0x3A :: stringify (snd p).

End JSON.

(** ** [localStorage] *)

(** [localStorage.getItem(name)]: [None] is [null]. *)
Definition getItem (name : jsstring) : M (option jsstring) :=
  fun w => (Ok (localStorage w !! name), w).

(** [localStorage.setItem(name, data)] *)
Definition setItem (name data : jsstring) : M unit :=
  fun w =>
    (Ok tt,
     {| localStorage := <[name := data]> (localStorage w); entropy := entropy w;
        drawn := drawn w; clock := clock w; ticks := ticks w |}).

(** [localStorage.removeItem(name)] *)
Definition removeItem (name : jsstring) : M unit :=
  fun w =>
    (Ok tt,
     {| localStorage := delete name (localStorage w); entropy := entropy w;
        drawn := drawn w; clock := clock w; ticks := ticks w |}).

(** [!data] for what [getItem] returned: [null] and the empty string. *)
Definition falsy (data : option jsstring) : bool :=
  match data with
  | None | Some [] => true
  | Some (_ :: _) => false
  end.

Definition text_of (data : option jsstring) : jsstring :=
  match data with
  | Some s => s
  | None => js "null"
  end.

(** ** [keyStorage.ts] *)

Module KeyStorage.

Definition KEY_PREFIX : jsstring := js "reflections_encryption_key_".
Definition METADATA_PREFIX : jsstring := js "reflections_key_metadata_".
Definition KEY_VERSION : jsstring := js "1.0".

(** [metadata] is a [KeyMetadata] by its declared type; at run time it is
    whatever [JSON.parse] returned. *)
Record StoredKey := {
  key : CryptoKey;
  metadata : value
}.

Definition generateAndStoreKey (userId : jsstring) : M StoredKey :=
  try_catch
    (let! generated := generateEncryptionKey in
     let! now := Date_now in
     let metadata :=
       Obj [(js "version", Str KEY_VERSION);
            (js "createdAt", Num (Int (Z.of_N now)));
            (js "algorithm", Str (js "AES-256-GCM"));
            (js "userId", Str userId)] in
     let! _ := setItem (KEY_PREFIX ++ userId) (Crypto.keyData generated) in
     let! _ := setItem (METADATA_PREFIX ++ userId) (JSON.stringify metadata) in
     ret {| key := Crypto.key generated; metadata := metadata |})
    "Failed to generate encryption key".

Definition getStoredKey (userId : jsstring) : M (option StoredKey) :=
  try_catch
    (let! keyData := getItem (KEY_PREFIX ++ userId) in
     let! metadataStr := getItem (METADATA_PREFIX ++ userId) in
     if falsy keyData || falsy metadataStr then ret None
     else
       let! metadata := lift (JSON.parse (text_of metadataStr)) in
       let! key := lift (importEncryptionKey (text_of keyData)) in
       ret (Some {| key := key; metadata := metadata |}))
    "Failed to retrieve encryption key".

Definition getOrCreateKey (userId : jsstring) : M StoredKey :=
  let! existingKey := getStoredKey userId in
  match existingKey with
  | Some existing => ret existing
  | None => generateAndStoreKey userId
  end.

Definition exportKeyForBackup (userId : jsstring) : M jsstring :=
  try_catch
    (let! keyData := getItem (KEY_PREFIX ++ userId) in
     let! metadataStr := getItem (METADATA_PREFIX ++ userId) in
     if falsy keyData || falsy metadataStr
     then throw (Error "No encryption key found for this user")
     else
       let! metadata := lift (JSON.parse (text_of metadataStr)) in
       let! version := lift (JS.get metadata (js "version")) in
       let! now := Date_now in
       let backup :=
         Obj [(js "version", version);
              (js "keyData", Str (text_of keyData));
              (js "metadata", metadata);
              (js "exportedAt", Num (Int (Z.of_N now)))] in
       lift (Base64.btoa (JSON.stringify backup)))
    "Failed to export encryption key".

Definition importKeyFromBackup (userId backupData : jsstring) : M StoredKey :=
  try_catch
    (let! backupStr := lift (Base64.atob backupData) in
     let! backup := lift (JSON.parse backupStr) in
     let! keyData := lift (JS.get backup (js "keyData")) in
     let! backup_metadata := lift (JS.get backup (js "metadata")) in
     if negb (JS.truthy keyData) || negb (JS.truthy backup_metadata)
     then throw (Error "Invalid backup data")
     else
       let! key := lift (importEncryptionKey (JS.to_string keyData)) in
       let metadata := Obj (JS.set (JS.spread backup_metadata) (js "userId") (Str userId)) in
       let! _ := setItem (KEY_PREFIX ++ userId) (JS.to_string keyData) in
       let! _ := setItem (METADATA_PREFIX ++ userId) (JSON.stringify metadata) in
       ret {| key := key; metadata := metadata |})
    "Failed to import encryption key. The backup may be corrupted.".

Definition deleteKey (userId : jsstring) : M unit :=
  let! _ := removeItem (KEY_PREFIX ++ userId) in
  removeItem (METADATA_PREFIX ++ userId).

Definition hasStoredKey (userId : jsstring) : M bool :=
  let! keyData := getItem (KEY_PREFIX ++ userId) in
  ret (match keyData with Some _ => true | None => false end).

Definition getKeyMetadata (userId : jsstring) : M value :=
  let! metadataStr := getItem (METADATA_PREFIX ++ userId) in
  if falsy metadataStr then ret Null
  else fun w =>
    match JSON.parse (text_of metadataStr) with
    | Ok metadata => (Ok metadata, w)
    | Throw _ => (Ok Null, w)
    end.

End KeyStorage.

(** The key a call generates: the next thirty-two bytes of the random
    source. *)
Definition fresh_key (w : world) : bytes :=
  List.map (fun i => entropy w (drawn w + i)%nat mod 256) (seq 0 32).

(** The reading [Date.now()] gives next. *)
Definition now_of (w : world) : N := N.min (clock w (ticks w)) 8640000000000000.

(** The metadata [generateAndStoreKey] builds. *)
Definition key_metadata_fields (createdAt : N) (userId : jsstring)
    : list (jsstring * value) :=
  [(js "version", Str KeyStorage.KEY_VERSION);
   (js "createdAt", Num (Int (Z.of_N createdAt)));
   (js "algorithm", Str (js "AES-256-GCM"));
   (js "userId", Str userId)].

Definition key_metadata (createdAt : N) (userId : jsstring) : value :=
  Obj (key_metadata_fields createdAt userId).

(** The world after [generateAndStoreKey(userId)]. *)
Definition after_generate (userId : jsstring) (w : world) : world :=
  {| localStorage :=
       <[KeyStorage.METADATA_PREFIX ++ userId :=
           JSON.stringify (key_metadata (now_of w) userId)]>
         (<[KeyStorage.KEY_PREFIX ++ userId := Base64.encode (fresh_key w)]>
            (localStorage w));
     entropy := entropy w;
     drawn := (drawn w + 32)%nat;
     clock := clock w;
     ticks := S (ticks w) |}.

(** No code unit above U+00FF: what [btoa] accepts. *)
Definition latin1 (s : jsstring) : bool := forallb (fun c => c <=? 255) s.

(** Every string and property name in [v] is quoted with code units up to
    U+00FF only. *)
Fixpoint quotes_latin1 (v : value) : Prop :=
  match v with
  | Str s => latin1 (JSON.quote_body s) = true
  | Num (Int _) => True
  | Num n => latin1 (JS.print_number n) = true
  | Arr l =>
      (fix all (l : list value) : Prop :=
         match l with
         | [] => True
         | e :: l' => quotes_latin1 e /\ all l'
         end) l
  | Obj fields =>
      (fix all (fields : list (jsstring * value)) : Prop :=
         match fields with
         | [] => True
         | p :: fields' =>
             (latin1 (JSON.quote_body (fst p)) = true /\ quotes_latin1 (snd p))
             /\ all fields'
         end) fields
  | _ => True
  end.

(** The bundle [exportKeyForBackup] builds from a stored record. *)
Definition backup_bundle (keyData : jsstring) (metadata : value) (exportedAt : N)
    : value :=
  Obj [(js "version", JS.lookup (JS.own_properties metadata) (js "version"));
       (js "keyData", Str keyData);
       (js "metadata", metadata);
       (js "exportedAt", Num (Int (Z.of_N exportedAt)))].

Definition after_tick (w : world) : world :=
  {| localStorage := localStorage w; entropy := entropy w; drawn := drawn w;
     clock := clock w; ticks := S (ticks w) |}.

(** The world after [importKeyFromBackup(userId, ...)] stored [keyData] and
    [metadata]. *)
Definition after_import (userId keyData : jsstring) (metadata : value) (w : world)
    : world :=
  {| localStorage :=
       <[KeyStorage.METADATA_PREFIX ++ userId := JSON.stringify metadata]>
         (<[KeyStorage.KEY_PREFIX ++ userId := keyData]> (localStorage w));
     entropy := entropy w; drawn := drawn w; clock := clock w; ticks := ticks w |}.

(** A backup that cannot be used: the string is not base64, or what it
    decodes to is not JSON, or the bundle read from it has no [keyData] or no
    [metadata] property. *)
Definition missing (backup : value) (name : jsstring) : Prop :=
  match JS.get backup name with
  | Ok Undefined | Throw _ => True
  | Ok _ => False
  end.

Definition invalid_backup (backupData : jsstring) : Prop :=
  match Base64.atob backupData with
  | Throw _ => True
  | Ok backupStr =>
      match JSON.parse backupStr with
      | Throw _ => True
      | Ok backup => missing backup (js "keyData") \/ missing backup (js "metadata")
      end
  end.

(** The checks of [importKeyFromBackup], which read and write nothing: the
    key data as it will be stored, the bundle's metadata and the key. *)
Definition read_backup (backupData : jsstring) : result (jsstring * value * CryptoKey) :=
  let* backupStr := Base64.atob backupData in
  let* backup := JSON.parse backupStr in
  let* keyData := JS.get backup (js "keyData") in
  let* backup_metadata := JS.get backup (js "metadata") in
  if negb (JS.truthy keyData) || negb (JS.truthy backup_metadata)
  then Throw (Error "Invalid backup data")
  else
    let* key := importEncryptionKey (JS.to_string keyData) in
    Ok (JS.to_string keyData, backup_metadata, key).

(** The metadata [importKeyFromBackup] returns and stores. *)
Definition rewritten_metadata (backup_metadata : value) (userId : jsstring) : value :=
  Obj (JS.set (JS.spread backup_metadata) (js "userId") (Str userId)).

(** The nonce of a call: the next twelve bytes of the random source. *)
Definition nonce_of (w : world) : bytes :=
  List.map (fun i => entropy w (drawn w + i)%nat mod 256) (seq 0 IV_LENGTH).

Definition after_draw (n : nat) (w : world) : world :=
  {| localStorage := localStorage w; entropy := entropy w;
     drawn := (drawn w + n)%nat; clock := clock w; ticks := ticks w |}.

(** Encrypting, then decrypting what came out with the same key. *)
Definition roundtripText (text : jsstring) (k : CryptoKey) (w : world) : result jsstring :=
  match encryptText text k w with
  | (Ok payload, _) => decryptText payload k
  | (Throw e, _) => Throw e
  end.

(** ** Sample values *)

Definition hex_digit (c : ascii) : N :=
  let n := N_of_ascii c in
  if n <? 58 then n - 48 else if n <? 91 then n - 55 else n - 87.

(** The bytes a string of hexadecimal digits denotes. *)
Fixpoint hex (s : string) : bytes :=
  match s with
  | String a (String b rest) => (16 * hex_digit a + hex_digit b) :: hex rest
  | _ => []
  end.

(** The test vectors of the GCM specification for 256-bit keys. *)
Definition K0 := hex "0000000000000000000000000000000000000000000000000000000000000000".
Definition K1 := hex "feffe9928665731c6d6a8f9467308308feffe9928665731c6d6a8f9467308308".
Definition P1 := hex "d9313225f88406e5a55909c5aff5269a86a7a9531534f7da2e4c303d8a318a721c3c0c95956809532fcf0e2449a6b525b16aedf5aa0de657ba637b391aafd255".
Definition P2 := hex "d9313225f88406e5a55909c5aff5269a86a7a9531534f7da2e4c303d8a318a721c3c0c95956809532fcf0e2449a6b525b16aedf5aa0de657ba637b39".
Definition A1 := hex "feedfacedeadbeeffeedfacedeadbeefabaddad2".


(** "hello 🌍": the globe is U+1F30D, the pair D83C DF0D. *)
Definition hello_globe : jsstring := js "hello " ++ [0xD83C; 0xDF0D].


(** A world with nothing stored, and a 256-bit key. *)
Definition sample_world : world :=
  {| localStorage := ∅;
     entropy := fun i => N.of_nat (7 * i + 3);
     drawn := 0;
     clock := fun i => 1700000000000 + N.of_nat i;
     ticks := 0 |}.

Definition sample_key : CryptoKey :=
  {| raw := hex "000102030405060708090a0b0c0d0e0f101112131415161718191a1b1c1d1e1f" |}.

(** U+FEFF followed by "hi", and a high surrogate with no low surrogate. *)
Definition bom_hi : jsstring := 0xFEFF :: js "hi".
Definition lone_surrogate : jsstring := [0xD83C].

Definition sample_user : jsstring := js "test-user-123".
Definition other_user : jsstring := js "test-user-456".

(** The sample world once [sample_user] has a key. *)
Definition world_with_key : world := after_generate sample_user sample_world.


(** JSON text, written with ['] for the double quote. *)
Definition json_text (s : string) : jsstring :=
  List.map (fun c => if c =? 0x27 then 0x22 else c) (js s).

(** A backup whose [metadata] property is there and is [null]. *)
Definition backup_null_metadata : jsstring :=
  Base64.encode
    (json_text "{'keyData':'AwoRGB8mLTQ7QklQV15lbHN6gYiPlp2kq7K5wMfO1dw=','metadata':null}").

(** A well-formed backup for another key. *)
Definition sample_backup_text : jsstring :=
  json_text "{'version':'1.0','keyData':'AAECAwQFBgcICQoLDA0ODxAREhMUFRYXGBkaGxwdHh8=','metadata':{'version':'1.0','createdAt':1600000000000,'algorithm':'AES-256-GCM','userId':'someone-else'},'exportedAt':1650000000000}".

Definition sample_backup : jsstring := Base64.encode sample_backup_text.




(** Another 256-bit key, and a world whose random source hands out the
    nonce 00 00 00 00 00 00 00 00 00 11 f6 20. *)
Definition other_key : CryptoKey := {| raw := K1 |}.



(** The sample world with the metadata slot of [sample_user] emptied, and
    with text in it that is not JSON. *)
Definition world_empty_metadata : world :=
  {| localStorage :=
       <[KeyStorage.METADATA_PREFIX ++ sample_user := []]> (localStorage world_with_key);
     entropy := entropy world_with_key; drawn := drawn world_with_key;
     clock := clock world_with_key; ticks := ticks world_with_key |}.

Definition world_corrupt_metadata : world :=
  {| localStorage :=
       <[KeyStorage.METADATA_PREFIX ++ sample_user := js "{not json"]>
         (localStorage world_with_key);
     entropy := entropy world_with_key; drawn := drawn world_with_key;
     clock := clock world_with_key; ticks := ticks world_with_key |}.

(** ** [useEncryption.ts] *)

Module UseEncryption.
Import KeyStorage.

(** The three [useState] cells of the hook. *)
Record HookState := {
  storedKey : option StoredKey;
  isLoading : bool;
  error : option jsstring
}.

(** [useState(null)], [useState(true)], [useState(null)] *)
Definition initial_state : HookState :=
  {| storedKey := None; isLoading := true; error := None |}.

Definition setStoredKey (v : option StoredKey) (st : HookState) : HookState :=
  {| storedKey := v; isLoading := isLoading st; error := error st |}.

Definition setIsLoading (v : bool) (st : HookState) : HookState :=
  {| storedKey := storedKey st; isLoading := v; error := error st |}.

Definition setError (v : option jsstring) (st : HookState) : HookState :=
  {| storedKey := storedKey st; isLoading := isLoading st; error := v |}.

(** One run of [initializeKey], the body of the effect, from start to end.
    [user_id] is [user?.id]: [None] when there is no user; [!user?.id]
    holds for [None] and for the empty string. *)
Definition initializeKey (user_id : option jsstring) (st : HookState) (w : world)
    : HookState * world :=
  match user_id with
  | Some (c :: r) =>
      let st := setError None (setIsLoading true st) in
      match getOrCreateKey (c :: r) w with
      | (Ok key, w') => (setIsLoading false (setStoredKey (Some key) st), w')
      | (Throw _, w') =>
          (setIsLoading false
             (setError (Some (js "Failed to initialize encryption")) st), w')
      end
  | _ => (setIsLoading false (setStoredKey None st), w)
  end.

(** What the hook returns. *)
Definition isReady (st : HookState) : bool :=
  match storedKey st with Some _ => true | None => false end && negb (isLoading st).

Definition keyMetadata (st : HookState) : value :=
  match storedKey st with
  | Some stored => metadata stored
  | None => Undefined
  end.

Definition encrypt (st : HookState) (text : jsstring) : M EncryptedData :=
  match storedKey st with
  | None => throw (Error "Encryption key not available")
  | Some stored => encryptText text (key stored)
  end.

Definition decrypt (st : HookState) (encryptedData : EncryptedData) : result jsstring :=
  match storedKey st with
  | None => Throw (Error "Encryption key not available")
  | Some stored => decryptText encryptedData (key stored)
  end.

Definition encryptPhoto (st : HookState) (file : Blob) : M EncryptedFile :=
  match storedKey st with
  | None => throw (Error "Encryption key not available")
  | Some stored => encryptFile file (key stored)
  end.

(** An [originalType] left out is [undefined], for which [decryptFile] takes
    its default, ['image/jpeg']. *)
Definition decryptPhoto (st : HookState) (encryptedBlob : Blob) (iv : jsstring)
    (originalType : option jsstring) : result Blob :=
  match storedKey st with
  | None => Throw (Error "Encryption key not available")
  | Some stored =>
      decryptFile encryptedBlob iv (key stored)
        match originalType with
        | Some type => type
        | None => js "image/jpeg"
        end
  end.

End UseEncryption.

(** ** Further auxiliary definitions *)

(** The error of [decryptFile]. *)
Definition decrypt_file_error : exn :=
  Error "Failed to decrypt file. Data may be corrupted or key is incorrect.".

(** Two worlds hold the same record for a user: the same two slots. *)
Definition same_record (userId : jsstring) (w w' : world) : Prop :=
  localStorage w' !! (KeyStorage.KEY_PREFIX ++ userId)
    = localStorage w !! (KeyStorage.KEY_PREFIX ++ userId) /\
  localStorage w' !! (KeyStorage.METADATA_PREFIX ++ userId)
    = localStorage w !! (KeyStorage.METADATA_PREFIX ++ userId).

(** The world after [deleteKey(userId)]. *)
Definition after_delete (userId : jsstring) (w : world) : world :=
  {| localStorage :=
       delete (KeyStorage.METADATA_PREFIX ++ userId)
         (delete (KeyStorage.KEY_PREFIX ++ userId) (localStorage w));
     entropy := entropy w; drawn := drawn w; clock := clock w; ticks := ticks w |}.

(** The sample world once [sample_user] has a key and the metadata slot has
    been removed. *)
Definition world_key_only : world :=
  {| localStorage :=
       delete (KeyStorage.METADATA_PREFIX ++ sample_user) (localStorage world_with_key);
     entropy := entropy world_with_key; drawn := drawn world_with_key;
     clock := clock world_with_key; ticks := ticks world_with_key |}.

(** An object with a new value for every property of one name. *)
Definition revalue (k : jsstring) (v : value) (p : jsstring * value) : jsstring * value :=
  (fst p, if JS.jsstring_eqb k (fst p) then v else snd p).

(** The error of the hook's functions when there is no key. *)
Definition no_key : exn := Error "Encryption key not available".

(** A hook that holds the key of [other_user], after loading. *)
Definition hook_with_other_key : UseEncryption.HookState :=
  {| UseEncryption.storedKey :=
       Some {| KeyStorage.key := other_key;
               KeyStorage.metadata := key_metadata 1600000000000 other_user |};
     UseEncryption.isLoading := false;
     UseEncryption.error := None |}.

(** ** Auxiliary definitions for the tag of a changed ciphertext *)

(** [G] undoes the multiplication by [H] in GF(2^128): checked on each of
    the 128 bits of a block, of which every block is a sum. *)
Definition undoes (H G : N) : bool :=
  forallb (fun i => GCM.mul (GCM.mul (2 ^ N.of_nat i) H) G =? 2 ^ N.of_nat i)
    (seq 0 128).

(** Two blocks that differ as 128-bit values. *)
Definition differ (y y' : N) : Prop := y mod 2 ^ 128 <> y' mod 2 ^ 128.

(** The hash subkey of a key, [AES_K(0^128)], and the inverse of the hash
    subkey of [sample_key]. *)
Definition hash_subkey_of (k : CryptoKey) : N :=
  GCM.hash_subkey AES.encrypt_block (raw k).

Definition sample_subkey_inverse : N := 0xc3b5508a86ff2cef4a16f2b83c0e501f.

(** A buffer with the byte at [index] replaced by [b]. *)
Definition set_byte (index : nat) (b : N) (bs : bytes) : bytes :=
  firstn index bs
  ++ match skipn index bs with
     | _ :: rest => b :: rest
     | [] => []
     end.




(* ================================================================= *)
(** * Properties *)

Ltac Zify.zify_post_hook ::= Z.to_euclidean_division_equations.

(** Case analysis on every comparison of the goal. *)
Ltac cmp_cases :=
  repeat match goal with
  | |- context [N.ltb ?a ?b] => destruct (N.ltb_spec a b)
  | |- context [N.leb ?a ?b] => destruct (N.leb_spec a b)
  | |- context [N.eqb ?a ?b] => destruct (N.eqb_spec a b)
  end; cbn [andb orb negb].

(** ** Test vectors of FIPS 197 and of the GCM specification *)

Example sbox_00 : AES.sbox 0 = 0x63. Proof. reflexivity. Qed.
Example sbox_53 : AES.sbox 0x53 = 0xED. Proof. reflexivity. Qed.
Example fips197_c1 :
  AES.encrypt_block (hex "000102030405060708090a0b0c0d0e0f") (hex "00112233445566778899aabbccddeeff")
  = hex "69c4e0d86a7b0430d8cdb78070b4c55a".
Proof. vm_compute. reflexivity. Qed.
Example fips197_c2 :
  AES.encrypt_block (hex "000102030405060708090a0b0c0d0e0f1011121314151617") (hex "00112233445566778899aabbccddeeff")
  = hex "dda97ca4864cdfe06eaf70a0ec0d7191".
Proof. vm_compute. reflexivity. Qed.
Example fips197_c3 :
  AES.encrypt_block (hex "000102030405060708090a0b0c0d0e0f101112131415161718191a1b1c1d1e1f") (hex "00112233445566778899aabbccddeeff")
  = hex "8ea2b7ca516745bfeafc49904b496089".
Proof. vm_compute. reflexivity. Qed.

Example tc13 : GCM.encrypt AES.encrypt_block K0 (hex "000000000000000000000000") [] [] = hex "530f8afbc74536b9a963b4f1c4cb738b".
Proof. vm_compute. reflexivity. Qed.
Example tc14 : GCM.encrypt AES.encrypt_block K0 (hex "000000000000000000000000") [] (hex "00000000000000000000000000000000") = hex "cea7403d4d606b6e074ec5d3baf39d18d0d1c8a799996bf0265b98b5d48ab919".
Proof. vm_compute. reflexivity. Qed.
Example tc15 : GCM.encrypt AES.encrypt_block K1 (hex "cafebabefacedbaddecaf888") [] P1 = hex "522dc1f099567d07f47f37a32a84427d643a8cdcbfe5c0c97598a2bd2555d1aa8cb08e48590dbb3da7b08b1056828838c5f61e6393ba7a0abcc9f662898015adb094dac5d93471bdec1a502270e3cc6c".
Proof. vm_compute. reflexivity. Qed.
Example tc16 : GCM.encrypt AES.encrypt_block K1 (hex "cafebabefacedbaddecaf888") A1 P2 = hex "522dc1f099567d07f47f37a32a84427d643a8cdcbfe5c0c97598a2bd2555d1aa8cb08e48590dbb3da7b08b1056828838c5f61e6393ba7a0abcc9f66276fc6ece0f4e1768cddf8853bb2d551b".
Proof. vm_compute. reflexivity. Qed.
Example tc17 : GCM.encrypt AES.encrypt_block K1 (hex "cafebabefacedbad") A1 P2 = hex "c3762df1ca787d32ae47c13bf19844cbaf1ae14d0b976afac52ff7d79bba9de0feb582d33934a4f0954cc2363bc73f7862ac430e64abe499f47c9b1f3a337dbf46a792c45e454913fe2ea8f2".
Proof. vm_compute. reflexivity. Qed.
Example tc18 : GCM.encrypt AES.encrypt_block K1 (hex "9313225df88406e555909c5aff5269aa6a7a9538534f7da1e4c303d2a318a728c3c0c95156809539fcf0e2429a6b525416aedbf5a0de6a57a637b39b") A1 P2 = hex "5a8def2f0c9e53f1f75d7853659e2a20eeb2b22aafde6419a058ab4f6f746bf40fc0c3b780f244452da3ebf1c5d82cdea2418997200ef82e44ae7e3fa44a8266ee1c8eb0c8b5d4cf5ae9f19a".
Proof. vm_compute. reflexivity. Qed.
Example tc15d : GCM.decrypt AES.encrypt_block K1 (hex "cafebabefacedbaddecaf888") [] (GCM.encrypt AES.encrypt_block K1 (hex "cafebabefacedbaddecaf888") [] P1) = Some P1.
Proof. vm_compute. reflexivity. Qed.

(** ** Base64 round trip *)

Example btoa_hello : Base64.btoa (js "hello") = Ok (js "aGVsbG8=").
Proof. reflexivity. Qed.
Example atob_hello : Base64.atob (js "aGVsbG8=") = Ok (js "hello").
Proof. reflexivity. Qed.
Example atob_corrupted : Base64.atob (js "corrupted") = Throw InvalidCharacterError.
Proof. reflexivity. Qed.
Example atob_invalid_backup : Base64.atob (js "invalid-backup") = Throw InvalidCharacterError.
Proof. reflexivity. Qed.

Section Base64Facts.
Import Base64.

Lemma bytes_ind3 (P : list N -> Prop) :
  P [] -> (forall x, P [x]) -> (forall x y, P [x; y]) ->
  (forall x y z rest, P rest -> P (x :: y :: z :: rest)) ->
  forall l, P l.
Proof.
  intros H0 H1 H2 H3.
  fix IH 1. intros [|x [|y [|z rest]]].
  - exact H0.
  - apply H1.
  - apply H2.
  - apply H3, IH.
Qed.

Lemma value_of_char_of v : v < 64 -> value_of (char_of v) = Some v.
Proof.
  intros Hv. unfold char_of. cmp_cases; unfold value_of; cmp_cases;
    try lia; f_equal; lia.
Qed.

Lemma char_of_not_whitespace v : is_ascii_whitespace (char_of v) = false.
Proof.
  unfold char_of. cmp_cases; unfold is_ascii_whitespace; cmp_cases;
    try reflexivity; lia.
Qed.

Lemma char_of_not_pad v : char_of v <> pad.
Proof.
  unfold char_of, pad. cmp_cases; lia.
Qed.

Lemma values_of_cons v rest vs :
  v < 64 -> values_of rest = Some vs ->
  values_of (char_of v :: rest) = Some (v :: vs).
Proof.
  intros Hv Hr. cbn [values_of]. now rewrite value_of_char_of, Hr.
Qed.

Lemma is_bytes_cons x b : is_bytes (x :: b) = true <-> x < 256 /\ is_bytes b = true.
Proof.
  unfold is_bytes. cbn [forallb]. rewrite andb_true_iff, N.ltb_lt. tauto.
Qed.

Lemma is_bytes_app a b : is_bytes (a ++ b) = is_bytes a && is_bytes b.
Proof. apply forallb_app. Qed.

(** The characters of the groups decode to the bytes they came from. *)
Lemma decode_encode_groups b :
  is_bytes b = true ->
  exists vs, values_of (encode_groups b) = Some vs /\ decode_groups vs = b.
Proof.
  induction b as [|x|x y|x y z rest IH] using bytes_ind3; intros Hb.
  - exists []. split; reflexivity.
  - apply is_bytes_cons in Hb as [Hx _].
    eexists. split.
    + cbn [encode_groups]. repeat (apply values_of_cons; [lia|]). reflexivity.
    + cbn [decode_groups]. f_equal. lia.
  - apply is_bytes_cons in Hb as [Hx Hb]. apply is_bytes_cons in Hb as [Hy _].
    eexists. split.
    + cbn [encode_groups]. repeat (apply values_of_cons; [lia|]). reflexivity.
    + cbn [decode_groups]. repeat (f_equal; try lia).
  - apply is_bytes_cons in Hb as [Hx Hb]. apply is_bytes_cons in Hb as [Hy Hb].
    apply is_bytes_cons in Hb as [Hz Hb].
    destruct (IH Hb) as (vs & Hvs & Hdec).
    eexists. split.
    + cbn [encode_groups]. repeat (apply values_of_cons; [lia|]). exact Hvs.
    + cbn [decode_groups]. rewrite Hdec. repeat (f_equal; try lia).
Qed.

Lemma encode_groups_alphabet b :
  Forall (fun c => is_ascii_whitespace c = false /\ c <> pad) (encode_groups b).
Proof.
  induction b as [|x|x y|x y z rest IH] using bytes_ind3; cbn [encode_groups];
    repeat (constructor; [split; [apply char_of_not_whitespace | apply char_of_not_pad]|]);
    auto.
Qed.

Lemma padding_alphabet n :
  Forall (fun c => is_ascii_whitespace c = false) (padding n).
Proof.
  unfold padding. destruct (Nat.modulo n 3) as [|[|[|]]]; repeat constructor.
Qed.

Lemma filter_id {A} (f : A -> bool) l :
  Forall (fun x => f x = true) l -> List.filter f l = l.
Proof.
  induction 1 as [|x l Hx _ IH]; cbn [List.filter]; [reflexivity|].
  now rewrite Hx, IH.
Qed.

Lemma encode_no_whitespace b :
  List.filter (fun c => negb (is_ascii_whitespace c)) (encode b) = encode b.
Proof.
  apply filter_id. unfold encode. apply List.Forall_app. split.
  - eapply List.Forall_impl; [|apply encode_groups_alphabet].
    intros c [Hc _]. cbn beta. now rewrite Hc.
  - eapply List.Forall_impl; [|apply padding_alphabet].
    intros c Hc. cbn beta in *. now rewrite Hc.
Qed.

(** The groups hold four characters for every three bytes, then two or
    three for a remainder of one or two bytes. *)
Lemma length_encode_groups b :
  List.length (encode_groups b) =
  (4 * Nat.div (List.length b) 3 +
   match Nat.modulo (List.length b) 3 with 0 => 0 | r => S r end)%nat.
Proof.
  induction b as [|x|x y|x y z rest IH] using bytes_ind3; try reflexivity.
  cbn [encode_groups List.length]. rewrite IH.
  replace (S (S (S (List.length rest)))) with (List.length rest + 1 * 3)%nat by lia.
  rewrite Nat.div_add, Nat.Div0.mod_add by lia. lia.
Qed.

Lemma rev_head_in {A} (l : list A) c r : rev l = c :: r -> In c l.
Proof.
  intros H. apply in_rev. rewrite H. now left.
Qed.

Lemma groups_last_not_pad b c r : rev (encode_groups b) = c :: r -> (c =? pad) = false.
Proof.
  intros H. apply rev_head_in in H.
  pose proof (encode_groups_alphabet b) as Ha.
  rewrite List.Forall_forall in Ha. apply Ha in H as [_ H].
  now apply N.eqb_neq.
Qed.

Lemma length_encode_mod4 b : Nat.modulo (List.length (encode b)) 4 = 0%nat.
Proof.
  unfold encode. rewrite length_app, length_encode_groups. unfold padding.
  pose proof (Nat.mod_upper_bound (List.length b) 3 ltac:(lia)) as Hlt.
  destruct (Nat.modulo (List.length b) 3) as [|[|[|]]]; cbn [List.length]; try lia.
  - replace (4 * Nat.div (List.length b) 3 + 0 + 0)%nat
      with (0 + Nat.div (List.length b) 3 * 4)%nat by lia.
    now rewrite Nat.Div0.mod_add.
  - replace (4 * Nat.div (List.length b) 3 + 2 + 2)%nat
      with (0 + (Nat.div (List.length b) 3 + 1) * 4)%nat by lia.
    now rewrite Nat.Div0.mod_add.
  - replace (4 * Nat.div (List.length b) 3 + 3 + 1)%nat
      with (0 + (Nat.div (List.length b) 3 + 1) * 4)%nat by lia.
    now rewrite Nat.Div0.mod_add.
Qed.

Lemma length_encode_groups_mod4 b :
  Nat.modulo (List.length (encode_groups b)) 4 <> 1%nat.
Proof.
  rewrite length_encode_groups.
  pose proof (Nat.mod_upper_bound (List.length b) 3 ltac:(lia)) as Hlt.
  destruct (Nat.modulo (List.length b) 3) as [|[|[|]]]; try lia.
  - replace (4 * Nat.div (List.length b) 3 + 0)%nat
      with (0 + Nat.div (List.length b) 3 * 4)%nat by lia.
    rewrite Nat.Div0.mod_add. discriminate.
  - replace (4 * Nat.div (List.length b) 3 + 2)%nat
      with (2 + Nat.div (List.length b) 3 * 4)%nat by lia.
    rewrite Nat.Div0.mod_add. discriminate.
  - replace (4 * Nat.div (List.length b) 3 + 3)%nat
      with (3 + Nat.div (List.length b) 3 * 4)%nat by lia.
    rewrite Nat.Div0.mod_add. discriminate.
Qed.

Lemma strip_padding_encode b : strip_padding (encode b) = encode_groups b.
Proof.
  unfold strip_padding. rewrite length_encode_mod4. cbn [Nat.eqb].
  unfold encode, padding.
  destruct (Nat.modulo (List.length b) 3) as [|[|[|]]].
  - rewrite app_nil_r.
    destruct (rev (encode_groups b)) as [|c r] eqn:Hrev; [reflexivity|].
    now rewrite (groups_last_not_pad _ _ _ Hrev).
  - rewrite rev_app_distr. cbn [rev app]. rewrite N.eqb_refl.
    now rewrite rev_involutive.
  - rewrite rev_app_distr. cbn [rev app]. rewrite N.eqb_refl.
    destruct (rev (encode_groups b)) as [|c r] eqn:Hrev.
    + apply (f_equal (@rev N)) in Hrev. rewrite rev_involutive in Hrev.
      now rewrite Hrev.
    + rewrite (groups_last_not_pad _ _ _ Hrev).
      now rewrite <- Hrev, rev_involutive.
  - rewrite app_nil_r.
    destruct (rev (encode_groups b)) as [|c r] eqn:Hrev; [reflexivity|].
    now rewrite (groups_last_not_pad _ _ _ Hrev).
Qed.

(** [atob] undoes the encoding of any byte sequence. *)
Lemma atob_encode b : is_bytes b = true -> atob (encode b) = Ok b.
Proof.
  intros Hb. unfold atob.
  rewrite encode_no_whitespace, strip_padding_encode.
  destruct (Nat.eqb_spec (Nat.modulo (List.length (encode_groups b)) 4) 1) as [E|_].
  - now apply length_encode_groups_mod4 in E.
  - destruct (decode_encode_groups b Hb) as (vs & Hvs & Hdec).
    now rewrite Hvs, Hdec.
Qed.

End Base64Facts.

(** ** UTF-8 round trip *)

Example encode_hello_globe :
  Utf8.TextEncoder_encode hello_globe = js "hello " ++ [0xF0; 0x9F; 0x8C; 0x8D].
Proof. reflexivity. Qed.
Example decode_hello_globe :
  Utf8.TextDecoder_decode (Utf8.TextEncoder_encode hello_globe) = hello_globe.
Proof. reflexivity. Qed.
Example decode_overlong : Utf8.TextDecoder_decode [0xC0; 0x80; 0x41] = [0xFFFD; 0xFFFD; 0x41].
Proof. reflexivity. Qed.
Example decode_truncated : Utf8.TextDecoder_decode [0xE2; 0x82; 0x41; 0xF0] = [0xFFFD; 0x41; 0xFFFD].
Proof. reflexivity. Qed.

(** Rewrite every comparison whose outcome the context decides; split on
    the others. *)
Ltac settle_cmp :=
  repeat match goal with
  | |- context [N.leb ?a ?b] =>
      first [ rewrite (proj2 (N.leb_le a b)) by lia
            | rewrite (proj2 (N.leb_gt a b)) by lia
            | destruct (N.leb_spec a b) ]
  | |- context [N.ltb ?a ?b] =>
      first [ rewrite (proj2 (N.ltb_lt a b)) by lia
            | rewrite (proj2 (N.ltb_ge a b)) by lia
            | destruct (N.ltb_spec a b) ]
  | |- context [N.eqb ?a ?b] =>
      first [ rewrite (proj2 (N.eqb_eq a b)) by lia
            | rewrite (proj2 (N.eqb_neq a b)) by lia
            | destruct (N.eqb_spec a b) ]
  end.

Section Utf8Facts.
Import Utf8.

Ltac run_decoder :=
  repeat (progress (cbn [run app]; unfold step, lead;
                    cbn [andb bytes_needed code_point lower_boundary
                         upper_boundary initial];
                    settle_cmp)).

Lemma run_encode_scalar cp rest :
  is_scalar cp ->
  run initial (encode_scalar cp ++ rest) = cp :: run initial rest.
Proof.
  intros [Hlt Hns]. unfold encode_scalar.
  destruct (N.ltb_spec cp 0x80); [|destruct (N.ltb_spec cp 0x800);
    [|destruct (N.ltb_spec cp 0x10000)]].
  - run_decoder. reflexivity.
  - run_decoder. f_equal. lia.
  - run_decoder; try lia; f_equal; lia.
  - run_decoder; try lia; f_equal; lia.
Qed.


Lemma jsstring_ind2 (P : jsstring -> Prop) :
  P [] -> (forall c, P [c]) ->
  (forall c d rest, P rest -> P (d :: rest) -> P (c :: d :: rest)) ->
  forall s, P s.
Proof.
  intros H0 H1 H2 s.
  assert (H : P s /\ forall c, P (c :: s)); [|apply H].
  induction s as [|d rest [IH1 IH2]]; split; auto.
Qed.

Lemma is_jsstring_cons c s :
  is_jsstring (c :: s) = true <-> c < 65536 /\ is_jsstring s = true.
Proof.
  unfold is_jsstring. cbn [forallb]. rewrite andb_true_iff, N.ltb_lt. tauto.
Qed.

Lemma to_scalars_cons c rest :
  to_scalars (c :: rest) =
  if is_high_surrogate c then
    match rest with
    | d :: rest' =>
        if is_low_surrogate d
        then (0x10000 + (c - 0xD800) * 1024 + (d - 0xDC00)) :: to_scalars rest'
        else replacement :: to_scalars rest
    | [] => [replacement]
    end
  else if is_low_surrogate c then replacement :: to_scalars rest
  else c :: to_scalars rest.
Proof. reflexivity. Qed.

Lemma well_formed_cons c rest :
  well_formed (c :: rest) =
  if is_high_surrogate c then
    match rest with
    | d :: rest' => is_low_surrogate d && well_formed rest'
    | [] => false
    end
  else negb (is_low_surrogate c) && well_formed rest.
Proof. reflexivity. Qed.

Lemma run_encode_scalars l :
  List.Forall is_scalar l -> run initial (encode_scalars l) = l.
Proof.
  induction 1 as [|cp l Hcp _ IH]; [reflexivity|].
  unfold encode_scalars in *. cbn [flat_map].
  now rewrite run_encode_scalar, IH.
Qed.

Lemma to_scalars_scalar s :
  is_jsstring s = true -> List.Forall is_scalar (to_scalars s).
Proof.
  induction s as [|c|c d rest IH1 IH2] using jsstring_ind2; intros Hs.
  - constructor.
  - apply is_jsstring_cons in Hs as [Hc _].
    cbn [to_scalars]. unfold is_high_surrogate, is_low_surrogate, replacement.
    cmp_cases; repeat constructor; unfold is_scalar; lia.
  - apply is_jsstring_cons in Hs as [Hc Hs].
    pose proof Hs as Hs'. apply is_jsstring_cons in Hs' as [Hd Hr].
    specialize (IH1 Hr). specialize (IH2 Hs).
    rewrite (to_scalars_cons c (d :: rest)).
    unfold is_high_surrogate, is_low_surrogate, replacement.
    cmp_cases; constructor; try assumption; unfold is_scalar; lia.
Qed.

Lemma from_to_scalars s :
  is_jsstring s = true -> well_formed s = true -> from_scalars (to_scalars s) = s.
Proof.
  induction s as [|c|c d rest IH1 IH2] using jsstring_ind2; intros Hs Hw.
  - reflexivity.
  - apply is_jsstring_cons in Hs as [Hc _].
    cbn [to_scalars well_formed] in *.
    destruct (is_high_surrogate c); [discriminate|].
    destruct (is_low_surrogate c); [discriminate|].
    cbn [from_scalars flat_map app]. unfold units_of_scalar.
    now rewrite (proj2 (N.ltb_lt c 0x10000)) by lia.
  - apply is_jsstring_cons in Hs as [Hc Hs].
    pose proof Hs as Hs'. apply is_jsstring_cons in Hs' as [Hd Hr].
    rewrite (well_formed_cons c (d :: rest)) in Hw.
    rewrite (to_scalars_cons c (d :: rest)).
    destruct (is_high_surrogate c) eqn:Hh.
    + apply andb_true_iff in Hw as [Hl Hw]. rewrite Hl.
      cbn [from_scalars flat_map]. fold (from_scalars (to_scalars rest)).
      rewrite (IH1 Hr Hw).
      unfold is_high_surrogate, is_low_surrogate in *.
      apply andb_true_iff in Hh as [Hh1 Hh2]. apply andb_true_iff in Hl as [Hl1 Hl2].
      apply N.leb_le in Hh1, Hh2, Hl1, Hl2.
      unfold units_of_scalar.
      rewrite (proj2 (N.ltb_ge _ _)) by lia.
      cbn [app]. f_equal; [lia|]. f_equal. lia.
    + apply andb_true_iff in Hw as [Hl Hw].
      apply negb_true_iff in Hl. rewrite Hl.
      cbn [from_scalars flat_map]. fold (from_scalars (to_scalars (d :: rest))).
      rewrite (IH2 Hs Hw). unfold units_of_scalar.
      now rewrite (proj2 (N.ltb_lt c 0x10000)) by lia.
Qed.

Lemma strip_bom_to_scalars s :
  starts_with_bom s = false -> strip_bom (to_scalars s) = to_scalars s.
Proof.
  destruct s as [|c rest]; [reflexivity|]. cbn [starts_with_bom]. intros Hb.
  apply N.eqb_neq in Hb. unfold byte_order_mark in *.
  cbn [to_scalars]. unfold is_high_surrogate.
  destruct (N.leb_spec 0xD800 c); destruct (N.leb_spec c 0xDBFF); cbn [andb].
  2-4: unfold is_low_surrogate;
       destruct (N.leb_spec 0xDC00 c); destruct (N.leb_spec c 0xDFFF); cbn [andb];
       unfold strip_bom, replacement, byte_order_mark;
       try (rewrite (proj2 (N.eqb_neq _ _)) by lia); reflexivity.
  destruct rest as [|d rest']; [reflexivity|].
  destruct (is_low_surrogate d); unfold strip_bom, replacement, byte_order_mark;
    rewrite (proj2 (N.eqb_neq _ _)) by lia; reflexivity.
Qed.

(** What decoding the encoding of a string gives, for every string: its
    scalar values, less a leading byte order mark. *)
Lemma decode_encode_gen s :
  is_jsstring s = true ->
  TextDecoder_decode (TextEncoder_encode s) = from_scalars (strip_bom (to_scalars s)).
Proof.
  intros Hs. unfold TextDecoder_decode, TextEncoder_encode.
  now rewrite run_encode_scalars by now apply to_scalars_scalar.
Qed.

(** The text codec is the identity on well-formed strings that do not begin
    with U+FEFF. *)
Lemma decode_encode s :
  is_jsstring s = true -> well_formed s = true -> starts_with_bom s = false ->
  TextDecoder_decode (TextEncoder_encode s) = s.
Proof.
  intros Hs Hw Hb. rewrite decode_encode_gen by assumption.
  rewrite strip_bom_to_scalars by assumption. now apply from_to_scalars.
Qed.

End Utf8Facts.
(** ** GCM: decryption undoes encryption *)

Lemma length_bytes_of_block n x : List.length (GCM.bytes_of_block n x) = n.
Proof.
  revert x. induction n as [|n IH]; intros x; [reflexivity|].
  cbn [GCM.bytes_of_block]. rewrite length_app, IH. cbn. lia.
Qed.

Lemma length_xor_bytes a b :
  (List.length a <= List.length b)%nat ->
  List.length (AES.xor_bytes a b) = List.length a.
Proof.
  intros H. unfold AES.xor_bytes. rewrite length_map, length_combine. lia.
Qed.

Lemma xor_bytes_involutive a b :
  (List.length a <= List.length b)%nat ->
  AES.xor_bytes (AES.xor_bytes a b) b = a.
Proof.
  revert b. induction a as [|x a IH]; intros [|y b] H; cbn in H; try reflexivity; [lia|].
  unfold AES.xor_bytes in *. cbn [combine List.map fst snd].
  rewrite IH by lia. f_equal.
  now rewrite N.lxor_assoc, N.lxor_nilpotent, N.lxor_0_r.
Qed.

Lemma bytes_eqb_refl a : GCM.bytes_eqb a a = true.
Proof.
  unfold GCM.bytes_eqb. rewrite Nat.eqb_refl. cbn [andb].
  induction a as [|x a IH]; [reflexivity|].
  cbn [combine forallb fst snd]. now rewrite N.eqb_refl, IH.
Qed.

Lemma bytes_eqb_eq a b : GCM.bytes_eqb a b = true <-> a = b.
Proof.
  split; [|intros ->; apply bytes_eqb_refl].
  unfold GCM.bytes_eqb. rewrite andb_true_iff, Nat.eqb_eq.
  revert b. induction a as [|x a IH]; intros [|y b] [Hl Hf]; cbn in Hl;
    try reflexivity; try discriminate.
  cbn [combine forallb fst snd] in Hf. apply andb_true_iff in Hf as [Hx Hf].
  apply N.eqb_eq in Hx. subst y. f_equal. apply IH. split; [lia|exact Hf].
Qed.

Section GcmFacts.
Import GCM.
Variable cipher : bytes -> bytes -> bytes.

Lemma length_keystream k cb n :
  List.length (keystream cipher k cb n) = (16 * n)%nat.
Proof.
  revert cb. induction n as [|n IH]; intros cb; [reflexivity|].
  cbn [keystream]. rewrite length_app, length_bytes_of_block, IH. lia.
Qed.

Lemma keystream_covers k cb (x : bytes) :
  (List.length x <=
   List.length (keystream cipher k cb (Nat.div (List.length x) 16 + 1)))%nat.
Proof.
  rewrite length_keystream.
  pose proof (Nat.div_mod_eq (List.length x) 16) as Hd.
  pose proof (Nat.mod_upper_bound (List.length x) 16 ltac:(lia)) as Hm.
  lia.
Qed.

Lemma length_gctr k cb x : List.length (gctr cipher k cb x) = List.length x.
Proof.
  unfold gctr. apply length_xor_bytes, keystream_covers.
Qed.

Lemma gctr_involutive k cb x : gctr cipher k cb (gctr cipher k cb x) = x.
Proof.
  unfold gctr at 1. rewrite length_gctr. unfold gctr.
  apply xor_bytes_involutive, keystream_covers.
Qed.

Lemma length_tag k iv aad c : List.length (tag cipher k iv aad c) = 16%nat.
Proof. unfold tag. apply length_bytes_of_block. Qed.

(** The output is the input's length plus the sixteen bytes of the tag. *)
Lemma length_encrypt k iv aad p :
  List.length (encrypt cipher k iv aad p) = (List.length p + 16)%nat.
Proof.
  unfold encrypt. now rewrite length_app, length_gctr, length_tag.
Qed.

Lemma decrypt_split k iv aad c :
  decrypt cipher k iv aad (c ++ tag cipher k iv aad c)
  = Some (gctr cipher k (inc32 (J0 cipher k iv)) c).
Proof.
  unfold decrypt. rewrite length_app, length_tag.
  destruct (Nat.ltb_spec (List.length c + 16) 16) as [Hlt|_]; [lia|].
  replace (List.length c + 16 - 16)%nat with (List.length c + 0)%nat by lia.
  rewrite firstn_app_2, skipn_app, Nat.add_0_r.
  cbn [firstn]. rewrite app_nil_r, skipn_all.
  replace (List.length c - List.length c)%nat with 0%nat by lia.
  cbn [skipn app]. now rewrite bytes_eqb_refl.
Qed.

(** Authenticated decryption returns what was encrypted, whatever the block
    cipher, the key, the nonce and the additional data. *)
Lemma decrypt_encrypt k iv aad p :
  decrypt cipher k iv aad (encrypt cipher k iv aad p) = Some p.
Proof.
  unfold encrypt. now rewrite decrypt_split, gctr_involutive.
Qed.

End GcmFacts.

(** ** GHASH is linear, and what that gives *)

Section GhashFacts.
Import GCM.

Lemma fold_left_cons {A B} (f : A -> B -> A) x xs y :
  fold_left f (x :: xs) y = fold_left f xs (f y x).
Proof. reflexivity. Qed.

Lemma lxor_swap a b c d :
  N.lxor (N.lxor a b) (N.lxor c d) = N.lxor (N.lxor a c) (N.lxor b d).
Proof.
  rewrite !N.lxor_assoc. f_equal. rewrite <- !N.lxor_assoc. f_equal.
  apply N.lxor_comm.
Qed.

(** The product is linear in its first factor. *)
Lemma mul_aux_lxor n a b v z1 z2 :
  mul_aux n (N.lxor a b) v (N.lxor z1 z2)
  = N.lxor (mul_aux n a v z1) (mul_aux n b v z2).
Proof.
  revert v z1 z2. induction n as [|n IH]; intros v z1 z2; [reflexivity|].
  cbn [mul_aux]. rewrite N.lxor_spec.
  destruct (N.testbit a (N.of_nat n)), (N.testbit b (N.of_nat n)); cbn [xorb].
  - rewrite <- IH. f_equal. rewrite lxor_swap, N.lxor_nilpotent. now rewrite N.lxor_0_r.
  - rewrite <- IH. f_equal. rewrite !N.lxor_assoc. f_equal. apply N.lxor_comm.
  - rewrite <- IH. f_equal. now rewrite N.lxor_assoc.
  - apply IH.
Qed.

Lemma mul_lxor a b y : mul (N.lxor a b) y = N.lxor (mul a y) (mul b y).
Proof. unfold mul. rewrite <- mul_aux_lxor. reflexivity. Qed.

Lemma mul_aux_0 n v z : mul_aux n 0 v z = z.
Proof.
  revert v z. induction n as [|n IH]; intros v z; [reflexivity|].
  cbn [mul_aux]. rewrite N.bits_0. apply IH.
Qed.

Lemma mul_0_l y : mul 0 y = 0.
Proof. unfold mul. apply mul_aux_0. Qed.

(** Of the first factor only the low 128 bits count. *)
Lemma mul_aux_low n x x' v z :
  (forall i, i < N.of_nat n -> N.testbit x i = N.testbit x' i) ->
  mul_aux n x v z = mul_aux n x' v z.
Proof.
  revert v z. induction n as [|n IH]; intros v z H; [reflexivity|].
  cbn [mul_aux]. rewrite (H (N.of_nat n)) by lia.
  apply IH. intros i Hi. apply H. lia.
Qed.

Lemma mul_mod x y : mul (x mod 2 ^ 128) y = mul x y.
Proof.
  unfold mul. apply mul_aux_low. intros i Hi. apply N.mod_pow2_bits_low.
  change (N.of_nat 128) with 128 in Hi. exact Hi.
Qed.

(** A number below [2^(n+1)] is its low [n] bits and bit [n]. *)
Lemma split_top_bit n x :
  x < 2 ^ N.succ n ->
  x = N.lxor (x mod 2 ^ n) (if N.testbit x n then 2 ^ n else 0).
Proof.
  intros Hx. apply N.bits_inj. intros i. rewrite N.lxor_spec.
  destruct (N.lt_ge_cases i n) as [Hlt|Hge].
  - rewrite N.mod_pow2_bits_low by exact Hlt.
    destruct (N.testbit x n).
    + rewrite N.pow2_bits_false by lia. now rewrite xorb_false_r.
    + rewrite N.bits_0. now rewrite xorb_false_r.
  - rewrite N.mod_pow2_bits_high by exact Hge. cbn [xorb].
    destruct (N.eq_dec i n) as [->|Hne].
    + destruct (N.testbit x n); [now rewrite N.pow2_bits_true|now rewrite N.bits_0].
    + assert (Hi : N.testbit x i = false).
      { destruct (N.eq_dec x 0) as [->|Hnz]; [apply N.bits_0|].
        apply N.bits_above_log2.
        apply N.lt_le_trans with (m := N.succ n); [|lia].
        apply N.log2_lt_pow2; [lia|exact Hx]. }
      rewrite Hi. destruct (N.testbit x n); [|now rewrite N.bits_0].
      rewrite N.pow2_bits_false by lia. reflexivity.
Qed.

Lemma undoes_bit H G i :
  undoes H G = true -> (i < 128)%nat ->
  mul (mul (2 ^ N.of_nat i) H) G = 2 ^ N.of_nat i.
Proof.
  unfold undoes. rewrite forallb_forall. intros Hu Hi.
  apply N.eqb_eq, Hu, in_seq. lia.
Qed.

Lemma undoes_below H G n x :
  undoes H G = true -> (n <= 128)%nat -> x < 2 ^ N.of_nat n ->
  mul (mul x H) G = x.
Proof.
  intros Hu. revert x. induction n as [|n IH]; intros x Hn Hx.
  - cbn in Hx. assert (x = 0) as -> by lia. now rewrite !mul_0_l.
  - rewrite Nat2N.inj_succ in Hx.
    rewrite (split_top_bit (N.of_nat n) x Hx) at 1.
    rewrite !mul_lxor.
    rewrite IH by (try lia; apply N.mod_upper_bound; lia).
    rewrite (split_top_bit (N.of_nat n) x Hx) at 3. f_equal.
    destruct (N.testbit x (N.of_nat n)).
    + apply undoes_bit; [exact Hu|lia].
    + now rewrite !mul_0_l.
Qed.

Lemma undoes_mul H G x : undoes H G = true -> mul (mul x H) G = x mod 2 ^ 128.
Proof.
  intros Hu. rewrite <- (mul_mod x H).
  apply (undoes_below H G 128); [exact Hu|lia|].
  apply N.mod_upper_bound. lia.
Qed.

(** When the hash subkey can be undone, the product with it is zero only
    for zero. *)
Lemma mul_injective H G x :
  undoes H G = true -> (mul x H) mod 2 ^ 128 = 0 -> x mod 2 ^ 128 = 0.
Proof.
  intros Hu Hz. rewrite <- (undoes_mul H G x Hu), <- mul_mod, Hz.
  apply mul_0_l.
Qed.

Lemma lxor_mod a b n : (N.lxor a b) mod 2 ^ n = N.lxor (a mod 2 ^ n) (b mod 2 ^ n).
Proof.
  apply N.bits_inj. intros i. rewrite N.lxor_spec.
  destruct (N.lt_ge_cases i n) as [Hlt|Hge].
  - rewrite !N.mod_pow2_bits_low by exact Hlt. apply N.lxor_spec.
  - now rewrite !N.mod_pow2_bits_high by exact Hge.
Qed.

Lemma mod_eq_lxor a b n : a mod 2 ^ n = b mod 2 ^ n <-> (N.lxor a b) mod 2 ^ n = 0.
Proof. rewrite lxor_mod. symmetry. apply N.lxor_eq_0_iff. Qed.


(** What one step keeps, the whole fold keeps. *)
Lemma fold_left_keeps {A B} (f : A -> B -> A) (P : A -> A -> Prop) xs :
  (forall y y' x, P y y' -> P (f y x) (f y' x)) ->
  forall y y', P y y' -> P (fold_left f xs y) (fold_left f xs y').
Proof.
  intros Hstep. induction xs as [|x xs IH]; intros y y' Hd; [exact Hd|].
  apply (IH (f y x) (f y' x)). now apply Hstep.
Qed.


Lemma differ_step H G y y' x :
  undoes H G = true -> differ y y' ->
  differ (mul (N.lxor y x) H) (mul (N.lxor y' x) H).
Proof.
  unfold differ. intros Hu Hd Hz.
  apply (proj1 (mod_eq_lxor _ _ 128)) in Hz. rewrite <- mul_lxor in Hz.
  apply (mul_injective H G _ Hu) in Hz. apply Hd.
  apply (proj2 (mod_eq_lxor _ _ 128)).
  replace (N.lxor y y') with (N.lxor (N.lxor y x) (N.lxor y' x)); [exact Hz|].
  rewrite lxor_swap, N.lxor_nilpotent. apply N.lxor_0_r.
Qed.

Lemma differ_first H G y a a' :
  undoes H G = true -> differ a a' ->
  differ (mul (N.lxor y a) H) (mul (N.lxor y a') H).
Proof.
  unfold differ. intros Hu Ha Hz.
  apply (proj1 (mod_eq_lxor _ _ 128)) in Hz. rewrite <- mul_lxor in Hz.
  apply (mul_injective H G _ Hu) in Hz. apply Ha.
  apply (proj2 (mod_eq_lxor _ _ 128)).
  replace (N.lxor a a') with (N.lxor (N.lxor y a) (N.lxor y a')); [exact Hz|].
  rewrite lxor_swap, N.lxor_nilpotent. apply N.lxor_0_l.
Qed.

(** Two lists of blocks that differ in one place have different hashes. *)
Lemma ghash_one_block H G xs a a' ys :
  undoes H G = true -> differ a a' ->
  differ (ghash H (xs ++ a :: ys)) (ghash H (xs ++ a' :: ys)).
Proof.
  intros Hu Ha. unfold ghash. rewrite !fold_left_app.
  rewrite !(fold_left_cons (fun y x => mul (N.lxor y x) H)).
  apply (fold_left_keeps (fun y x => mul (N.lxor y x) H) differ).
  - intros y y' x. now apply differ_step with (G := G).
  - now apply differ_first with (G := G).
Qed.

(** The bytes of a block give the block back, up to [256^n]. *)
Lemma bytes_of_block_mod n x y :
  bytes_of_block n x = bytes_of_block n y -> x mod 256 ^ N.of_nat n = y mod 256 ^ N.of_nat n.
Proof.
  revert x y. induction n as [|n IH]; intros x y Hb.
  - cbn. now rewrite !N.mod_1_r.
  - cbn [bytes_of_block] in Hb. apply app_inj_tail in Hb as [Hh Ht].
    apply IH in Hh.
    rewrite Nat2N.inj_succ, N.pow_succ_r'.
    rewrite !N.Div0.mod_mul_r. now rewrite Hh, Ht.
Qed.

Lemma block_of_bytes_snoc b x : block_of_bytes (b ++ [x]) = block_of_bytes b * 256 + x.
Proof. unfold block_of_bytes. rewrite fold_left_app. reflexivity. Qed.

Lemma block_of_bytes_bound b :
  is_bytes b = true -> block_of_bytes b < 256 ^ N.of_nat (List.length b).
Proof.
  induction b as [|x b IH] using rev_ind; intros Hb; [cbn; lia|].
  rewrite is_bytes_app in Hb. apply andb_true_iff in Hb as [Hb Hx].
  apply is_bytes_cons in Hx as [Hx _].
  rewrite block_of_bytes_snoc, length_app. cbn [List.length].
  rewrite Nat.add_1_r, Nat2N.inj_succ, N.pow_succ_r'.
  specialize (IH Hb). lia.
Qed.

Lemma block_of_bytes_injective a b :
  is_bytes a = true -> is_bytes b = true -> List.length a = List.length b ->
  block_of_bytes a = block_of_bytes b -> a = b.
Proof.
  revert b. induction a as [|x a IH] using rev_ind; intros b Ha Hb Hl He.
  - destruct b; [reflexivity|discriminate].
  - destruct b as [|y b _] using rev_ind.
    { rewrite length_app in Hl. cbn in Hl. lia. }
    rewrite is_bytes_app in Ha, Hb.
    apply andb_true_iff in Ha as [Ha Hx]. apply andb_true_iff in Hb as [Hb Hy].
    apply is_bytes_cons in Hx as [Hx _]. apply is_bytes_cons in Hy as [Hy _].
    rewrite !length_app in Hl. cbn [List.length] in Hl.
    rewrite !block_of_bytes_snoc in He.
    assert (block_of_bytes a = block_of_bytes b /\ x = y) as [He' ->] by lia.
    f_equal. apply IH; auto. lia.
Qed.

Lemma is_bytes_repeat_0 n : is_bytes (repeat 0 n) = true.
Proof. induction n as [|n IH]; [reflexivity|exact IH]. Qed.

(** Two byte strings of one length, at most sixteen, fill different blocks
    when they differ. *)
Lemma padded_blocks_differ a b :
  is_bytes a = true -> is_bytes b = true ->
  List.length a = List.length b -> (List.length a <= 16)%nat -> a <> b ->
  differ (block_of_bytes (pad16 a)) (block_of_bytes (pad16 b)).
Proof.
  unfold differ. intros Ha Hb Hl Hle Hne.
  assert (Hlen : forall c, (List.length c <= 16)%nat -> List.length (pad16 c) = 16%nat).
  { intros c Hc. unfold pad16. rewrite length_app, repeat_length. lia. }
  assert (Hby : forall c, is_bytes c = true -> is_bytes (pad16 c) = true).
  { intros c Hc. unfold pad16. now rewrite is_bytes_app, Hc, is_bytes_repeat_0. }
  assert (Hbd : forall c, is_bytes c = true -> (List.length c <= 16)%nat ->
                          block_of_bytes (pad16 c) < 2 ^ 128).
  { intros c Hc Hc'. pose proof (block_of_bytes_bound (pad16 c) (Hby c Hc)) as H.
    rewrite (Hlen c Hc') in H. exact H. }
  rewrite !N.mod_small by (apply Hbd; auto; lia).
  intros He. apply Hne.
  apply block_of_bytes_injective in He; auto.
  - unfold pad16 in He. rewrite Hl in He. now apply app_inv_tail in He.
  - rewrite !Hlen; auto. lia.
Qed.

(** The blocks of a byte string, sixteen bytes at a time. *)
Lemma blocks_of_enough fuel b :
  (List.length b <= fuel)%nat -> blocks_of fuel b = blocks b.
Proof.
  unfold blocks. remember (List.length b) as n eqn:Hn.
  revert fuel b Hn. induction n as [n IH] using lt_wf_ind. intros fuel b Hn Hle.
  destruct b as [|x b]; [now destruct fuel; subst|].
  destruct fuel as [|fuel]; [cbn in Hn; lia|]. subst n.
  change (List.length (x :: b)) with (S (List.length b)) in *.
  change (blocks_of (S fuel) (x :: b))
    with (block_of_bytes (pad16 (firstn 16 (x :: b)))
          :: blocks_of fuel (skipn 16 (x :: b))).
  change (blocks_of (S (List.length b)) (x :: b))
    with (block_of_bytes (pad16 (firstn 16 (x :: b)))
          :: blocks_of (List.length b) (skipn 16 (x :: b))).
  f_equal.
  assert (Hs : (List.length (skipn 16 (x :: b)) < S (List.length b))%nat).
  { rewrite length_skipn. cbn [List.length]. lia. }
  assert (Hs' : (List.length (skipn 16 (x :: b)) <= List.length b)%nat) by lia.
  rewrite (IH _ Hs fuel _ eq_refl) by lia.
  now rewrite (IH _ Hs (List.length b) _ eq_refl) by lia.
Qed.

Lemma blocks_of_S fuel x b :
  blocks_of (S fuel) (x :: b)
  = block_of_bytes (pad16 (firstn 16 (x :: b))) :: blocks_of fuel (skipn 16 (x :: b)).
Proof. reflexivity. Qed.

Lemma blocks_cons c rest :
  List.length c = 16%nat ->
  blocks (c ++ rest) = block_of_bytes (pad16 c) :: blocks rest.
Proof.
  intros Hc. destruct c as [|x c]; [discriminate|].
  unfold blocks at 1. change ((x :: c) ++ rest) with (x :: (c ++ rest)).
  change (List.length (x :: (c ++ rest))) with (S (List.length (c ++ rest))).
  rewrite blocks_of_S. change (x :: (c ++ rest)) with ((x :: c) ++ rest).
  rewrite firstn_app, skipn_app, Hc, Nat.sub_diag.
  rewrite firstn_all2 by lia. rewrite skipn_all2 by lia.
  change (firstn 0 rest) with (@nil N). change (skipn 0 rest) with rest.
  rewrite app_nil_r. change ([] ++ rest) with rest. f_equal.
  apply blocks_of_enough. rewrite length_app. lia.
Qed.

Lemma blocks_last c :
  c <> [] -> (List.length c <= 16)%nat -> blocks c = [block_of_bytes (pad16 c)].
Proof.
  intros Hn Hc. unfold blocks. destruct c as [|x c]; [congruence|].
  change (List.length (x :: c)) with (S (List.length c)).
  rewrite blocks_of_S. rewrite firstn_all2 by exact Hc.
  rewrite skipn_all2 by exact Hc. f_equal. now destruct (List.length c).
Qed.

Lemma blocks_app pre rest :
  Nat.modulo (List.length pre) 16 = 0%nat ->
  blocks (pre ++ rest) = blocks pre ++ blocks rest.
Proof.
  remember (List.length pre) as n eqn:Hn. revert pre Hn.
  induction n as [n IH] using lt_wf_ind. intros pre Hn Hm.
  destruct pre as [|x pre]; [reflexivity|].
  assert (Hge : (16 <= List.length (x :: pre))%nat).
  { rewrite <- Hn. destruct (Nat.lt_ge_cases n 16) as [Hlt|]; [|assumption].
    rewrite Nat.mod_small in Hm by exact Hlt. subst n. discriminate. }
  pose proof (firstn_skipn 16 (x :: pre)) as Hsplit.
  assert (Hc : List.length (firstn 16 (x :: pre)) = 16%nat)
    by (rewrite length_firstn; lia).
  assert (Hd : List.length (skipn 16 (x :: pre)) = (n - 16)%nat)
    by (rewrite length_skipn; lia).
  revert Hsplit Hc Hd.
  generalize (firstn 16 (x :: pre)) as c. generalize (skipn 16 (x :: pre)) as d.
  intros d c Hsplit Hc Hd. rewrite <- Hsplit, <- app_assoc.
  rewrite (blocks_cons c (d ++ rest) Hc), (blocks_cons c d Hc).
  rewrite <- app_comm_cons. f_equal.
  apply (IH (n - 16)%nat); [lia|now symmetry|].
  replace n with ((n - 16) + 1 * 16)%nat in Hm by lia.
  now rewrite Nat.Div0.mod_add in Hm.
Qed.

End GhashFacts.

Section TagFacts.
Variable cipher : bytes -> bytes -> bytes.

Lemma bytes_of_block_16 x y :
  GCM.bytes_of_block 16 x = GCM.bytes_of_block 16 y -> x mod 2 ^ 128 = y mod 2 ^ 128.
Proof.
  intros Hb. apply bytes_of_block_mod in Hb.
  replace (2 ^ 128) with (256 ^ N.of_nat 16) by reflexivity. exact Hb.
Qed.

(** A change within one block of the ciphertext changes the tag, when the
    hash subkey can be undone. *)
Lemma tag_one_block key iv pre blk blk' post G :
  undoes (GCM.hash_subkey cipher key) G = true ->
  is_bytes blk = true -> is_bytes blk' = true ->
  Nat.modulo (List.length pre) 16 = 0%nat ->
  List.length blk' = List.length blk -> (List.length blk <= 16)%nat ->
  post = [] \/ List.length blk = 16%nat ->
  blk' <> blk ->
  GCM.tag cipher key iv [] (pre ++ blk' ++ post)
  <> GCM.tag cipher key iv [] (pre ++ blk ++ post).
Proof.
  intros Hu Hb Hb' Hm Hl Hle Hp Hne Ht.
  assert (Hnil : blk <> []).
  { intros ->. destruct blk'; [congruence|discriminate]. }
  assert (Hnil' : blk' <> []).
  { intros ->. destruct blk; [congruence|discriminate]. }
  assert (Hblocks : forall c, c <> [] -> List.length c = List.length blk ->
            GCM.blocks (pre ++ c ++ post)
            = GCM.blocks pre ++ GCM.block_of_bytes (GCM.pad16 c) :: GCM.blocks post).
  { intros c Hc Hcl. rewrite blocks_app by exact Hm. f_equal.
    destruct Hp as [->|H16].
    - rewrite app_nil_r. rewrite blocks_last; [reflexivity|exact Hc|lia].
    - apply blocks_cons. lia. }
  assert (Hlen : GCM.lengths [] (pre ++ blk' ++ post)
                 = GCM.lengths [] (pre ++ blk ++ post)).
  { unfold GCM.lengths. now rewrite !length_app, Hl. }
  unfold GCM.tag in Ht. apply bytes_of_block_16 in Ht.
  apply (proj1 (mod_eq_lxor _ _ 128)) in Ht.
  rewrite lxor_swap, N.lxor_nilpotent, N.lxor_0_r in Ht.
  apply (proj2 (mod_eq_lxor _ _ 128)) in Ht.
  revert Ht. rewrite Hlen, (Hblocks blk' Hnil' Hl), (Hblocks blk Hnil eq_refl).
  change (GCM.blocks []) with (@nil N). rewrite !app_nil_l.
  rewrite <- !app_assoc, <- !app_comm_cons.
  apply (ghash_one_block _ G); [exact Hu|].
  apply padded_blocks_differ; auto. lia.
Qed.

End TagFacts.

(** ** [crypto.ts]: what the functions compute *)

Lemma lxor_byte x y : x < 256 -> y < 256 -> N.lxor x y < 256.
Proof.
  intros Hx Hy.
  destruct (N.eq_dec (N.lxor x y) 0) as [->|Hz]; [lia|].
  change 256 with (2 ^ 8). apply N.log2_lt_pow2; [lia|].
  eapply N.le_lt_trans; [apply N.log2_lxor|].
  assert (Hl : forall a, a < 256 -> N.log2 a < 8).
  { intros a Ha. destruct (N.eq_dec a 0) as [->|Hn]; [reflexivity|].
    apply N.log2_lt_pow2; [lia|exact Ha]. }
  apply N.max_lub_lt; auto.
Qed.

Lemma is_bytes_Forall b : is_bytes b = true <-> List.Forall (fun x => x < 256) b.
Proof.
  unfold is_bytes. rewrite forallb_forall, List.Forall_forall.
  split; intros H x Hx; apply N.ltb_lt, H, Hx.
Qed.

Lemma is_bytes_bytes_of_block n x : is_bytes (GCM.bytes_of_block n x) = true.
Proof.
  revert x. induction n as [|n IH]; intros x; [reflexivity|].
  cbn [GCM.bytes_of_block]. rewrite is_bytes_app, IH. cbn [andb].
  unfold is_bytes. cbn [forallb]. rewrite andb_true_r. apply N.ltb_lt. lia.
Qed.

Lemma is_bytes_xor_bytes a b :
  is_bytes a = true -> is_bytes b = true -> is_bytes (AES.xor_bytes a b) = true.
Proof.
  revert b. induction a as [|x a IH]; intros [|y b] Ha Hb; try reflexivity.
  apply is_bytes_cons in Ha as [Hx Ha]. apply is_bytes_cons in Hb as [Hy Hb].
  unfold AES.xor_bytes in *. cbn [combine List.map fst snd].
  apply is_bytes_cons. split; [now apply lxor_byte|now apply IH].
Qed.

Section ModeBytes.
Variable cipher : bytes -> bytes -> bytes.

Lemma is_bytes_keystream k cb n : is_bytes (GCM.keystream cipher k cb n) = true.
Proof.
  revert cb. induction n as [|n IH]; intros cb; [reflexivity|].
  cbn [GCM.keystream]. now rewrite is_bytes_app, is_bytes_bytes_of_block, IH.
Qed.

Lemma is_bytes_encrypt k iv aad p :
  is_bytes p = true -> is_bytes (GCM.encrypt cipher k iv aad p) = true.
Proof.
  intros Hp. unfold GCM.encrypt, GCM.tag, GCM.gctr.
  rewrite is_bytes_app, is_bytes_bytes_of_block, andb_true_r.
  apply is_bytes_xor_bytes; [exact Hp|apply is_bytes_keystream].
Qed.

End ModeBytes.

Lemma is_bytes_encode_scalar cp : Utf8.is_scalar cp -> is_bytes (Utf8.encode_scalar cp) = true.
Proof.
  intros [Hlt _]. unfold Utf8.encode_scalar, is_bytes.
  cmp_cases; cbn [forallb]; rewrite ?andb_true_r, ?andb_true_iff, ?N.ltb_lt;
    repeat split; lia.
Qed.

Lemma is_bytes_TextEncoder s :
  is_jsstring s = true -> is_bytes (Utf8.TextEncoder_encode s) = true.
Proof.
  intros Hs. apply to_scalars_scalar in Hs. unfold Utf8.TextEncoder_encode.
  induction Hs as [|cp l Hcp _ IH]; [reflexivity|].
  unfold Utf8.encode_scalars in *. cbn [flat_map].
  now rewrite is_bytes_app, is_bytes_encode_scalar, IH.
Qed.

Lemma is_bytes_random (f : nat -> N) l : is_bytes (List.map (fun i => f i mod 256) l) = true.
Proof.
  induction l as [|i l IH]; [reflexivity|].
  cbn [List.map]. apply is_bytes_cons. split; [lia|exact IH].
Qed.

Lemma map_id_on {A} (f : A -> A) l :
  List.Forall (fun x => f x = x) l -> List.map f l = l.
Proof.
  induction 1 as [|x l Hx _ IH]; [reflexivity|]. cbn [List.map]. now rewrite Hx, IH.
Qed.

(** On bytes [arrayBufferToBase64] does not throw: it is the encoder. *)
Lemma arrayBufferToBase64_bytes b :
  is_bytes b = true -> arrayBufferToBase64 b = Ok (Base64.encode b).
Proof.
  intros Hb. unfold arrayBufferToBase64, Base64.btoa.
  assert (Hm : List.map fromCharCode b = b).
  { apply map_id_on. apply is_bytes_Forall in Hb.
    eapply List.Forall_impl; [|exact Hb]. intros x Hx. cbn beta in *.
    unfold fromCharCode. apply N.mod_small. lia. }
  rewrite Hm.
  assert (Hf : forallb (fun c => c <=? 255) b = true).
  { apply forallb_forall. intros x Hx. apply N.leb_le.
    apply is_bytes_Forall in Hb. rewrite List.Forall_forall in Hb.
    specialize (Hb x Hx). cbn beta in Hb. lia. }
  now rewrite Hf.
Qed.

(** [base64ToArrayBuffer] undoes [arrayBufferToBase64]. *)
Lemma base64ToArrayBuffer_encode b :
  is_bytes b = true -> base64ToArrayBuffer (Base64.encode b) = Ok b.
Proof.
  intros Hb. unfold base64ToArrayBuffer. rewrite atob_encode by exact Hb.
  cbn [bind]. f_equal. apply map_id_on. apply is_bytes_Forall in Hb.
  eapply List.Forall_impl; [|exact Hb]. intros x Hx. cbn beta in *.
  apply N.mod_small. exact Hx.
Qed.

Lemma is_bytes_nonce w : is_bytes (nonce_of w) = true.
Proof. apply (is_bytes_random (fun i => entropy w (drawn w + i)%nat)). Qed.

Lemma length_nonce w : List.length (nonce_of w) = 12%nat.
Proof. reflexivity. Qed.

(** The nonce the source draws is of a supported length: encryption goes
    through, and decryption of what it made returns the data. *)
Lemma subtle_encrypt_nonce w k data :
  subtle_encrypt (nonce_of w) k data
  = Ok (GCM.encrypt AES.encrypt_block (raw k) (nonce_of w) [] data).
Proof. reflexivity. Qed.

Lemma subtle_decrypt_sealed w k data :
  subtle_decrypt (nonce_of w) k
    (GCM.encrypt AES.encrypt_block (raw k) (nonce_of w) [] data) = Ok data.
Proof.
  unfold subtle_decrypt. change (iv_supported (nonce_of w)) with true.
  cbv iota. now rewrite decrypt_encrypt.
Qed.

(** [encryptText] never throws on a string. *)
Lemma encryptText_spec text k w :
  is_jsstring text = true ->
  encryptText text k w =
  (Ok {| ciphertext :=
           Base64.encode (GCM.encrypt AES.encrypt_block (raw k) (nonce_of w) []
                            (Utf8.TextEncoder_encode text));
         iv := Base64.encode (nonce_of w);
         algorithm := js "AES-GCM-256" |},
   after_draw IV_LENGTH w).
Proof.
  intros Hs. unfold encryptText, try_catch, bindM, getRandomValues, lift, ret.
  fold (nonce_of w). fold (after_draw IV_LENGTH w).
  rewrite subtle_encrypt_nonce. cbv beta iota.
  rewrite arrayBufferToBase64_bytes
    by (apply is_bytes_encrypt, is_bytes_TextEncoder, Hs).
  rewrite arrayBufferToBase64_bytes by apply is_bytes_nonce.
  reflexivity.
Qed.

(** [decryptText] on what [encryptText] made, for every string: the text
    codec applied to the string. *)
Lemma roundtrip_text_codec text k w :
  is_jsstring text = true ->
  exists payload w',
    encryptText text k w = (Ok payload, w') /\
    decryptText payload k =
      Ok (Utf8.from_scalars (Utf8.strip_bom (Utf8.to_scalars text))).
Proof.
  intros Hs. eexists _, _. split; [apply encryptText_spec, Hs|].
  unfold decryptText. cbn [ciphertext iv].
  rewrite base64ToArrayBuffer_encode
    by (apply is_bytes_encrypt, is_bytes_TextEncoder, Hs).
  rewrite base64ToArrayBuffer_encode by apply is_bytes_nonce.
  cbn [bind]. rewrite subtle_decrypt_sealed.
  cbn [bind try_catch_rethrow]. now rewrite decode_encode_gen.
Qed.
(** ** Text and file round trips *)

(** C1 as the code has it: for every key and every well-formed string that
    does not begin with U+FEFF, [encryptText] returns a payload and
    [decryptText] of that payload under the same key returns the string.
    The empty string, strings with characters outside the Basic
    Multilingual Plane and strings of any length are covered. *)
Theorem decryptText_encryptText text k w :
  is_jsstring text = true ->
  Utf8.well_formed text = true ->
  Utf8.starts_with_bom text = false ->
  exists payload w',
    encryptText text k w = (Ok payload, w') /\ decryptText payload k = Ok text.
Proof.
  intros Hs Hw Hb.
  destruct (roundtrip_text_codec text k w Hs) as (payload & w' & He & Hd).
  exists payload, w'. split; [exact He|].
  rewrite Hd, strip_bom_to_scalars by exact Hb.
  now rewrite from_to_scalars.
Qed.

Lemma decryptText_encryptText_witness :
  exists payload w',
    encryptText hello_globe sample_key sample_world = (Ok payload, w') /\
    decryptText payload sample_key = Ok hello_globe.
Proof.
  apply (decryptText_encryptText hello_globe sample_key sample_world);
    reflexivity.
Defined.

Example roundtrip_empty : roundtripText [] sample_key sample_world = Ok [].
Proof. vm_compute. reflexivity. Qed.

(** C1 as stated fails on two kinds of strings: [TextDecoder] drops a
    leading U+FEFF, and [TextEncoder] replaces an unpaired surrogate by
    U+FFFD. *)
Lemma roundtripText_not_identity :
  roundtripText bom_hi sample_key sample_world = Ok (js "hi") /\
  js "hi" <> bom_hi /\
  roundtripText lone_surrogate sample_key sample_world = Ok [0xFFFD] /\
  [0xFFFD] <> lone_surrogate.
Proof.
  split; [vm_compute; reflexivity|]. split; [discriminate|].
  split; [vm_compute; reflexivity|]. discriminate.
Qed.

(** C2: for every key and every buffer, [encryptFile] returns a blob
    sixteen bytes longer than the buffer, and [decryptFile] of that blob
    with the returned iv and the same key returns the buffer's bytes. *)
Theorem decryptFile_encryptFile file k w originalType :
  exists enc w',
    encryptFile file k w = (Ok enc, w') /\
    List.length (blob_bytes (encryptedBlob enc))
      = (List.length (blob_bytes file) + 16)%nat /\
    exists out,
      decryptFile (encryptedBlob enc) (file_iv enc) k originalType = Ok out /\
      blob_bytes out = blob_bytes file.
Proof.
  unfold encryptFile, try_catch, bindM, getRandomValues, lift, ret.
  fold (nonce_of w). fold (after_draw IV_LENGTH w).
  rewrite subtle_encrypt_nonce. cbv beta iota.
  rewrite arrayBufferToBase64_bytes by apply is_bytes_nonce.
  eexists _, _. split; [reflexivity|].
  cbn [encryptedBlob file_iv new_Blob blob_bytes]. split.
  - apply length_encrypt.
  - unfold decryptFile. cbn [encryptedBlob file_iv new_Blob blob_bytes].
    rewrite base64ToArrayBuffer_encode by apply is_bytes_nonce.
    cbn [bind]. rewrite subtle_decrypt_sealed.
    cbn [bind try_catch_rethrow]. eexists. split; reflexivity.
Qed.

Example encryptFile_jpeg_header :
  match encryptFile (new_Blob (hex "ffd8ffe000104a46") (js "image/jpeg"))
          sample_key sample_world with
  | (Ok enc, _) =>
      List.length (blob_bytes (encryptedBlob enc)) = 24%nat /\
      decryptFile (encryptedBlob enc) (file_iv enc) sample_key (js "image/jpeg")
        = Ok (new_Blob (hex "ffd8ffe000104a46") (js "image/jpeg"))
  | (Throw _, _) => False
  end.
Proof. vm_compute. split; reflexivity. Qed.

(** ** Where the nonce comes from *)

Lemma encode_injective a b :
  is_bytes a = true -> is_bytes b = true -> Base64.encode a = Base64.encode b -> a = b.
Proof.
  intros Ha Hb H. apply atob_encode in Ha. apply atob_encode in Hb.
  rewrite H in Ha. congruence.
Qed.

(** The iv of a payload is the base64 of the next twelve bytes of the random
    source, whatever the text and the key; two payloads have the same iv
    exactly when the random source gave the same bytes. *)
Lemma encryptText_iv text text' k k' w w' :
  is_jsstring text = true -> is_jsstring text' = true ->
  exists payload payload',
    fst (encryptText text k w) = Ok payload /\
    fst (encryptText text' k' w') = Ok payload' /\
    iv payload = Base64.encode (nonce_of w) /\
    (iv payload = iv payload' <-> nonce_of w = nonce_of w').
Proof.
  intros Hs Hs'. rewrite !encryptText_spec by assumption.
  eexists _, _. split; [reflexivity|]. split; [reflexivity|].
  split; [reflexivity|]. cbn [iv]. split.
  - apply encode_injective; apply is_bytes_nonce.
  - now intros ->.
Qed.

(** ** When [decryptText] throws *)

Lemma decrypt_verify cipher k iv aad ct :
  GCM.decrypt cipher k iv aad ct =
  if GCM.verify cipher k iv aad ct
  then Some (GCM.gctr cipher k (GCM.inc32 (GCM.J0 cipher k iv))
               (firstn (List.length ct - 16) ct))
  else None.
Proof.
  unfold GCM.decrypt, GCM.verify.
  destruct (Nat.ltb (List.length ct) 16); [reflexivity|]. cbn [negb andb].
  destruct (GCM.bytes_eqb _ _); reflexivity.
Qed.

(** What [decryptText] computes. *)
Lemma decryptText_spec payload k :
  decryptText payload k =
  match base64ToArrayBuffer (ciphertext payload), base64ToArrayBuffer (iv payload) with
  | Ok ct, Ok nonce =>
      if iv_supported nonce && GCM.verify AES.encrypt_block (raw k) nonce [] ct
      then Ok (Utf8.TextDecoder_decode
                 (GCM.gctr AES.encrypt_block (raw k)
                    (GCM.inc32 (GCM.J0 AES.encrypt_block (raw k) nonce))
                    (firstn (List.length ct - 16) ct)))
      else Throw (Error "Failed to decrypt text. Data may be corrupted or key is incorrect.")
  | _, _ => Throw (Error "Failed to decrypt text. Data may be corrupted or key is incorrect.")
  end.
Proof.
  unfold decryptText, subtle_decrypt.
  destruct (base64ToArrayBuffer (ciphertext payload)) as [ct|?]; [|reflexivity].
  destruct (base64ToArrayBuffer (iv payload)) as [nonce|?]; [|reflexivity].
  cbn [bind]. destruct (iv_supported nonce); [|reflexivity].
  rewrite decrypt_verify. cbn [andb].
  destruct (GCM.verify _ _ _ _ _); reflexivity.
Qed.

Lemma verify_sealed cipher k iv aad body t :
  List.length t = 16%nat ->
  GCM.verify cipher k iv aad (body ++ t) = GCM.bytes_eqb t (GCM.tag cipher k iv aad body).
Proof.
  intros Ht. unfold GCM.verify. rewrite length_app, Ht.
  destruct (Nat.ltb_spec (List.length body + 16) 16) as [Hlt|_]; [lia|].
  cbn [negb andb].
  replace (List.length body + 16 - 16)%nat with (List.length body + 0)%nat by lia.
  rewrite firstn_app_2, skipn_app, Nat.add_0_r. cbn [firstn].
  rewrite app_nil_r, skipn_all.
  replace (List.length body - List.length body)%nat with 0%nat by lia.
  reflexivity.
Qed.

(** *** One byte replaced *)

Lemma set_byte_app_r index b pre xs :
  (List.length pre <= index)%nat ->
  set_byte index b (pre ++ xs) = pre ++ set_byte (index - List.length pre) b xs.
Proof.
  intros Hle. unfold set_byte.
  rewrite firstn_app, skipn_app, firstn_all2, skipn_all2 by exact Hle.
  cbn [app]. now rewrite app_assoc.
Qed.

Lemma set_byte_app_l index b xs post :
  (index < List.length xs)%nat ->
  set_byte index b (xs ++ post) = set_byte index b xs ++ post.
Proof.
  intros Hlt. unfold set_byte. rewrite firstn_app, skipn_app.
  replace (index - List.length xs)%nat with 0%nat by lia. cbn [firstn skipn].
  rewrite app_nil_r.
  pose proof (length_skipn index xs) as Hs.
  destruct (skipn index xs) as [|c rest]; cbn [List.length] in Hs; [lia|].
  cbn [app]. now rewrite <- app_assoc.
Qed.

Lemma length_set_byte index b bs :
  List.length (set_byte index b bs) = List.length bs.
Proof.
  unfold set_byte. pose proof (firstn_skipn index bs) as E.
  apply (f_equal (@List.length N)) in E. rewrite length_app in *.
  destruct (skipn index bs); cbn [List.length] in *; lia.
Qed.

Lemma is_bytes_set_byte index b bs :
  b < 256 -> is_bytes bs = true -> is_bytes (set_byte index b bs) = true.
Proof.
  intros Hb Hbs. unfold set_byte. rewrite <- (firstn_skipn index bs) in Hbs.
  rewrite is_bytes_app in *. apply andb_true_iff in Hbs as [H1 H2].
  rewrite H1. cbn [andb]. destruct (skipn index bs) as [|c rest]; [reflexivity|].
  apply is_bytes_cons. apply is_bytes_cons in H2. tauto.
Qed.

Lemma nth_set_byte index b bs :
  (index < List.length bs)%nat -> nth index (set_byte index b bs) 0 = b.
Proof.
  intros Hlt. unfold set_byte.
  pose proof (length_skipn index bs) as Hs.
  destruct (skipn index bs) as [|c rest]; cbn [List.length] in Hs; [lia|].
  rewrite app_nth2; rewrite length_firstn, Nat.min_l by lia; [|lia].
  now rewrite Nat.sub_diag.
Qed.

Lemma set_byte_differs index b bs :
  (index < List.length bs)%nat -> b <> nth index bs 0 -> set_byte index b bs <> bs.
Proof.
  intros Hlt Hne Heq. apply Hne. rewrite <- Heq at 1. now rewrite nth_set_byte.
Qed.

(** The replaced byte lies in one sixteen-byte block of the buffer. *)
Lemma set_byte_block index b body :
  (index < List.length body)%nat -> b <> nth index body 0 ->
  exists pre blk blk' post,
    body = pre ++ blk ++ post /\
    set_byte index b body = pre ++ blk' ++ post /\
    Nat.modulo (List.length pre) 16 = 0%nat /\
    List.length blk' = List.length blk /\ (List.length blk <= 16)%nat /\
    (post = [] \/ List.length blk = 16%nat) /\ blk' <> blk.
Proof.
  intros Hlt Hne.
  pose proof (Nat.div_mod_eq index 16) as Hdm.
  pose proof (Nat.mod_upper_bound index 16 ltac:(lia)) as Hr.
  set (q := Nat.div index 16) in *. set (r := Nat.modulo index 16) in *.
  set (pre := firstn (16 * q) body).
  set (blk := firstn 16 (skipn (16 * q) body)).
  set (post := skipn 16 (skipn (16 * q) body)).
  assert (Hbody : body = pre ++ blk ++ post).
  { unfold pre, blk, post. now rewrite !firstn_skipn. }
  assert (Hpre : List.length pre = (16 * q)%nat).
  { unfold pre. rewrite length_firstn. lia. }
  assert (Hblk : List.length blk = Nat.min 16 (List.length body - 16 * q)).
  { unfold blk. now rewrite length_firstn, length_skipn. }
  assert (Hset : set_byte index b body = pre ++ set_byte r b blk ++ post).
  { rewrite Hbody at 1. rewrite set_byte_app_r by lia.
    rewrite Hpre. replace (index - 16 * q)%nat with r by lia.
    rewrite set_byte_app_l by lia. reflexivity. }
  exists pre, blk, (set_byte r b blk), post.
  split; [exact Hbody|]. split; [exact Hset|].
  split; [rewrite Hpre, Nat.mul_comm; apply Nat.Div0.mod_mul|].
  split; [apply length_set_byte|]. split; [lia|]. split.
  - destruct (Nat.le_gt_cases 16 (List.length body - 16 * q)) as [Hge|Hsmall];
      [right; lia|left].
    unfold post. apply skipn_all2. rewrite length_skipn. lia.
  - intros Heq. apply (set_byte_differs index b body Hlt Hne).
    rewrite Hset, Heq. now symmetry.
Qed.

(** *** A changed ciphertext under the correct key *)


(** The body of a sealed ciphertext changed within one of its blocks, the
    tag kept: verification under the key that sealed it fails, when the
    hash subkey of the key can be undone. *)
Lemma verify_changed_block k G pre blk blk' post nonce :
  undoes (hash_subkey_of k) G = true ->
  is_bytes (pre ++ blk ++ post) = true -> is_bytes (pre ++ blk' ++ post) = true ->
  Nat.modulo (List.length pre) 16 = 0%nat ->
  List.length blk' = List.length blk -> (List.length blk <= 16)%nat ->
  post = [] \/ List.length blk = 16%nat ->
  blk' <> blk ->
  GCM.verify AES.encrypt_block (raw k) nonce []
    ((pre ++ blk' ++ post)
     ++ GCM.tag AES.encrypt_block (raw k) nonce [] (pre ++ blk ++ post)) = false.
Proof.
  intros Hu Hb Hb' Hm Hl Hle Hp Hne.
  rewrite verify_sealed by apply length_tag.
  destruct (GCM.bytes_eqb _ _) eqn:He; [|reflexivity].
  apply bytes_eqb_eq in He. exfalso.
  rewrite !is_bytes_app in Hb, Hb'.
  apply andb_true_iff in Hb as [_ Hb]. apply andb_true_iff in Hb as [Hb _].
  apply andb_true_iff in Hb' as [_ Hb']. apply andb_true_iff in Hb' as [Hb' _].
  now apply (tag_one_block AES.encrypt_block (raw k) nonce pre blk blk' post G).
Qed.

(** One byte of a sealed ciphertext, body or tag, replaced by another. *)
Lemma verify_changed_byte k G body nonce index b :
  undoes (hash_subkey_of k) G = true ->
  is_bytes body = true ->
  (index < List.length body + 16)%nat -> b < 256 ->
  b <> nth index (body ++ GCM.tag AES.encrypt_block (raw k) nonce [] body) 0 ->
  GCM.verify AES.encrypt_block (raw k) nonce []
    (set_byte index b (body ++ GCM.tag AES.encrypt_block (raw k) nonce [] body))
  = false.
Proof.
  intros Hu Hb Hlt Hb256 Hne.
  destruct (Nat.lt_ge_cases index (List.length body)) as [Hin|Hout].
  - rewrite set_byte_app_l by exact Hin.
    rewrite app_nth1 in Hne by exact Hin.
    destruct (set_byte_block index b body Hin Hne)
      as (pre & blk & blk' & post & Hbody & Hset & Hm & Hl & Hle & Hp & Hd).
    rewrite Hset. rewrite Hbody at 1.
    apply (verify_changed_block k G); try assumption.
    + now rewrite <- Hbody.
    + rewrite <- Hset. now apply is_bytes_set_byte.
  - rewrite set_byte_app_r by exact Hout.
    rewrite app_nth2 in Hne by lia.
    set (t := GCM.tag AES.encrypt_block (raw k) nonce [] body) in *.
    assert (Ht : List.length t = 16%nat) by apply length_tag.
    rewrite verify_sealed by (rewrite length_set_byte; exact Ht).
    destruct (GCM.bytes_eqb _ _) eqn:He; [|reflexivity].
    apply bytes_eqb_eq in He. exfalso.
    apply (set_byte_differs (index - List.length body) b t); [lia|exact Hne|].
    exact He.
Qed.







(** ** [JSON.parse] reads back what [JSON.stringify] wrote *)

Section JsonFacts.
Import JSON.

Lemma hex_value_hex_char d : d < 16 -> hex_value (hex_char d) = Some d.
Proof.
  intros Hd. unfold hex_char. cmp_cases; unfold hex_value; cmp_cases;
    try lia; f_equal; lia.
Qed.

Lemma parse_string_cons c s :
  parse_string (c :: s) =
  if c =? 0x22 then Some ([], s)
  else if c =? 0x5C then
    match s with
    | e :: rest1 =>
        if e =? 0x75 then
          match rest1 with
          | h1 :: h2 :: h3 :: h4 :: rest2 =>
              match hex_value h1, hex_value h2, hex_value h3, hex_value h4 with
              | Some a, Some b, Some c', Some d =>
                  match parse_string rest2 with
                  | Some (str, r) =>
                      Some ((a * 4096 + b * 256 + c' * 16 + d) :: str, r)
                  | None => None
                  end
              | _, _, _, _ => None
              end
          | _ => None
          end
        else
          match simple_escape e with
          | Some u =>
              match parse_string rest1 with
              | Some (str, r) => Some (u :: str, r)
              | None => None
              end
          | None => None
          end
    | [] => None
    end
  else if c <? 0x20 then None
  else match parse_string s with
       | Some (str, r) => Some (c :: str, r)
       | None => None
       end.
Proof. reflexivity. Qed.

(** An escape [\uXXXX] is read back as its code unit. *)
Lemma parse_unicode_escape c s str r :
  c < 65536 -> parse_string s = Some (str, r) ->
  parse_string (unicode_escape c ++ s) = Some (c :: str, r).
Proof.
  intros Hc Hs. unfold unicode_escape. cbn [app].
  rewrite parse_string_cons. cbn [N.eqb Pos.eqb].
  rewrite !hex_value_hex_char by lia. rewrite Hs.
  do 2 f_equal. f_equal. lia.
Qed.

(** A raw character is read back as itself. *)
Lemma parse_raw c s str r :
  c <> 0x22 -> c <> 0x5C -> 0x20 <= c -> parse_string s = Some (str, r) ->
  parse_string (c :: s) = Some (c :: str, r).
Proof.
  intros H1 H2 H3 Hs. rewrite parse_string_cons.
  rewrite (proj2 (N.eqb_neq c 0x22)), (proj2 (N.eqb_neq c 0x5C)) by assumption.
  rewrite (proj2 (N.ltb_ge c 0x20)) by assumption. now rewrite Hs.
Qed.

Lemma parse_quote_unit c s str r :
  parse_string s = Some (str, r) ->
  parse_string (quote_unit c ++ s) = Some (c :: str, r).
Proof.
  intros Hs. unfold quote_unit.
  destruct (N.eqb_spec c 0x08) as [->|?]; [cbn [app]; rewrite parse_string_cons; cbn; now rewrite Hs|].
  destruct (N.eqb_spec c 0x09) as [->|?]; [cbn [app]; rewrite parse_string_cons; cbn; now rewrite Hs|].
  destruct (N.eqb_spec c 0x0A) as [->|?]; [cbn [app]; rewrite parse_string_cons; cbn; now rewrite Hs|].
  destruct (N.eqb_spec c 0x0C) as [->|?]; [cbn [app]; rewrite parse_string_cons; cbn; now rewrite Hs|].
  destruct (N.eqb_spec c 0x0D) as [->|?]; [cbn [app]; rewrite parse_string_cons; cbn; now rewrite Hs|].
  destruct (N.eqb_spec c 0x22) as [->|?]; [cbn [app]; rewrite parse_string_cons; cbn; now rewrite Hs|].
  destruct (N.eqb_spec c 0x5C) as [->|?]; [cbn [app]; rewrite parse_string_cons; cbn; now rewrite Hs|].
  destruct (N.ltb_spec c 0x20).
  - apply parse_unicode_escape; [lia|exact Hs].
  - cbn [app]. now apply parse_raw.
Qed.

Lemma quote_body_cons c rest :
  quote_body (c :: rest) =
  if Utf8.is_high_surrogate c then
    match rest with
    | d :: rest' =>
        if Utf8.is_low_surrogate d then c :: d :: quote_body rest'
        else unicode_escape c ++ quote_body rest
    | [] => unicode_escape c
    end
  else if Utf8.is_low_surrogate c then unicode_escape c ++ quote_body rest
  else quote_unit c ++ quote_body rest.
Proof. reflexivity. Qed.

(** A quoted string is read back as the string. *)
Lemma parse_string_quote_body s rest :
  parse_string (quote_body s ++ 0x22 :: rest) = Some (s, rest).
Proof.
  induction s as [|c|c d s' IH1 IH2] using jsstring_ind2.
  - reflexivity.
  - rewrite quote_body_cons.
    destruct (Utf8.is_high_surrogate c) eqn:Hh.
    + unfold Utf8.is_high_surrogate in Hh. apply andb_true_iff in Hh as [Ha Hb].
      apply N.leb_le in Ha, Hb.
      apply parse_unicode_escape; [lia|reflexivity].
    + destruct (Utf8.is_low_surrogate c) eqn:Hl.
      * unfold Utf8.is_low_surrogate in Hl. apply andb_true_iff in Hl as [Ha Hb].
        apply N.leb_le in Ha, Hb.
        rewrite <- app_assoc. apply parse_unicode_escape; [lia|reflexivity].
      * rewrite <- app_assoc. now apply parse_quote_unit.
  - rewrite quote_body_cons.
    destruct (Utf8.is_high_surrogate c) eqn:Hh.
    + unfold Utf8.is_high_surrogate in Hh. apply andb_true_iff in Hh as [Ha Hb].
      apply N.leb_le in Ha, Hb.
      destruct (Utf8.is_low_surrogate d) eqn:Hl.
      * unfold Utf8.is_low_surrogate in Hl. apply andb_true_iff in Hl as [Hc Hd].
        apply N.leb_le in Hc, Hd.
        cbn [app]. apply parse_raw; try lia. apply parse_raw; try lia. exact IH1.
      * rewrite <- app_assoc. apply parse_unicode_escape; [lia|exact IH2].
    + destruct (Utf8.is_low_surrogate c) eqn:Hl.
      * unfold Utf8.is_low_surrogate in Hl. apply andb_true_iff in Hl as [Ha Hb].
        apply N.leb_le in Ha, Hb.
        rewrite <- app_assoc. apply parse_unicode_escape; [lia|exact IH2].
      * rewrite <- app_assoc. apply parse_quote_unit. exact IH2.
Qed.


Lemma uint_of_codes_of_uint u : JS.uint_of_codes (JS.codes_of_uint u) = Some u.
Proof.
  induction u as [|u IH|u IH|u IH|u IH|u IH|u IH|u IH|u IH|u IH|u IH];
    [reflexivity|..]; cbn [JS.codes_of_uint JS.uint_of_codes]; rewrite IH; reflexivity.
Qed.

Lemma digits_value_digits n : JS.digits_value (JS.digits n) = Some n.
Proof.
  unfold JS.digits_value, JS.digits. rewrite uint_of_codes_of_uint.
  now rewrite DecimalN.Unsigned.of_to.
Qed.

Lemma span_digits_codes u rest :
  number_end rest = true ->
  span_digits (JS.codes_of_uint u ++ rest) = (JS.codes_of_uint u, rest).
Proof.
  intros Hr.
  induction u as [|u IH|u IH|u IH|u IH|u IH|u IH|u IH|u IH|u IH|u IH];
    try (cbn [JS.codes_of_uint app span_digits]; unfold is_digit at 1;
         cbn [N.leb N.compare Pos.compare Pos.compare_cont andb]; now rewrite IH).
  cbn [JS.codes_of_uint app]. destruct rest as [|c rest]; [reflexivity|].
  cbn [span_digits]. cbn [number_end] in Hr.
  destruct (is_digit c); [discriminate|reflexivity].
Qed.

(** The digits of a number are ["0"] or start with another digit. *)
Lemma to_uint_head n :
  N.to_uint n = Decimal.D0 Decimal.Nil \/
  (N.to_uint n <> Decimal.Nil /\ forall u, N.to_uint n <> Decimal.D0 u).
Proof.
  assert (Hn : Decimal.unorm (N.to_uint n) = N.to_uint n).
  { rewrite <- (DecimalN.Unsigned.of_to n) at 2.
    now rewrite DecimalN.Unsigned.to_of. }
  destruct (Decimal.uint_eq_dec (Decimal.nzhead (N.to_uint n)) Decimal.Nil) as [Hz|Hnz].
  - left. apply unorm_0 in Hz. now rewrite Hn in Hz.
  - right. split.
    + rewrite <- Hn. apply unorm_nonnil.
    + intros u. rewrite <- Hn, (unorm_nzhead _ Hnz). apply nzhead_nonzero.
Qed.

Lemma span_int_digits n rest :
  number_end rest = true ->
  span_int (JS.digits n ++ rest) = Some (JS.digits n, rest).
Proof.
  intros Hr. unfold JS.digits.
  destruct (to_uint_head n) as [Hz|[Hnn Hnz]].
  - rewrite Hz. reflexivity.
  - pose proof (span_digits_codes (N.to_uint n) rest Hr) as Hs.
    destruct (N.to_uint n) as [|u|u|u|u|u|u|u|u|u|u];
      [congruence|now specialize (Hnz u)|..];
      cbn [JS.codes_of_uint app] in *; unfold span_int;
      cbn [N.eqb Pos.eqb]; unfold is_digit at 1;
      cbn [N.leb N.compare Pos.compare Pos.compare_cont andb];
      now rewrite Hs.
Qed.

Lemma digits_head n : exists c rest, JS.digits n = c :: rest /\ is_digit c = true.
Proof.
  unfold JS.digits. destruct (to_uint_head n) as [Hz|[Hnn _]].
  - rewrite Hz. eexists _, _. split; reflexivity.
  - destruct (N.to_uint n); [congruence|..]; eexists _, _; split; reflexivity.
Qed.

Lemma span_fraction_end rest :
  number_end rest = true -> span_fraction rest = Some ([], rest).
Proof.
  destruct rest as [|c rest]; [reflexivity|]. cbn [number_end span_fraction].
  intros H. apply negb_true_iff in H. apply orb_false_iff in H as [H _].
  apply orb_false_iff in H as [H _]. apply orb_false_iff in H as [_ H].
  now rewrite H.
Qed.

Lemma span_exponent_end rest :
  number_end rest = true -> span_exponent rest = Some ([], rest).
Proof.
  destruct rest as [|c rest]; [reflexivity|]. cbn [number_end span_exponent].
  intros H. apply negb_true_iff in H. apply orb_false_iff in H as [H H2].
  apply orb_false_iff in H as [_ H1].
  now rewrite H1, H2.
Qed.

Lemma of_decimal_int z :
  safe_integer z = true -> Num.of_decimal (z <? 0)%Z (Z.abs_N z) 0 = Int z.
Proof.
  unfold safe_integer. intros Hz. apply andb_true_iff in Hz as [Hlo Hhi].
  apply Z.leb_le in Hlo, Hhi. unfold Num.of_decimal.
  destruct (Z.abs_N z) as [|p] eqn:Hp; [f_equal; lia|].
  cbn [Z.eqb andb].
  assert (Hle : (N.pos p <=? 2 ^ 53) = true).
  { apply N.leb_le. rewrite <- Hp.
    change (2 ^ 53) with (Z.to_N (2 ^ 53)). lia. }
  rewrite Hle. f_equal. unfold Num.signed.
  destruct (Z.ltb_spec z 0); lia.
Qed.

(** A printed integer is read back as the integer. *)
Lemma parse_number_print_int z rest :
  safe_integer z = true -> number_end rest = true ->
  parse_number (JS.print_int z ++ rest) = Some (Int z, rest).
Proof.
  intros Hz Hr. pose proof (of_decimal_int z Hz) as Hd0.
  unfold JS.print_int, parse_number. revert Hd0.
  destruct (Z.ltb_spec z 0) as [Hneg|Hpos]; intros Hd0.
  - cbn [app N.eqb Pos.eqb].
    rewrite span_int_digits, span_fraction_end, span_exponent_end by assumption.
    cbn [List.tl]. rewrite app_nil_r, digits_value_digits.
    change (exponent_value [] - Z.of_nat (@List.length N []))%Z with 0%Z.
    now rewrite Hd0.
  - destruct (digits_head (Z.abs_N z)) as (c & r & Hd & Hc).
    assert (Hm : (c =? 0x2D) = false).
    { unfold is_digit in Hc. apply andb_true_iff in Hc as [Ha Hb].
      apply N.leb_le in Ha, Hb. apply N.eqb_neq. lia. }
    rewrite Hd. cbn [app]. rewrite Hm.
    change (c :: r ++ rest) with ((c :: r) ++ rest). rewrite <- Hd.
    rewrite span_int_digits, span_fraction_end, span_exponent_end by assumption.
    cbn [List.tl]. rewrite app_nil_r, digits_value_digits.
    change (exponent_value [] - Z.of_nat (@List.length N []))%Z with 0%Z.
    now rewrite Hd0.
Qed.


Lemma value_ind' (P : value -> Prop) :
  P Undefined -> P Null -> (forall b, P (Bool b)) -> (forall n, P (Num n)) ->
  (forall s, P (Str s)) ->
  (forall l, List.Forall P l -> P (Arr l)) ->
  (forall fields, List.Forall (fun p => P (snd p)) fields -> P (Obj fields)) ->
  forall v, P v.
Proof.
  intros HU HN HB HNum HS HA HO.
  fix IH 1. intros [| |b|n|s|l|fields].
  - exact HU.
  - exact HN.
  - apply HB.
  - apply HNum.
  - apply HS.
  - apply HA. revert l. fix IHl 1. intros [|e l].
    + constructor.
    + constructor; [apply IH|apply IHl].
  - apply HO. revert fields. fix IHl 1. intros [|p fields].
    + constructor.
    + constructor; [apply IH|apply IHl].
Qed.

Lemma parse_value_S fuel s :
  parse_value (S fuel) s =
  match skip_ws s with
  | [] => None
  | c :: r =>
      if c =? 0x22 then
        match parse_string r with
        | Some (str, r') => Some (Str str, r')
        | None => None
        end
      else if c =? 0x7B then
        match skip_ws r with
        | c' :: r' =>
            if c' =? 0x7D then Some (Obj [], r')
            else parse_members fuel [] r
        | [] => None
        end
      else if c =? 0x5B then
        match skip_ws r with
        | c' :: r' =>
            if c' =? 0x5D then Some (Arr [], r')
            else match parse_elements fuel r with
                 | Some (l, r'') => Some (Arr l, r'')
                 | None => None
                 end
        | [] => None
        end
      else if c =? 0x74 then
        match strip_prefix (js "rue") r with
        | Some r' => Some (Bool true, r')
        | None => None
        end
      else if c =? 0x66 then
        match strip_prefix (js "alse") r with
        | Some r' => Some (Bool false, r')
        | None => None
        end
      else if c =? 0x6E then
        match strip_prefix (js "ull") r with
        | Some r' => Some (Null, r')
        | None => None
        end
      else
        match parse_number (c :: r) with
        | Some (n, r') => Some (Num n, r')
        | None => None
        end
  end.
Proof. reflexivity. Qed.

Lemma parse_members_S fuel acc s :
  parse_members (S fuel) acc s =
  match skip_ws s with
  | c :: r =>
      if c =? 0x22 then
        match parse_string r with
        | Some (k, r1) =>
            match skip_ws r1 with
            | c1 :: r2 =>
                if c1 =? 0x3A then
                  match parse_value fuel r2 with
                  | Some (v, r3) =>
                      match skip_ws r3 with
                      | c3 :: r4 =>
                          if c3 =? 0x2C then parse_members fuel (JS.set acc k v) r4
                          else if c3 =? 0x7D then Some (Obj (JS.set acc k v), r4)
                          else None
                      | [] => None
                      end
                  | None => None
                  end
                else None
            | [] => None
            end
        | None => None
        end
      else None
  | [] => None
  end.
Proof. reflexivity. Qed.

Lemma parse_elements_S fuel s :
  parse_elements (S fuel) s =
  match parse_value fuel s with
  | Some (v, r1) =>
      match skip_ws r1 with
      | c :: r2 =>
          if c =? 0x2C then
            match parse_elements fuel r2 with
            | Some (l, r3) => Some (v :: l, r3)
            | None => None
            end
          else if c =? 0x5D then Some ([v], r2)
          else None
      | [] => None
      end
  | None => None
  end.
Proof. reflexivity. Qed.

Lemma print_int_head z :
  exists c r, JS.print_int z = c :: r /\ ((c =? 0x2D) || is_digit c = true).
Proof.
  unfold JS.print_int. destruct (z <? 0)%Z.
  - eexists _, _. split; reflexivity.
  - destruct (digits_head (Z.abs_N z)) as (c & r & Hd & Hc).
    exists c, r. split; [exact Hd|]. rewrite Hc. apply orb_true_r.
Qed.

Lemma stringify_head v :
  exact v -> exists c r, stringify v = c :: r /\ value_start c = true.
Proof.
  destruct v as [| |[|]|[z|neg m e|neg]|s|l|fields]; cbn [exact]; intros Hv;
    try contradiction; try (eexists _, _; split; reflexivity).
  cbn [stringify JS.print_number].
  destruct (print_int_head z) as (c & r & Hp & Hc). exists c, r. split; [exact Hp|].
  unfold value_start. apply orb_true_iff in Hc as [Hc|Hc]; rewrite Hc;
    rewrite ?orb_true_r; reflexivity.
Qed.

Lemma value_start_not_ws c : value_start c = true -> is_ws c = false.
Proof.
  intros Hs. unfold is_ws.
  destruct (N.eqb_spec c 0x20) as [->|_]; [discriminate Hs|].
  destruct (N.eqb_spec c 0x09) as [->|_]; [discriminate Hs|].
  destruct (N.eqb_spec c 0x0A) as [->|_]; [discriminate Hs|].
  destruct (N.eqb_spec c 0x0D) as [->|_]; [discriminate Hs|].
  reflexivity.
Qed.

Lemma skip_ws_start c r : is_ws c = false -> skip_ws (c :: r) = c :: r.
Proof. intros H. cbn [skip_ws]. now rewrite H. Qed.

Lemma join_cons2 sep (p q : jsstring) r :
  JS.join sep (p :: q :: r) = p ++ sep ++ JS.join sep (q :: r).
Proof.
  unfold JS.join. cbn [flat_map]. now rewrite <- app_assoc.
Qed.

Lemma number_end_delimiter c r :
  (c =? 0x2C) || (c =? 0x5D) || (c =? 0x7D) = true -> number_end (c :: r) = true.
Proof.
  intros Hd. cbn [number_end].
  destruct (N.eqb_spec c 0x2C) as [->|_]; [reflexivity|].
  destruct (N.eqb_spec c 0x5D) as [->|_]; [reflexivity|].
  destruct (N.eqb_spec c 0x7D) as [->|_]; [reflexivity|discriminate Hd].
Qed.

Lemma exact_Arr l : exact (Arr l) <-> List.Forall exact l.
Proof.
  cbn [exact]. induction l as [|e l IH].
  - split; [constructor|trivial].
  - split.
    + intros [He Hl]. constructor; [exact He|now apply IH].
    + intros H. inversion H; subst. split; [assumption|now apply IH].
Qed.

Lemma exact_Obj fields :
  exact (Obj fields) <->
  List.Forall (fun p => exact (snd p)) fields /\ JS.spread (Obj fields) = fields.
Proof.
  cbn [exact]. apply and_iff_compat_r. induction fields as [|p fields IH].
  - split; [constructor|trivial].
  - split.
    + intros [He Hl]. constructor; [exact He|now apply IH].
    + intros H. inversion H; subst. split; [assumption|now apply IH].
Qed.

Lemma value_start_cases c :
  value_start c = true ->
  (c =? 0x5D) = false /\ (c =? 0x7D) = false.
Proof.
  intros Hs.
  destruct (N.eqb_spec c 0x5D) as [->|_]; [discriminate Hs|].
  destruct (N.eqb_spec c 0x7D) as [->|_]; [discriminate Hs|]. now split.
Qed.

Lemma parse_value_array fuel r c r1 :
  r = c :: r1 -> value_start c = true ->
  parse_value (S fuel) (0x5B :: r) =
  match parse_elements fuel r with
  | Some (l, r') => Some (Arr l, r')
  | None => None
  end.
Proof.
  intros Hr Hc. rewrite parse_value_S. cbn [skip_ws is_ws N.eqb Pos.eqb orb].
  rewrite Hr at 1. rewrite skip_ws_start by now apply value_start_not_ws.
  now rewrite (proj1 (value_start_cases c Hc)).
Qed.

Lemma parse_value_object fuel r :
  parse_value (S fuel) (0x7B :: 0x22 :: r) = parse_members fuel [] (0x22 :: r).
Proof. reflexivity. Qed.

Lemma parse_value_number fuel c r :
  (c =? 0x2D) || is_digit c = true ->
  parse_value (S fuel) (c :: r) =
  match parse_number (c :: r) with
  | Some (n, r') => Some (Num n, r')
  | None => None
  end.
Proof.
  intros Hc. rewrite parse_value_S.
  assert (Hv : value_start c = true).
  { unfold value_start. apply orb_true_iff in Hc as [Hc|Hc]; rewrite Hc;
      rewrite ?orb_true_r; reflexivity. }
  rewrite skip_ws_start by now apply value_start_not_ws.
  destruct (N.eqb_spec c 0x22) as [->|_]; [discriminate Hc|].
  destruct (N.eqb_spec c 0x7B) as [->|_]; [discriminate Hc|].
  destruct (N.eqb_spec c 0x5B) as [->|_]; [discriminate Hc|].
  destruct (N.eqb_spec c 0x74) as [->|_]; [discriminate Hc|].
  destruct (N.eqb_spec c 0x66) as [->|_]; [discriminate Hc|].
  destruct (N.eqb_spec c 0x6E) as [->|_]; [discriminate Hc|].
  reflexivity.
Qed.

Lemma element_text_exact e : exact e -> element_text e = stringify e.
Proof. destruct e; cbn [exact]; intros H; try contradiction; reflexivity. Qed.

Lemma elements_text_exact l :
  List.Forall exact l -> List.map element_text l = List.map stringify l.
Proof.
  induction 1 as [|e l He _ IH]; [reflexivity|].
  cbn [List.map]. now rewrite element_text_exact, IH.
Qed.

Lemma members_text_exact fields :
  List.Forall (fun p => exact (snd p)) fields ->
  flat_map (fun p => match snd p with
                     | Undefined => []
                     | _ => [quote (fst p) ++ 0x3A :: stringify (snd p)]
                     end) fields
  = List.map member_text fields.
Proof.
  induction 1 as [|[k v] fields Hv _ IH]; [reflexivity|].
  cbn [flat_map List.map]. rewrite IH. cbn [snd fst] in *.
  destruct v; cbn [exact] in Hv; try contradiction; reflexivity.
Qed.

Lemma stringify_Arr l :
  stringify (Arr l) = 0x5B :: JS.join [0x2C] (List.map element_text l) ++ [0x5D].
Proof. reflexivity. Qed.

Lemma stringify_Obj fields :
  List.Forall (fun p => exact (snd p)) fields ->
  stringify (Obj fields) = 0x7B :: JS.join [0x2C] (List.map member_text fields) ++ [0x7D].
Proof. intros H. cbn [stringify]. now rewrite members_text_exact. Qed.

Lemma length_join_cons sep (p : jsstring) l :
  (List.length p <= List.length (JS.join sep (p :: l)))%nat.
Proof. unfold JS.join. rewrite length_app. lia. Qed.

Lemma parse_elements_text l :
  List.Forall reads_back l -> List.Forall exact l ->
  forall e fuel rest,
    reads_back e -> exact e ->
    (List.length (JS.join [0x2C%N] (List.map stringify (e :: l))) + 2 <= fuel)%nat ->
    parse_elements fuel (JS.join [0x2C] (List.map stringify (e :: l)) ++ 0x5D :: rest)
    = Some (e :: l, rest).
Proof.
  induction 1 as [|e' l He' Hl IH]; intros Hex e fuel rest He Hee Hfuel.
  - destruct fuel as [|fuel]; [lia|]. rewrite parse_elements_S.
    cbn [List.map] in *. unfold JS.join in *. cbn [flat_map] in *.
    rewrite app_nil_r in *.
    rewrite (He Hee) by (try reflexivity; lia). reflexivity.
  - inversion Hex as [|? ? Hee' Hex']; subst.
    destruct fuel as [|fuel]; [lia|]. rewrite parse_elements_S.
    cbn [List.map] in *. rewrite join_cons2 in *.
    rewrite length_app in Hfuel. cbn [List.length app] in Hfuel.
    rewrite <- !app_assoc. cbn [app].
    rewrite (He Hee) by (try reflexivity; lia).
    cbn [skip_ws is_ws N.eqb Pos.eqb orb].
    rewrite (IH Hex' e' fuel rest He' Hee') by (cbn [List.map]; lia).
    reflexivity.
Qed.

Lemma parse_members_text fields :
  List.Forall (fun p => reads_back (snd p)) fields ->
  List.Forall (fun p => exact (snd p)) fields ->
  forall p acc fuel rest,
    reads_back (snd p) -> exact (snd p) ->
    (List.length (JS.join [0x2C%N] (List.map member_text (p :: fields))) + 2 <= fuel)%nat ->
    parse_members fuel acc
      (JS.join [0x2C] (List.map member_text (p :: fields)) ++ 0x7D :: rest)
    = Some (Obj (fold_left (fun a q => JS.set a (fst q) (snd q)) (p :: fields) acc),
            rest).
Proof.
  induction 1 as [|p' fields Hp' Hl IH]; intros Hex p acc fuel rest Hp Hpe Hfuel.
  - destruct fuel as [|fuel]; [lia|]. rewrite parse_members_S.
    cbn [List.map] in *. unfold JS.join in *. cbn [flat_map] in *.
    rewrite app_nil_r in *. unfold member_text, quote in *.
    cbn [app] in *.
    repeat first [progress cbn [List.length app] in Hfuel | rewrite length_app in Hfuel].
    rewrite <- !app_assoc. cbn [app skip_ws is_ws N.eqb Pos.eqb orb].
    rewrite parse_string_quote_body.
    cbn [skip_ws is_ws N.eqb Pos.eqb orb].
    rewrite (Hp Hpe) by (try reflexivity; lia). reflexivity.
  - inversion Hex as [|? ? Hpe' Hex']; subst.
    destruct fuel as [|fuel]; [lia|]. rewrite parse_members_S.
    cbn [List.map] in *. rewrite join_cons2 in *.
    rewrite length_app in Hfuel. cbn [List.length app] in Hfuel.
    unfold member_text at 1, quote at 1.
    unfold member_text at 1, quote at 1 in Hfuel.
    cbn [app] in *.
    repeat first [progress cbn [List.length app] in Hfuel | rewrite length_app in Hfuel].
    rewrite <- !app_assoc. cbn [app skip_ws is_ws N.eqb Pos.eqb orb].
    rewrite parse_string_quote_body.
    cbn [skip_ws is_ws N.eqb Pos.eqb orb].
    rewrite (Hp Hpe) by (try reflexivity; lia).
    cbn [skip_ws is_ws N.eqb Pos.eqb orb].
    rewrite (IH Hex' p' _ fuel rest Hp' Hpe') by (cbn [List.map]; lia).
    reflexivity.
Qed.

(** Every exact value is read back from its text. *)
Lemma stringify_reads_back v : reads_back v.
Proof.
  induction v as [| |b|n|s|l IH|fields IH] using value_ind'; intros Hv fuel rest Hfuel Hrest;
    (destruct fuel as [|fuel]; [lia|]).
  - contradiction.
  - reflexivity.
  - destruct b; reflexivity.
  - destruct n as [z|neg m e|neg]; [|contradiction..]. cbn [exact] in Hv.
    cbn [stringify JS.print_number].
    destruct (print_int_head z) as (c & r & Hp & Hc).
    pose proof (parse_number_print_int z rest Hv Hrest) as Hn.
    rewrite Hp in *. cbn [app] in *.
    rewrite parse_value_number by exact Hc. now rewrite Hn.
  - cbn [stringify]. unfold quote. cbn [app]. rewrite parse_value_S.
    cbn [skip_ws is_ws N.eqb Pos.eqb orb]. rewrite <- app_assoc. cbn [app].
    now rewrite parse_string_quote_body.
  - apply exact_Arr in Hv. rewrite stringify_Arr in *.
    rewrite elements_text_exact in * by exact Hv.
    destruct l as [|e l]; [reflexivity|].
    inversion IH as [|? ? He Hl]; subst. inversion Hv as [|? ? Hee Hle]; subst.
    cbn [app]. rewrite <- app_assoc. cbn [app].
    cbn [List.length] in Hfuel. rewrite length_app in Hfuel. cbn [List.length] in Hfuel.
    destruct (stringify_head e Hee) as (c & r & Hs & Hc).
    erewrite parse_value_array; [| |exact Hc].
    + rewrite (parse_elements_text l Hl Hle e fuel rest He Hee) by lia. reflexivity.
    + cbn [List.map]. unfold JS.join. rewrite Hs. reflexivity.
  - apply exact_Obj in Hv as [Hv Hnormal]. rewrite stringify_Obj in * by exact Hv.
    destruct fields as [|p fields]; [reflexivity|].
    inversion IH as [|? ? Hp Hl]; subst. inversion Hv as [|? ? Hpe Hle]; subst.
    cbn [app]. rewrite <- app_assoc. cbn [app].
    cbn [List.length] in Hfuel. rewrite length_app in Hfuel. cbn [List.length] in Hfuel.
    assert (Hobj :
      parse_value (S fuel)
        (0x7B :: JS.join [0x2C] (List.map member_text (p :: fields)) ++ 0x7D :: rest)
      = parse_members fuel []
          (JS.join [0x2C] (List.map member_text (p :: fields)) ++ 0x7D :: rest)).
    { cbn [List.map]. unfold JS.join, member_text at 1, quote at 1. reflexivity. }
    rewrite Hobj, (parse_members_text fields Hl Hle p [] fuel rest Hp Hpe) by lia.
    f_equal. f_equal. f_equal. exact Hnormal.
Qed.

(** [JSON.parse(JSON.stringify(v))] is [v] for every exact value. *)
Lemma parse_stringify v : exact v -> parse (stringify v) = Ok v.
Proof.
  intros Hv. unfold parse.
  pose proof (stringify_reads_back v Hv (S (List.length (stringify v))) []
                ltac:(lia) eq_refl) as H.
  rewrite app_nil_r in H. now rewrite H.
Qed.

End JsonFacts.

(** ** [JSON]: examples *)

Example json1 : JSON.parse (json_text "{'a': [1, 2.5, true, null, 'xA\n'], 'b' : {}}")
  = Ok (Obj [(js "a", Arr [Num (Int 1); Num (Double false 5629499534213120 (-51)); Bool true; Null; Str (js "xA" ++ [10])]); (js "b", Obj [])]).
Proof. vm_compute. reflexivity. Qed.
Example json2 : JSON.parse (json_text "{'b':1,'0':2,'b':3,'10':4,'9':5,'01':6}")
  = Ok (Obj [(js "0", Num (Int 2)); (js "9", Num (Int 5)); (js "10", Num (Int 4)); (js "b", Num (Int 3)); (js "01", Num (Int 6))]).
Proof. vm_compute. reflexivity. Qed.
Example json3 : JSON.parse (js "not-a-valid-bundle") = Throw SyntaxError.
Proof. vm_compute. reflexivity. Qed.
Example json4 : JSON.parse (js " -0 ") = Ok (Num (Int 0)).
Proof. vm_compute. reflexivity. Qed.
Example json5 : JSON.parse (js "01") = Throw SyntaxError.
Proof. vm_compute. reflexivity. Qed.
Example json6 : JSON.parse (js "[1,]") = Throw SyntaxError.
Proof. vm_compute. reflexivity. Qed.
Example json7 : JSON.parse [] = Throw SyntaxError.
Proof. vm_compute. reflexivity. Qed.
Example json8 : JSON.stringify (Obj [(js "version", Str (js "1.0")); (js "createdAt", Num (Int 1700000000000)); (js "u", Undefined); (js "s", Str [0x22; 0x5C; 0x0A; 0x01; 0xD800; 0xD83C; 0xDF0D; 0xE9])])
  = json_text "{'version':'1.0','createdAt':1700000000000,'s':'\'\\\n\u0001\ud800"
    ++ [0xD83C; 0xDF0D; 0xE9] ++ json_text "'}".
Proof. vm_compute. reflexivity. Qed.
Example json9 : JSON.parse (js "1e5x") = Throw SyntaxError.
Proof. vm_compute. reflexivity. Qed.
Example json10 : JSON.parse (js "[-12.5e+3, 9007199254740993, -9007199254740992]") = Ok (Arr [Num (Int (-12500)); Num (Int 9007199254740992); Num (Int (-9007199254740992))]).
Proof. vm_compute. reflexivity. Qed.
Example json11 :
  match JSON.parse (js "[1e21,1E-7,0.0000010,2.50,1e400,-1e400,1e-400,1234567890123456789012,0.1,-1.5e3,4.35,5e-324]") with
  | Ok v => JSON.stringify v
  | Throw _ => []
  end = js "[1e+21,1e-7,0.000001,2.5,null,null,0,1.2345678901234568e+21,0.1,-1500,4.35,5e-324]".
Proof. vm_compute. reflexivity. Qed.
Example truthy1 :
  List.map (fun s => match JSON.parse (js s) with Ok v => JS.truthy v | Throw _ => false end)
    ["1e-400"; "0.0"; "-0"; "5e-324"; "1e400"; "0.5"]%string
  = [false; false; false; true; true; true].
Proof. vm_compute. reflexivity. Qed.
Example tostr1 : JS.to_string (Arr [Str (js "ab"); Null; Num (Int (-5)); Arr [Bool true; Undefined]]) = js "ab,,-5,true,".
Proof. vm_compute. reflexivity. Qed.

(** ** [keyStorage.ts] *)

Section KeyStorageFacts.
Import KeyStorage.

Lemma slots_differ userId userId' :
  KEY_PREFIX ++ userId <> METADATA_PREFIX ++ userId'.
Proof.
  intros H. apply (f_equal (fun l => nth 12 l 0)) in H. vm_compute in H.
  discriminate.
Qed.

(** What [getStoredKey] does, from the two slots alone. *)
Lemma getStoredKey_spec userId w :
  getStoredKey userId w =
  let keyData := localStorage w !! (KEY_PREFIX ++ userId) in
  let metadataStr := localStorage w !! (METADATA_PREFIX ++ userId) in
  if falsy keyData || falsy metadataStr then (Ok None, w)
  else match JSON.parse (text_of metadataStr), importEncryptionKey (text_of keyData) with
       | Ok metadata, Ok key => (Ok (Some {| key := key; metadata := metadata |}), w)
       | _, _ => (Throw (Error "Failed to retrieve encryption key"), w)
       end.
Proof.
  unfold getStoredKey, try_catch, bindM, getItem, ret, lift. cbv beta iota zeta.
  destruct (falsy (localStorage w !! (KEY_PREFIX ++ userId))
            || falsy (localStorage w !! (METADATA_PREFIX ++ userId))); [reflexivity|].
  destruct (JSON.parse _); [|reflexivity].
  destruct (importEncryptionKey _); reflexivity.
Qed.

(** C8 as the code has it: [getStoredKey] returns [null] when either slot
    is missing or holds the empty string; when both slots hold a non-empty
    string and the metadata does not parse or the key does not import, it
    throws and does not return [null].  Neither path changes anything. *)
Theorem getStoredKey_null_or_throws userId w :
  (falsy (localStorage w !! (KEY_PREFIX ++ userId)) = true \/
   falsy (localStorage w !! (METADATA_PREFIX ++ userId)) = true ->
   getStoredKey userId w = (Ok None, w)) /\
  (forall keyData metadataStr,
     localStorage w !! (KEY_PREFIX ++ userId) = Some keyData ->
     localStorage w !! (METADATA_PREFIX ++ userId) = Some metadataStr ->
     keyData <> [] -> metadataStr <> [] ->
     is_ok (JSON.parse metadataStr) = false \/
     is_ok (importEncryptionKey keyData) = false ->
     getStoredKey userId w = (Throw (Error "Failed to retrieve encryption key"), w)).
Proof.
  split.
  - intros H. rewrite getStoredKey_spec. cbn zeta.
    destruct H as [H|H]; rewrite H; rewrite ?orb_true_r; reflexivity.
  - intros keyData metadataStr Hk Hm Hkn Hmn H. rewrite getStoredKey_spec, Hk, Hm.
    cbn zeta. destruct keyData as [|c1 r1]; [congruence|].
    destruct metadataStr as [|c2 r2]; [congruence|]. cbn [falsy orb text_of].
    destruct (JSON.parse (c2 :: r2)); [|reflexivity].
    destruct (importEncryptionKey (c1 :: r1)); [|reflexivity].
    destruct H; discriminate.
Qed.

(** C9: [getKeyMetadata] never throws and changes nothing; what it returns
    depends on the metadata slot alone, and is [null] when the slot is
    missing and when its contents do not parse. *)
Theorem getKeyMetadata_total userId w :
  exists metadata,
    getKeyMetadata userId w = (Ok metadata, w) /\
    (localStorage w !! (METADATA_PREFIX ++ userId) = None -> metadata = Null) /\
    (forall metadataStr,
       localStorage w !! (METADATA_PREFIX ++ userId) = Some metadataStr ->
       is_ok (JSON.parse metadataStr) = false -> metadata = Null) /\
    (forall w',
       localStorage w' !! (METADATA_PREFIX ++ userId)
         = localStorage w !! (METADATA_PREFIX ++ userId) ->
       getKeyMetadata userId w' = (Ok metadata, w')).
Proof.
  assert (Hspec : forall w0,
    getKeyMetadata userId w0 =
    (Ok (match localStorage w0 !! (METADATA_PREFIX ++ userId) with
         | Some (c :: r) => match JSON.parse (c :: r) with
                            | Ok metadata => metadata
                            | Throw _ => Null
                            end
         | _ => Null
         end), w0)).
  { intros w0. unfold getKeyMetadata, bindM, getItem, ret. cbv beta iota zeta.
    destruct (localStorage w0 !! (METADATA_PREFIX ++ userId)) as [[|c r]|];
      cbn [falsy text_of]; try reflexivity.
    destruct (JSON.parse (c :: r)); reflexivity. }
  eexists. split; [apply Hspec|]. split; [|split].
  - intros ->. reflexivity.
  - intros metadataStr -> Hp. destruct metadataStr as [|c r]; [reflexivity|].
    destruct (JSON.parse (c :: r)); [discriminate|reflexivity].
  - intros w' Hw. rewrite Hspec, Hw. reflexivity.
Qed.


Lemma encode_nonempty b : b <> [] -> falsy (Some (Base64.encode b)) = false.
Proof.
  destruct b as [|x [|y [|z r]]]; [congruence|reflexivity..].
Qed.

Lemma is_bytes_fresh_key w : is_bytes (fresh_key w) = true.
Proof. apply (is_bytes_random (fun i => entropy w (drawn w + i)%nat)). Qed.

Lemma length_fresh_key w : List.length (fresh_key w) = 32%nat.
Proof. unfold fresh_key. now rewrite length_map, length_seq. Qed.

(** A key of 128, 192 or 256 bits is imported from its base64 form. *)
Lemma importEncryptionKey_encode k :
  is_bytes k = true ->
  List.length k = 16%nat \/ List.length k = 24%nat \/ List.length k = 32%nat ->
  importEncryptionKey (Base64.encode k) = Ok {| raw := k |}.
Proof.
  intros Hb Hl. unfold importEncryptionKey.
  rewrite base64ToArrayBuffer_encode by exact Hb. cbn [bind].
  unfold subtle_importKey.
  destruct Hl as [->|[->| ->]]; reflexivity.
Qed.

Lemma exact_key_metadata t userId :
  t <= 8640000000000000 -> JSON.exact (key_metadata t userId).
Proof.
  intros Ht. unfold key_metadata, key_metadata_fields. cbn [JSON.exact snd].
  repeat split. unfold JSON.safe_integer.
  apply andb_true_iff. split; apply Z.leb_le; lia.
Qed.

Lemma now_of_bound w : now_of w <= 8640000000000000.
Proof. unfold now_of. lia. Qed.

Lemma generateAndStoreKey_spec userId w :
  generateAndStoreKey userId w =
  (Ok {| key := {| raw := fresh_key w |};
         metadata := key_metadata (now_of w) userId |},
   after_generate userId w).
Proof.
  unfold generateAndStoreKey, generateEncryptionKey, subtle_generateKey,
    subtle_exportKey, try_catch, bindM, getRandomValues, Date_now, setItem,
    ret, lift.
  cbv beta iota zeta. fold (fresh_key w). cbn [raw].
  rewrite arrayBufferToBase64_bytes by apply is_bytes_fresh_key.
  reflexivity.
Qed.

(** A record written by [generateAndStoreKey] is read back by
    [getStoredKey], whatever else the world holds. *)
Lemma getStoredKey_generated userId k t w :
  is_bytes k = true -> List.length k = 32%nat -> t <= 8640000000000000 ->
  localStorage w !! (KEY_PREFIX ++ userId) = Some (Base64.encode k) ->
  localStorage w !! (METADATA_PREFIX ++ userId)
    = Some (JSON.stringify (key_metadata t userId)) ->
  getStoredKey userId w =
  (Ok (Some {| key := {| raw := k |}; metadata := key_metadata t userId |}), w).
Proof.
  intros Hb Hl Ht Hk Hm. rewrite getStoredKey_spec, Hk, Hm. cbv zeta.
  rewrite encode_nonempty by (intros ->; discriminate Hl).
  cbn [orb text_of]. 
  change (falsy (Some (JSON.stringify (key_metadata t userId)))) with false.
  cbv iota.
  rewrite parse_stringify by now apply exact_key_metadata.
  rewrite importEncryptionKey_encode by auto.
  reflexivity.
Qed.

(** The slots after [generateAndStoreKey]. *)
Lemma generated_key_slot userId w :
  localStorage (after_generate userId w) !! (KEY_PREFIX ++ userId)
  = Some (Base64.encode (fresh_key w)).
Proof.
  cbn [after_generate localStorage].
  rewrite lookup_insert_ne by (intros H; symmetry in H; now apply slots_differ in H).
  now rewrite lookup_insert_eq.
Qed.

Lemma generated_metadata_slot userId w :
  localStorage (after_generate userId w) !! (METADATA_PREFIX ++ userId)
  = Some (JSON.stringify (key_metadata (now_of w) userId)).
Proof. cbn [after_generate localStorage]. now rewrite lookup_insert_eq. Qed.



Lemma latin1_app a b : latin1 (a ++ b) = latin1 a && latin1 b.
Proof. apply forallb_app. Qed.

Lemma latin1_cons c s : latin1 (c :: s) = (c <=? 255) && latin1 s.
Proof. reflexivity. Qed.

Lemma latin1_is_bytes s : latin1 s = true -> is_bytes s = true.
Proof.
  unfold latin1, is_bytes. rewrite !forallb_forall. intros H x Hx.
  specialize (H x Hx). apply N.leb_le in H. apply N.ltb_lt. lia.
Qed.

Lemma latin1_hex_char d : d < 16 -> (JSON.hex_char d <=? 255) = true.
Proof.
  intros Hd. unfold JSON.hex_char. destruct (N.ltb_spec d 10); apply N.leb_le; lia.
Qed.

Lemma latin1_unicode_escape c : c < 65536 -> latin1 (JSON.unicode_escape c) = true.
Proof.
  intros Hc. unfold JSON.unicode_escape, latin1. cbn [forallb].
  rewrite !latin1_hex_char by lia. reflexivity.
Qed.

Lemma latin1_quote_unit c : c <= 255 -> latin1 (JSON.quote_unit c) = true.
Proof.
  intros Hc. unfold JSON.quote_unit.
  repeat match goal with
  | |- context [N.eqb ?a ?b] => destruct (N.eqb_spec a b); [reflexivity|]
  end.
  destruct (N.ltb_spec c 0x20).
  - apply latin1_unicode_escape. lia.
  - unfold latin1. cbn [forallb]. rewrite andb_true_r. now apply N.leb_le.
Qed.

Lemma latin1_quote_body s : latin1 s = true -> latin1 (JSON.quote_body s) = true.
Proof.
  induction s as [|c s IH]; [reflexivity|]. rewrite latin1_cons.
  intros H. apply andb_true_iff in H as [Hc Hs]. apply N.leb_le in Hc.
  rewrite quote_body_cons.
  unfold Utf8.is_high_surrogate, Utf8.is_low_surrogate.
  rewrite (proj2 (N.leb_gt 0xD800 c)), (proj2 (N.leb_gt 0xDC00 c)) by lia.
  cbn [andb]. rewrite latin1_app, latin1_quote_unit, IH by (assumption || lia).
  reflexivity.
Qed.

Lemma char_of_latin1 v : (Base64.char_of v <=? 255) = true.
Proof.
  apply N.leb_le. unfold Base64.char_of.
  repeat match goal with
  | |- context [N.ltb ?a ?b] => destruct (N.ltb_spec a b)
  | |- context [N.eqb ?a ?b] => destruct (N.eqb_spec a b)
  end; lia.
Qed.

Lemma latin1_encode b : latin1 (Base64.encode b) = true.
Proof.
  unfold Base64.encode. rewrite latin1_app. apply andb_true_iff. split.
  - induction b as [|x|x y|x y z rest IH] using bytes_ind3;
      cbn [Base64.encode_groups]; rewrite ?latin1_cons, ?char_of_latin1; auto.
  - unfold Base64.padding. destruct (Nat.modulo (List.length b) 3) as [|[|[|]]];
      reflexivity.
Qed.

Lemma latin1_codes_of_uint u : latin1 (JS.codes_of_uint u) = true.
Proof.
  induction u; cbn [JS.codes_of_uint]; rewrite ?latin1_cons, ?IHu; reflexivity.
Qed.

Lemma latin1_print_int z : latin1 (JS.print_int z) = true.
Proof.
  unfold JS.print_int, JS.digits. destruct (z <? 0)%Z;
    rewrite ?latin1_cons, latin1_codes_of_uint; reflexivity.
Qed.

Lemma latin1_join sep parts :
  latin1 sep = true -> List.Forall (fun p => latin1 p = true) parts ->
  latin1 (JS.join sep parts) = true.
Proof.
  intros Hsep Hp. unfold JS.join. destruct Hp as [|p parts Hp Hps]; [reflexivity|].
  rewrite latin1_app, Hp. cbn [andb].
  induction Hps as [|q parts Hq _ IH]; [reflexivity|].
  cbn [flat_map]. now rewrite !latin1_app, Hsep, Hq, IH.
Qed.

Lemma quotes_latin1_Arr l :
  quotes_latin1 (Arr l) <-> List.Forall quotes_latin1 l.
Proof.
  cbn [quotes_latin1]. induction l as [|e l IH].
  - split; [constructor|trivial].
  - split.
    + intros [He Hl]. constructor; [exact He|now apply IH].
    + intros H. inversion H; subst. split; [assumption|now apply IH].
Qed.

Lemma quotes_latin1_Obj fields :
  quotes_latin1 (Obj fields) <->
  List.Forall (fun p => latin1 (JSON.quote_body (fst p)) = true
                        /\ quotes_latin1 (snd p)) fields.
Proof.
  cbn [quotes_latin1]. induction fields as [|p fields IH].
  - split; [constructor|trivial].
  - split.
    + intros [He Hl]. constructor; [exact He|now apply IH].
    + intros H. inversion H; subst. split; [assumption|now apply IH].
Qed.

(** The text of a value has no code unit above U+00FF when the quoted
    strings in it have none. *)
Lemma latin1_stringify v : quotes_latin1 v -> latin1 (JSON.stringify v) = true.
Proof.
  induction v as [| |b|n|s|l IH|fields IH] using value_ind'; intros Hv.
  - reflexivity.
  - reflexivity.
  - destruct b; reflexivity.
  - destruct n as [z|neg m e|neg]; [apply latin1_print_int|exact Hv|reflexivity].
  - cbn [JSON.stringify quotes_latin1] in *. unfold JSON.quote.
    rewrite latin1_cons, latin1_app, Hv. reflexivity.
  - apply quotes_latin1_Arr in Hv. cbn [JSON.stringify].
    rewrite latin1_cons, latin1_app. cbn [N.leb N.compare Pos.compare Pos.compare_cont andb].
    rewrite andb_true_r. apply latin1_join; [reflexivity|].
    induction IH as [|e l He _ IHl]; [constructor|].
    inversion Hv; subst. cbn [List.map]. constructor; [|now apply IHl].
    destruct e; try reflexivity; now apply He.
  - apply quotes_latin1_Obj in Hv. cbn [JSON.stringify].
    rewrite latin1_cons, latin1_app. cbn [N.leb N.compare Pos.compare Pos.compare_cont andb].
    rewrite andb_true_r. apply latin1_join; [reflexivity|].
    induction IH as [|[k e] fields He _ IHl]; [constructor|].
    inversion Hv as [|? ? [Hk Hq] Hrest]; subst. cbn [flat_map fst snd] in *.
    assert (Hm : latin1 (JSON.quote k ++ 0x3A :: JSON.stringify e) = true).
    { unfold JSON.quote. rewrite latin1_app, !latin1_cons, latin1_app, Hk.
      rewrite latin1_cons, (He Hq). reflexivity. }
    destruct e; cbn [app]; try (constructor; [exact Hm|]); now apply IHl.
Qed.

Lemma safe_integer_time t : t <= 8640000000000000 -> JSON.safe_integer (Z.of_N t) = true.
Proof.
  intros Ht. unfold JSON.safe_integer. apply andb_true_iff.
  split; apply Z.leb_le; lia.
Qed.

Lemma lookup_exact fields name :
  List.Forall (fun p => JSON.exact (snd p)) fields ->
  JS.lookup fields name = Undefined \/ JSON.exact (JS.lookup fields name).
Proof.
  induction 1 as [|[k v] fields Hv _ IH]; [now left|].
  cbn [JS.lookup]. destruct (JS.jsstring_eqb name k); [now right|exact IH].
Qed.

Lemma lookup_quotes_latin1 fields name :
  quotes_latin1 (Obj fields) -> quotes_latin1 (JS.lookup fields name).
Proof.
  intros H. apply quotes_latin1_Obj in H.
  induction H as [|[k v] fields [_ Hv] _ IH]; [exact I|].
  cbn [JS.lookup]. destruct (JS.jsstring_eqb name k); [exact Hv|exact IH].
Qed.

Lemma jsstring_eqb_refl k : JS.jsstring_eqb k k = true.
Proof. unfold JS.jsstring_eqb. now destruct (decide (k = k)). Qed.

Lemma lookup_replace fields k v :
  JS.has_key fields k = true -> JS.lookup (JS.replace fields k v) k = v.
Proof.
  induction fields as [|[k' v'] fields IH]; [discriminate|].
  cbn [JS.has_key JS.replace]. destruct (JS.jsstring_eqb k k') eqn:Hk.
  - intros _. cbn [JS.lookup]. now rewrite jsstring_eqb_refl.
  - cbn [orb JS.lookup]. rewrite Hk. exact IH.
Qed.

Lemma lookup_append fields k v :
  JS.has_key fields k = false -> JS.lookup (fields ++ [(k, v)]) k = v.
Proof.
  induction fields as [|[k' v'] fields IH].
  - intros _. cbn [app JS.lookup]. now rewrite jsstring_eqb_refl.
  - cbn [JS.has_key app JS.lookup]. destruct (JS.jsstring_eqb k k'); [discriminate|].
    exact IH.
Qed.

(** A property that was just set is read back, when its name is not an
    array index. *)
Lemma lookup_set fields k v :
  JS.array_index k = None -> JS.lookup (JS.set fields k v) k = v.
Proof.
  intros Hk. unfold JS.set. destruct (JS.has_key fields k) eqn:Hh.
  - now apply lookup_replace.
  - rewrite Hk. now apply lookup_append.
Qed.


Lemma latin1_backup_bundle k fields exportedAt :
  quotes_latin1 (Obj fields) ->
  latin1 (JSON.stringify (backup_bundle (Base64.encode k) (Obj fields) exportedAt))
    = true.
Proof.
  intros Hm. apply latin1_stringify. unfold backup_bundle.
  cbn [quotes_latin1 fst snd JS.own_properties].
  repeat split; try reflexivity.
  - now apply lookup_quotes_latin1.
  - apply latin1_quote_body, latin1_encode.
  - apply Hm.
Qed.

(** [exportKeyForBackup] on a record whose metadata is an exact object with
    quoted strings up to U+00FF. *)
Lemma exportKeyForBackup_stored userId k fields w :
  k <> [] ->
  localStorage w !! (KEY_PREFIX ++ userId) = Some (Base64.encode k) ->
  localStorage w !! (METADATA_PREFIX ++ userId) = Some (JSON.stringify (Obj fields)) ->
  JSON.exact (Obj fields) -> quotes_latin1 (Obj fields) ->
  exportKeyForBackup userId w =
  (Ok (Base64.encode
         (JSON.stringify (backup_bundle (Base64.encode k) (Obj fields) (now_of w)))),
   after_tick w).
Proof.
  intros Hk Hks Hms Hex Hl.
  unfold exportKeyForBackup, try_catch, bindM, getItem, throw, lift, Date_now.
  cbv beta iota zeta. rewrite Hks, Hms.
  rewrite encode_nonempty by exact Hk. cbn [orb text_of].
  change (falsy (Some (JSON.stringify (Obj fields)))) with false.
  cbv iota. rewrite parse_stringify by exact Hex.
  cbv beta iota zeta. cbn [JS.get]. cbv beta iota zeta. fold (now_of w).
  change (Obj ((js "version", _) :: _))
    with (backup_bundle (Base64.encode k) (Obj fields) (now_of w)).
  unfold Base64.btoa.
  fold (latin1 (JSON.stringify (backup_bundle (Base64.encode k) (Obj fields) (now_of w)))).
  rewrite latin1_backup_bundle by exact Hl. reflexivity.
Qed.

(** The metadata [generateAndStoreKey] writes has quoted strings up to
    U+00FF when the user id has. *)
Lemma quotes_latin1_key_metadata t userId :
  latin1 (JSON.quote_body userId) = true -> quotes_latin1 (key_metadata t userId).
Proof.
  intros Hu. unfold key_metadata, key_metadata_fields. cbn [quotes_latin1 fst snd].
  repeat split; try reflexivity. exact Hu.
Qed.

(** [importKeyFromBackup] stores what its checks let through and otherwise
    throws with nothing changed. *)
Lemma importKeyFromBackup_spec userId backupData w :
  importKeyFromBackup userId backupData w =
  match read_backup backupData with
  | Ok (keyData, backup_metadata, k) =>
      (Ok {| key := k; metadata := rewritten_metadata backup_metadata userId |},
       after_import userId keyData (rewritten_metadata backup_metadata userId) w)
  | Throw _ =>
      (Throw (Error "Failed to import encryption key. The backup may be corrupted."), w)
  end.
Proof.
  unfold importKeyFromBackup, read_backup, try_catch, bindM, bind, lift, throw,
    setItem, ret.
  cbv beta iota zeta.
  destruct (Base64.atob backupData) as [backupStr|?]; [|reflexivity].
  destruct (JSON.parse backupStr) as [backup|?]; [|reflexivity].
  destruct (JS.get backup (js "keyData")) as [keyData|?]; [|reflexivity].
  destruct (JS.get backup (js "metadata")) as [backup_metadata|?]; [|reflexivity].
  destruct (negb (JS.truthy keyData) || negb (JS.truthy backup_metadata));
    [reflexivity|].
  destruct (importEncryptionKey (JS.to_string keyData)); reflexivity.
Qed.

(** [importKeyFromBackup] on a backup that passes every check. *)
Lemma importKeyFromBackup_valid userId backupData w backupStr backup keyData
    backup_metadata k :
  Base64.atob backupData = Ok backupStr ->
  JSON.parse backupStr = Ok backup ->
  JS.get backup (js "keyData") = Ok keyData ->
  JS.get backup (js "metadata") = Ok backup_metadata ->
  JS.truthy keyData = true -> JS.truthy backup_metadata = true ->
  importEncryptionKey (JS.to_string keyData) = Ok k ->
  importKeyFromBackup userId backupData w =
  (Ok {| key := k; metadata := rewritten_metadata backup_metadata userId |},
   after_import userId (JS.to_string keyData)
     (rewritten_metadata backup_metadata userId) w).
Proof.
  intros Ha Hp Hkd Hmd Htk Htm Hi. rewrite importKeyFromBackup_spec.
  unfold read_backup. rewrite Ha. cbn [bind]. rewrite Hp. cbn [bind].
  rewrite Hkd. cbn [bind]. rewrite Hmd. cbn [bind].
  rewrite Htk, Htm. cbn [negb orb]. now rewrite Hi.
Qed.



(** C7: when the backup string is not base64, or does not decode to JSON, or
    decodes to a bundle without [keyData] or without [metadata],
    [importKeyFromBackup] throws its error and the world, both storage slots
    of the user included, is as it was. *)
Theorem importKeyFromBackup_invalid userId backupData w :
  invalid_backup backupData ->
  importKeyFromBackup userId backupData w =
  (Throw (Error "Failed to import encryption key. The backup may be corrupted."), w).
Proof.
  unfold invalid_backup, missing. intros Hinv. rewrite importKeyFromBackup_spec.
  unfold read_backup.
  destruct (Base64.atob backupData) as [backupStr|?]; [|reflexivity]. cbn [bind].
  destruct (JSON.parse backupStr) as [backup|?]; [|reflexivity]. cbn [bind].
  destruct (JS.get backup (js "keyData")) as [keyData|?]; [|reflexivity]. cbn [bind].
  destruct (JS.get backup (js "metadata")) as [backup_metadata|?]; [|reflexivity].
  cbn [bind]. destruct Hinv as [Hm|Hm].
  - destruct keyData; try contradiction. reflexivity.
  - destruct backup_metadata; try contradiction. cbn [JS.truthy negb].
    now rewrite orb_true_r.
Qed.

Lemma importKeyFromBackup_invalid_witness :
  importKeyFromBackup sample_user (js "not-a-valid-bundle") world_with_key =
  (Throw (Error "Failed to import encryption key. The backup may be corrupted."),
   world_with_key).
Proof.
  apply (importKeyFromBackup_invalid sample_user (js "not-a-valid-bundle") world_with_key).
  vm_compute. exact I.
Defined.

(** C10 as the code has it: for every state of the storage and every backup
    string that decodes to a bundle whose [keyData] and [metadata] are both
    truthy and whose [keyData] imports as a key, [importKeyFromBackup]
    returns the record and sets the user's two slots to the backup's key
    data and to the metadata with [userId] rewritten, whatever they held;
    no other slot changes. *)
Theorem importKeyFromBackup_overwrites userId backupData w backupStr backup
    keyData backup_metadata k :
  Base64.atob backupData = Ok backupStr ->
  JSON.parse backupStr = Ok backup ->
  JS.get backup (js "keyData") = Ok keyData ->
  JS.get backup (js "metadata") = Ok backup_metadata ->
  JS.truthy keyData = true -> JS.truthy backup_metadata = true ->
  importEncryptionKey (JS.to_string keyData) = Ok k ->
  exists w',
    importKeyFromBackup userId backupData w =
      (Ok {| key := k; metadata := rewritten_metadata backup_metadata userId |}, w') /\
    localStorage w' !! (KEY_PREFIX ++ userId) = Some (JS.to_string keyData) /\
    localStorage w' !! (METADATA_PREFIX ++ userId)
      = Some (JSON.stringify (rewritten_metadata backup_metadata userId)) /\
    forall name,
      name <> KEY_PREFIX ++ userId -> name <> METADATA_PREFIX ++ userId ->
      localStorage w' !! name = localStorage w !! name.
Proof.
  intros Ha Hp Hkd Hmd Htk Htm Hi. eexists. split; [|split; [|split]].
  - now apply (importKeyFromBackup_valid userId backupData w backupStr backup
                 keyData backup_metadata k).
  - cbn [after_import localStorage].
    rewrite lookup_insert_ne by (intros H; symmetry in H; now apply slots_differ in H).
    now rewrite lookup_insert_eq.
  - cbn [after_import localStorage]. now rewrite lookup_insert_eq.
  - intros name Hn1 Hn2. cbn [after_import localStorage].
    rewrite lookup_insert_ne by congruence. now rewrite lookup_insert_ne by congruence.
Qed.

Lemma importKeyFromBackup_overwrites_witness :
  exists w',
    importKeyFromBackup sample_user sample_backup world_with_key =
      (Ok {| key := sample_key;
             metadata := key_metadata 1600000000000 sample_user |}, w') /\
    localStorage w' !! (KEY_PREFIX ++ sample_user)
      = Some (js "AAECAwQFBgcICQoLDA0ODxAREhMUFRYXGBkaGxwdHh8=") /\
    localStorage w' !! (METADATA_PREFIX ++ sample_user)
      = Some (JSON.stringify (key_metadata 1600000000000 sample_user)) /\
    forall name,
      name <> KEY_PREFIX ++ sample_user -> name <> METADATA_PREFIX ++ sample_user ->
      localStorage w' !! name = localStorage world_with_key !! name.
Proof.
  apply (importKeyFromBackup_overwrites sample_user sample_backup world_with_key
           sample_backup_text
           (backup_bundle (js "AAECAwQFBgcICQoLDA0ODxAREhMUFRYXGBkaGxwdHh8=")
              (key_metadata 1600000000000 (js "someone-else")) 1650000000000)
           (Str (js "AAECAwQFBgcICQoLDA0ODxAREhMUFRYXGBkaGxwdHh8="))
           (key_metadata 1600000000000 (js "someone-else"))
           sample_key);
    vm_compute; reflexivity.
Defined.

(** C10 as stated fails when the bundle has a [metadata] property whose
    value is falsy: the backup decodes, its key data imports, its
    [metadata] is there, and [importKeyFromBackup] throws. *)
Lemma import_rejects_null_metadata :
  exists backupStr fields,
    Base64.atob backup_null_metadata = Ok backupStr /\
    JSON.parse backupStr = Ok (Obj fields) /\
    JS.has_key fields (js "metadata") = true /\
    is_ok (importEncryptionKey (JS.to_string (JS.lookup fields (js "keyData")))) = true /\
    importKeyFromBackup sample_user backup_null_metadata world_with_key =
    (Throw (Error "Failed to import encryption key. The backup may be corrupted."),
     world_with_key).
Proof.
  eexists _, _. split; [vm_compute; reflexivity|].
  split; [vm_compute; reflexivity|].
  split; [vm_compute; reflexivity|].
  split; [vm_compute; reflexivity|].
  rewrite importKeyFromBackup_spec.
  replace (read_backup backup_null_metadata)
    with (@Throw (list N * value * CryptoKey) (Error "Invalid backup data"))
    by (vm_compute; reflexivity).
  reflexivity.
Qed.


(** C6 as stated fails for a record whose metadata slot is empty: the key
    slot holds a key that imports and [hasStoredKey] is true, and
    [getOrCreateKey] generates another key and writes it over the stored
    one. *)
Lemma getOrCreateKey_overwrites_key :
  fst (hasStoredKey sample_user world_empty_metadata) = Ok true /\
  localStorage world_empty_metadata !! (KEY_PREFIX ++ sample_user)
    = Some (Base64.encode (fresh_key sample_world)) /\
  importEncryptionKey (Base64.encode (fresh_key sample_world))
    = Ok {| raw := fresh_key sample_world |} /\
  exists stored w',
    getOrCreateKey sample_user world_empty_metadata = (Ok stored, w') /\
    raw (key stored) <> fresh_key sample_world /\
    localStorage w' !! (KEY_PREFIX ++ sample_user)
    = Some (Base64.encode (raw (key stored))).
Proof.
  split; [vm_compute; reflexivity|]. split; [vm_compute; reflexivity|].
  split; [vm_compute; reflexivity|].
  eexists _, _. split.
  - unfold getOrCreateKey, bindM. rewrite getStoredKey_spec. cbv zeta.
    replace (falsy (localStorage world_empty_metadata !! (METADATA_PREFIX ++ sample_user)))
      with true by (vm_compute; reflexivity).
    rewrite orb_true_r. cbv iota. apply generateAndStoreKey_spec.
  - cbn [key raw]. split; [vm_compute; discriminate|apply generated_key_slot].
Qed.

Lemma getStoredKey_null_or_throws_witness :
  getStoredKey sample_user sample_world = (Ok None, sample_world) /\
  getStoredKey sample_user world_corrupt_metadata =
  (Throw (Error "Failed to retrieve encryption key"), world_corrupt_metadata).
Proof.
  split.
  - apply (proj1 (getStoredKey_null_or_throws sample_user sample_world)).
    left. reflexivity.
  - apply (proj2 (getStoredKey_null_or_throws sample_user world_corrupt_metadata)
             (Base64.encode (fresh_key sample_world)) (js "{not json")).
    + vm_compute. reflexivity.
    + vm_compute. reflexivity.
    + vm_compute. discriminate.
    + discriminate.
    + left. vm_compute. reflexivity.
Defined.

(** C8 as stated fails when a slot is present and empty: the key slot holds
    a key that imports, the metadata slot holds the empty string, which
    does not parse, and [getStoredKey] returns [null]. *)
Lemma getStoredKey_empty_metadata :
  exists keyData,
    localStorage world_empty_metadata !! (KEY_PREFIX ++ sample_user) = Some keyData /\
    is_ok (importEncryptionKey keyData) = true /\
    localStorage world_empty_metadata !! (METADATA_PREFIX ++ sample_user) = Some [] /\
    is_ok (JSON.parse []) = false /\
    getStoredKey sample_user world_empty_metadata = (Ok None, world_empty_metadata).
Proof.
  assert (Hm : localStorage world_empty_metadata !! (METADATA_PREFIX ++ sample_user)
               = Some []) by (vm_compute; reflexivity).
  eexists. split; [vm_compute; reflexivity|].
  split; [vm_compute; reflexivity|]. split; [exact Hm|].
  split; [reflexivity|].
  rewrite getStoredKey_spec, Hm. cbv zeta. cbn [falsy]. now rewrite orb_true_r.
Qed.

Lemma getKeyMetadata_total_witness :
  exists metadata,
    getKeyMetadata sample_user world_corrupt_metadata
      = (Ok metadata, world_corrupt_metadata) /\
    metadata = Null.
Proof.
  destruct (getKeyMetadata_total sample_user world_corrupt_metadata)
    as (metadata & Hrun & _ & Hcorrupt & _).
  exists metadata. split; [exact Hrun|].
  apply (Hcorrupt (js "{not json")); vm_compute; reflexivity.
Defined.

End KeyStorageFacts.

(** * Further properties of [crypto.ts] *)

Section CryptoFacts.

Lemma length_encode b :
  List.length (Base64.encode b) = (4 * Nat.div (List.length b + 2) 3)%nat.
Proof.
  unfold Base64.encode. rewrite length_app, length_encode_groups.
  unfold Base64.padding.
  pose proof (Nat.mod_upper_bound (List.length b) 3 ltac:(lia)) as Hlt.
  pose proof (Nat.div_mod_eq (List.length b) 3) as Hdm.
  pose proof (Nat.div_mod_eq (List.length b + 2) 3) as Hdm2.
  pose proof (Nat.mod_upper_bound (List.length b + 2) 3 ltac:(lia)) as Hlt2.
  destruct (Nat.modulo (List.length b) 3) as [|[|[|]]] eqn:Hm; cbn [List.length]; lia.
Qed.

(** The two base64 utilities of [crypto.ts] are inverse on buffers:
    [arrayBufferToBase64] does not throw, gives four characters for every
    three bytes or part of three, and [base64ToArrayBuffer] returns the
    buffer from them. *)
Theorem arrayBuffer_base64_roundtrip buffer :
  is_bytes buffer = true ->
  exists base64,
    arrayBufferToBase64 buffer = Ok base64 /\
    base64ToArrayBuffer base64 = Ok buffer /\
    List.length base64 = (4 * Nat.div (List.length buffer + 2) 3)%nat.
Proof.
  intros Hb. exists (Base64.encode buffer). split; [|split].
  - now apply arrayBufferToBase64_bytes.
  - now apply base64ToArrayBuffer_encode.
  - apply length_encode.
Qed.

Lemma arrayBuffer_base64_roundtrip_witness :
  exists base64,
    arrayBufferToBase64 (hex "ffd8ffe000104a46") = Ok base64 /\
    base64ToArrayBuffer base64 = Ok (hex "ffd8ffe000104a46") /\
    List.length base64 = (4 * Nat.div (List.length (hex "ffd8ffe000104a46") + 2) 3)%nat.
Proof.
  apply (arrayBuffer_base64_roundtrip (hex "ffd8ffe000104a46")). reflexivity.
Defined.

Lemma generateEncryptionKey_spec w :
  generateEncryptionKey w =
  (Ok {| Crypto.key := {| raw := fresh_key w |};
         keyData := Base64.encode (fresh_key w) |},
   after_draw 32 w).
Proof.
  unfold generateEncryptionKey, subtle_generateKey, subtle_exportKey, try_catch,
    bindM, getRandomValues, ret, lift.
  cbv beta iota zeta. fold (fresh_key w). cbn [raw].
  rewrite arrayBufferToBase64_bytes by apply is_bytes_fresh_key.
  reflexivity.
Qed.

(** [generateEncryptionKey] never throws: it takes thirty-two bytes of the
    random source and nothing else, the key has 256 bits, its exportable
    form has forty-four characters, and [importEncryptionKey] of that form
    is the key. *)
Theorem generateEncryptionKey_imports w :
  exists generated,
    generateEncryptionKey w = (Ok generated, after_draw 32 w) /\
    List.length (raw (Crypto.key generated)) = 32%nat /\
    List.length (keyData generated) = 44%nat /\
    importEncryptionKey (keyData generated) = Ok (Crypto.key generated).
Proof.
  eexists. split; [apply generateEncryptionKey_spec|].
  cbn [Crypto.key keyData raw]. split; [apply length_fresh_key|]. split.
  - now rewrite length_encode, length_fresh_key.
  - apply importEncryptionKey_encode; [apply is_bytes_fresh_key|].
    right; right; apply length_fresh_key.
Qed.

(** [importEncryptionKey] accepts the base64 of a buffer exactly when the
    buffer has 16, 24 or 32 bytes, whatever [KEY_LENGTH] says, and then the
    key has those bytes; every failure, of [atob] too, is its own error. *)
Theorem importEncryptionKey_lengths rawKey :
  is_bytes rawKey = true ->
  importEncryptionKey (Base64.encode rawKey) =
    (if Nat.eqb (List.length rawKey) 16 || Nat.eqb (List.length rawKey) 24
        || Nat.eqb (List.length rawKey) 32
     then Ok {| raw := rawKey |}
     else Throw (Error "Failed to import encryption key")) /\
  (forall keyData e,
     importEncryptionKey keyData = Throw e ->
     e = Error "Failed to import encryption key") /\
  (forall keyData,
     is_ok (Base64.atob keyData) = false ->
     importEncryptionKey keyData = Throw (Error "Failed to import encryption key")).
Proof.
  intros Hb. split; [|split].
  - unfold importEncryptionKey. rewrite base64ToArrayBuffer_encode by exact Hb.
    cbn [bind]. unfold subtle_importKey. cbv zeta.
    destruct (Nat.eqb (List.length rawKey) 16 || Nat.eqb (List.length rawKey) 24
              || Nat.eqb (List.length rawKey) 32); reflexivity.
  - intros keyData e. unfold importEncryptionKey, try_catch_rethrow.
    destruct (let* rawKey := base64ToArrayBuffer keyData in _);
      [discriminate|congruence].
  - intros keyData Ha. unfold importEncryptionKey, base64ToArrayBuffer.
    destruct (Base64.atob keyData); [discriminate|reflexivity].
Qed.

Lemma importEncryptionKey_lengths_witness :
  importEncryptionKey (Base64.encode (hex "000102030405060708090a0b0c0d0e0f")) =
    (if Nat.eqb (List.length (hex "000102030405060708090a0b0c0d0e0f")) 16
        || Nat.eqb (List.length (hex "000102030405060708090a0b0c0d0e0f")) 24
        || Nat.eqb (List.length (hex "000102030405060708090a0b0c0d0e0f")) 32
     then Ok {| raw := hex "000102030405060708090a0b0c0d0e0f" |}
     else Throw (Error "Failed to import encryption key")) /\
  (forall keyData e,
     importEncryptionKey keyData = Throw e ->
     e = Error "Failed to import encryption key") /\
  (forall keyData,
     is_ok (Base64.atob keyData) = false ->
     importEncryptionKey keyData = Throw (Error "Failed to import encryption key")).
Proof.
  apply (importEncryptionKey_lengths (hex "000102030405060708090a0b0c0d0e0f")).
  reflexivity.
Defined.

End CryptoFacts.
Section TextFacts.
Import Utf8.

Lemma length_encode_scalar cp :
  (cp < 65536 -> (1 <= List.length (encode_scalar cp) <= 3)%nat) /\
  (65536 <= cp -> List.length (encode_scalar cp) = 4%nat).
Proof.
  unfold encode_scalar. cmp_cases; cbn [List.length]; split; intros; lia.
Qed.

(** UTF-8 takes at least one byte and at most three for each code unit. *)
Lemma length_TextEncoder s :
  is_jsstring s = true ->
  (List.length s <= List.length (TextEncoder_encode s) <= 3 * List.length s)%nat.
Proof.
  unfold TextEncoder_encode, encode_scalars.
  induction s as [|c|c d rest IH1 IH2] using jsstring_ind2; intros Hs.
  - cbn. lia.
  - apply is_jsstring_cons in Hs as [Hc _].
    cbn [to_scalars]. unfold is_high_surrogate, is_low_surrogate, replacement.
    cmp_cases; cbn [flat_map]; rewrite app_nil_r; cbn [List.length].
    all: match goal with
         | |- context [encode_scalar ?x] =>
             pose proof (proj1 (length_encode_scalar x)); lia
         end.
  - apply is_jsstring_cons in Hs as [Hc Hs].
    pose proof Hs as Hs'. apply is_jsstring_cons in Hs' as [Hd Hr].
    specialize (IH1 Hr). specialize (IH2 Hs).
    rewrite (to_scalars_cons c (d :: rest)).
    unfold is_high_surrogate, is_low_surrogate, replacement.
    cmp_cases; cbn [flat_map]; rewrite length_app; cbn [List.length] in *.
    all: match goal with
         | |- context [List.length (encode_scalar ?x)] =>
             pose proof (length_encode_scalar x) as [Hlo Hhi];
             try (specialize (Hlo ltac:(lia))); try (specialize (Hhi ltac:(lia))); lia
         end.
Qed.

(** What [encryptText] returns for a string, whatever the key: a payload
    labelled ["AES-GCM-256"], an iv of sixteen characters for twelve bytes,
    and a ciphertext that decodes to the UTF-8 bytes of the text and
    sixteen more, so between [n + 16] and [3 n + 16] bytes for [n] code
    units; of the world only the random source moves, by twelve bytes. *)
Theorem encryptText_overhead text k w :
  is_jsstring text = true ->
  exists payload nonce ct,
    encryptText text k w = (Ok payload, after_draw IV_LENGTH w) /\
    algorithm payload = js "AES-GCM-256" /\
    List.length (iv payload) = 16%nat /\
    base64ToArrayBuffer (iv payload) = Ok nonce /\
    List.length nonce = 12%nat /\
    base64ToArrayBuffer (ciphertext payload) = Ok ct /\
    List.length ct = (List.length (TextEncoder_encode text) + 16)%nat /\
    (List.length text + 16 <= List.length ct <= 3 * List.length text + 16)%nat.
Proof.
  intros Hs. eexists _, (nonce_of w), _.
  split; [apply encryptText_spec, Hs|]. cbn [algorithm iv ciphertext].
  assert (Hn : List.length (nonce_of w) = 12%nat).
  { unfold nonce_of. now rewrite length_map, length_seq. }
  split; [reflexivity|]. split; [now rewrite length_encode, Hn|].
  split; [apply base64ToArrayBuffer_encode, is_bytes_nonce|].
  split; [exact Hn|].
  split; [apply base64ToArrayBuffer_encode, is_bytes_encrypt, is_bytes_TextEncoder, Hs|].
  rewrite length_encrypt. split; [reflexivity|].
  pose proof (length_TextEncoder text Hs). lia.
Qed.

Lemma encryptText_overhead_witness :
  exists payload nonce ct,
    encryptText hello_globe sample_key sample_world
      = (Ok payload, after_draw IV_LENGTH sample_world) /\
    algorithm payload = js "AES-GCM-256" /\
    List.length (iv payload) = 16%nat /\
    base64ToArrayBuffer (iv payload) = Ok nonce /\
    List.length nonce = 12%nat /\
    base64ToArrayBuffer (ciphertext payload) = Ok ct /\
    List.length ct = (List.length (TextEncoder_encode hello_globe) + 16)%nat /\
    (List.length hello_globe + 16 <= List.length ct <= 3 * List.length hello_globe + 16)%nat.
Proof.
  apply (encryptText_overhead hello_globe sample_key sample_world). reflexivity.
Defined.

Lemma encryptText_iv_witness :
  exists payload payload',
    fst (encryptText hello_globe sample_key sample_world) = Ok payload /\
    fst (encryptText [] other_key (after_draw IV_LENGTH sample_world)) = Ok payload' /\
    iv payload = Base64.encode (nonce_of sample_world) /\
    (iv payload = iv payload'
     <-> nonce_of sample_world = nonce_of (after_draw IV_LENGTH sample_world)).
Proof.
  apply (encryptText_iv hello_globe [] sample_key other_key sample_world
           (after_draw IV_LENGTH sample_world)); reflexivity.
Defined.

End TextFacts.

Section FileFacts.

(** What [decryptFile] computes. *)
Lemma decryptFile_spec blob iv k originalType :
  decryptFile blob iv k originalType =
  match base64ToArrayBuffer iv with
  | Ok nonce =>
      if iv_supported nonce
         && GCM.verify AES.encrypt_block (raw k) nonce [] (blob_bytes blob)
      then Ok (new_Blob
                 (GCM.gctr AES.encrypt_block (raw k)
                    (GCM.inc32 (GCM.J0 AES.encrypt_block (raw k) nonce))
                    (firstn (List.length (blob_bytes blob) - 16) (blob_bytes blob)))
                 originalType)
      else Throw decrypt_file_error
  | Throw _ => Throw decrypt_file_error
  end.
Proof.
  unfold decryptFile, subtle_decrypt. cbv zeta.
  destruct (base64ToArrayBuffer iv) as [nonce|?]; [|reflexivity].
  cbn [bind]. destruct (iv_supported nonce); [|reflexivity].
  rewrite decrypt_verify. cbn [andb].
  destruct (GCM.verify _ _ _ _ _); reflexivity.
Qed.

(** [decryptFile] at its bounds: a blob of fewer than sixteen bytes, the
    empty one included, is rejected whatever the iv and the key; every
    failure is the function's own error; and a blob it returns is exactly
    sixteen bytes shorter than the encrypted one. *)
Theorem decryptFile_bounds blob iv k originalType :
  ((List.length (blob_bytes blob) < 16)%nat ->
   decryptFile blob iv k originalType = Throw decrypt_file_error) /\
  (forall e, decryptFile blob iv k originalType = Throw e -> e = decrypt_file_error) /\
  (forall out,
     decryptFile blob iv k originalType = Ok out ->
     (List.length (blob_bytes out) + 16 = List.length (blob_bytes blob))%nat).
Proof.
  rewrite decryptFile_spec. split; [|split].
  - intros Hlt. destruct (base64ToArrayBuffer iv) as [nonce|?]; [|reflexivity].
    unfold GCM.verify. apply Nat.ltb_lt in Hlt. rewrite Hlt.
    now rewrite andb_false_r.
  - intros e. destruct (base64ToArrayBuffer iv) as [nonce|?]; [|congruence].
    destruct (iv_supported nonce && GCM.verify _ _ _ _ _); [discriminate|congruence].
  - intros out. destruct (base64ToArrayBuffer iv) as [nonce|?]; [|discriminate].
    destruct (iv_supported nonce); [|discriminate]. cbn [andb].
    destruct (GCM.verify _ _ _ _ _) eqn:Hv; [|discriminate].
    intros [= <-]. cbn [new_Blob blob_bytes]. rewrite length_gctr, length_firstn.
    unfold GCM.verify in Hv. apply andb_true_iff in Hv as [Hlen _].
    apply negb_true_iff, Nat.ltb_ge in Hlen. lia.
Qed.

Lemma decryptFile_bounds_witness :
  decryptFile (new_Blob (hex "ffd8ffe000104a46") []) (js "AAAAAAAAAAAAAAAA")
    sample_key (js "image/jpeg") = Throw decrypt_file_error.
Proof.
  apply (proj1 (decryptFile_bounds (new_Blob (hex "ffd8ffe000104a46") [])
                  (js "AAAAAAAAAAAAAAAA") sample_key (js "image/jpeg"))).
  cbn. lia.
Defined.

(** [decryptFile] checks the iv and the tag: on a blob made of a body and
    sixteen further bytes, with an iv that is base64, it throws exactly
    when the iv has neither twelve nor sixteen bytes or those sixteen bytes
    are not the tag of the body under the key and the iv; and it throws on
    every iv that is not base64. *)
Theorem decryptFile_checks_tag body t iv nonce k originalType :
  List.length t = 16%nat ->
  base64ToArrayBuffer iv = Ok nonce ->
  (is_ok (decryptFile (new_Blob (body ++ t) (js "application/octet-stream")) iv k
            originalType) = false
   <-> iv_supported nonce = false
       \/ t <> GCM.tag AES.encrypt_block (raw k) nonce [] body) /\
  (forall blob iv',
     is_ok (base64ToArrayBuffer iv') = false ->
     decryptFile blob iv' k originalType = Throw decrypt_file_error).
Proof.
  intros Ht Hiv. split.
  - rewrite decryptFile_spec, Hiv. cbn [new_Blob blob_bytes].
    rewrite verify_sealed by exact Ht.
    destruct (iv_supported nonce); cbn [andb is_ok]; [|split; [now left|reflexivity]].
    destruct (GCM.bytes_eqb t _) eqn:He.
    + apply bytes_eqb_eq in He. cbn [is_ok].
      split; [discriminate|intros [H|H]; congruence].
    + cbn [is_ok]. split; [|reflexivity]. intros _. right. intros Heq.
      apply bytes_eqb_eq in Heq. congruence.
  - intros blob iv' H. rewrite decryptFile_spec.
    destruct (base64ToArrayBuffer iv'); [discriminate|reflexivity].
Qed.

Lemma decryptFile_checks_tag_witness :
  (is_ok (decryptFile
            (new_Blob (hex "cea7403d4d606b6e074ec5d3baf39d18"
                       ++ hex "d0d1c8a799996bf0265b98b5d48ab91a")
               (js "application/octet-stream"))
            (js "AAAAAAAAAAAAAAAA") {| raw := K0 |} (js "image/jpeg")) = false
   <-> iv_supported (hex "000000000000000000000000") = false
       \/ hex "d0d1c8a799996bf0265b98b5d48ab91a"
          <> GCM.tag AES.encrypt_block (raw {| raw := K0 |})
               (hex "000000000000000000000000") []
               (hex "cea7403d4d606b6e074ec5d3baf39d18")) /\
  (forall blob iv',
     is_ok (base64ToArrayBuffer iv') = false ->
     decryptFile blob iv' {| raw := K0 |} (js "image/jpeg") = Throw decrypt_file_error).
Proof.
  apply (decryptFile_checks_tag (hex "cea7403d4d606b6e074ec5d3baf39d18")
           (hex "d0d1c8a799996bf0265b98b5d48ab91a") (js "AAAAAAAAAAAAAAAA")
           (hex "000000000000000000000000") {| raw := K0 |} (js "image/jpeg"));
    reflexivity.
Defined.

(** One byte of an encrypted file changed, whichever and to whatever value:
    [decryptFile] with the iv and the key of the encryption throws, when
    the hash subkey of the key can be undone. *)
Theorem decryptFile_changed_byte file k w G index b originalType :
  undoes (hash_subkey_of k) G = true ->
  is_bytes (blob_bytes file) = true ->
  (index < List.length (blob_bytes file) + 16)%nat -> b < 256 ->
  exists enc,
    encryptFile file k w = (Ok enc, after_draw IV_LENGTH w) /\
    List.length (blob_bytes (encryptedBlob enc)) = (List.length (blob_bytes file) + 16)%nat /\
    (b <> nth index (blob_bytes (encryptedBlob enc)) 0 ->
     decryptFile
       (new_Blob (set_byte index b (blob_bytes (encryptedBlob enc)))
          (js "application/octet-stream"))
       (file_iv enc) k originalType = Throw decrypt_file_error).
Proof.
  intros Hu Hb Hlt Hb256.
  unfold encryptFile, try_catch, bindM, getRandomValues, lift, ret.
  fold (nonce_of w). fold (after_draw IV_LENGTH w).
  rewrite subtle_encrypt_nonce. cbv beta iota.
  rewrite arrayBufferToBase64_bytes by apply is_bytes_nonce.
  eexists. split; [reflexivity|].
  cbn [encryptedBlob file_iv new_Blob blob_bytes].
  split; [apply length_encrypt|]. intros Hne.
  rewrite decryptFile_spec, base64ToArrayBuffer_encode by apply is_bytes_nonce.
  cbn [new_Blob blob_bytes]. unfold GCM.encrypt in *.
  rewrite (verify_changed_byte k G); try assumption.
  - now rewrite andb_false_r.
  - pose proof (is_bytes_encrypt AES.encrypt_block (raw k) (nonce_of w) [] _ Hb) as He.
    unfold GCM.encrypt in He. rewrite is_bytes_app in He.
    now apply andb_true_iff in He as [He _].
  - now rewrite length_gctr.
Qed.

Lemma decryptFile_changed_byte_witness :
  exists enc,
    encryptFile (new_Blob (hex "ffd8ffe000104a46") (js "image/jpeg")) sample_key
      sample_world = (Ok enc, after_draw IV_LENGTH sample_world) /\
    List.length (blob_bytes (encryptedBlob enc))
      = (List.length (blob_bytes (new_Blob (hex "ffd8ffe000104a46") (js "image/jpeg"))) + 16)%nat /\
    (0 <> nth 3 (blob_bytes (encryptedBlob enc)) 0 ->
     decryptFile
       (new_Blob (set_byte 3 0 (blob_bytes (encryptedBlob enc)))
          (js "application/octet-stream"))
       (file_iv enc) sample_key (js "image/jpeg") = Throw decrypt_file_error).
Proof.
  apply (decryptFile_changed_byte (new_Blob (hex "ffd8ffe000104a46") (js "image/jpeg"))
           sample_key sample_world sample_subkey_inverse 3 0 (js "image/jpeg")).
  - vm_compute. reflexivity.
  - reflexivity.
  - vm_compute. lia.
  - reflexivity.
Defined.

(** The media type does not travel with an encrypted file: [encryptFile]
    never throws and labels its blob [application/octet-stream] whatever
    the file's type, and [decryptFile] of that blob is the file's bytes
    under the type it is given. *)
Theorem encryptFile_drops_type file k w originalType :
  exists enc out,
    encryptFile file k w = (Ok enc, after_draw IV_LENGTH w) /\
    blob_type (encryptedBlob enc) = js "application/octet-stream" /\
    file_algorithm enc = js "AES-GCM-256" /\
    decryptFile (encryptedBlob enc) (file_iv enc) k originalType = Ok out /\
    out = new_Blob (blob_bytes file) originalType.
Proof.
  unfold encryptFile, try_catch, bindM, getRandomValues, lift, ret.
  fold (nonce_of w). fold (after_draw IV_LENGTH w).
  rewrite subtle_encrypt_nonce. cbv beta iota.
  rewrite arrayBufferToBase64_bytes by apply is_bytes_nonce.
  eexists _, _. split; [reflexivity|].
  cbn [encryptedBlob file_iv file_algorithm].
  split; [reflexivity|]. split; [reflexivity|]. split; [|reflexivity].
  unfold decryptFile. cbn [new_Blob blob_bytes].
  rewrite base64ToArrayBuffer_encode by apply is_bytes_nonce.
  cbn [bind]. rewrite subtle_decrypt_sealed. reflexivity.
Qed.

End FileFacts.
(** * Further properties of [keyStorage.ts] *)

Section StorageFacts.
Import KeyStorage.

Lemma key_slot_injective userId other :
  KEY_PREFIX ++ userId = KEY_PREFIX ++ other -> userId = other.
Proof. apply app_inv_head. Qed.

Lemma metadata_slot_injective userId other :
  METADATA_PREFIX ++ userId = METADATA_PREFIX ++ other -> userId = other.
Proof. apply app_inv_head. Qed.

Lemma hasStoredKey_spec userId w :
  hasStoredKey userId w =
  (Ok (match localStorage w !! (KEY_PREFIX ++ userId) with
       | Some _ => true
       | None => false
       end), w).
Proof. reflexivity. Qed.

Lemma getKeyMetadata_spec userId w :
  getKeyMetadata userId w =
  (Ok (match localStorage w !! (METADATA_PREFIX ++ userId) with
       | Some (c :: r) => match JSON.parse (c :: r) with
                          | Ok metadata => metadata
                          | Throw _ => Null
                          end
       | _ => Null
       end), w).
Proof.
  unfold getKeyMetadata, bindM, getItem, ret. cbv beta iota zeta.
  destruct (localStorage w !! (METADATA_PREFIX ++ userId)) as [[|c r]|];
    cbn [falsy text_of]; try reflexivity.
  destruct (JSON.parse (c :: r)); reflexivity.
Qed.

Lemma deleteKey_spec userId w : deleteKey userId w = (Ok tt, after_delete userId w).
Proof. reflexivity. Qed.

(** What [generateAndStoreKey] stores, [getStoredKey] reads back: for every
    user id and whatever the storage held before, the call does not throw,
    the key has 256 bits, the metadata names the user, the time of the
    call, the algorithm and the version, and afterwards [getStoredKey]
    returns that same record, [hasStoredKey] is true and [getKeyMetadata]
    is that metadata. *)
Theorem generateAndStoreKey_reads_back userId w :
  exists stored w',
    generateAndStoreKey userId w = (Ok stored, w') /\
    raw (key stored) = fresh_key w /\
    List.length (raw (key stored)) = 32%nat /\
    metadata stored =
      Obj [(js "version", Str (js "1.0"));
           (js "createdAt", Num (Int (Z.of_N (now_of w))));
           (js "algorithm", Str (js "AES-256-GCM"));
           (js "userId", Str userId)] /\
    getStoredKey userId w' = (Ok (Some stored), w') /\
    hasStoredKey userId w' = (Ok true, w') /\
    getKeyMetadata userId w' = (Ok (metadata stored), w').
Proof.
  eexists _, _. split; [apply generateAndStoreKey_spec|].
  cbn [key metadata raw].
  split; [reflexivity|]. split; [apply length_fresh_key|]. split; [reflexivity|].
  split; [|split].
  - apply getStoredKey_generated.
    + apply is_bytes_fresh_key.
    + apply length_fresh_key.
    + apply now_of_bound.
    + apply generated_key_slot.
    + apply generated_metadata_slot.
  - rewrite hasStoredKey_spec. now rewrite generated_key_slot.
  - rewrite getKeyMetadata_spec, generated_metadata_slot.
    pose proof (parse_stringify (key_metadata (now_of w) userId)
                  (exact_key_metadata _ userId (now_of_bound w))) as Hp.
    destruct (JSON.stringify (key_metadata (now_of w) userId)) as [|c r] eqn:E;
      [discriminate E|].
    rewrite Hp.
    reflexivity.
Qed.

(** After [deleteKey] nothing of the user is left: the call does not throw
    and touches neither the random source nor the clock; then
    [hasStoredKey] is false, [getStoredKey] and [getKeyMetadata] return
    [null], [exportKeyForBackup] throws, and deleting again changes
    nothing. *)
Theorem deleteKey_clears userId w :
  exists w',
    deleteKey userId w = (Ok tt, w') /\
    (entropy w', drawn w', clock w', ticks w') = (entropy w, drawn w, clock w, ticks w) /\
    hasStoredKey userId w' = (Ok false, w') /\
    getStoredKey userId w' = (Ok None, w') /\
    getKeyMetadata userId w' = (Ok Null, w') /\
    exportKeyForBackup userId w' = (Throw (Error "Failed to export encryption key"), w') /\
    deleteKey userId w' = (Ok tt, w').
Proof.
  exists (after_delete userId w).
  assert (Hk : localStorage (after_delete userId w) !! (KEY_PREFIX ++ userId) = None).
  { cbn [after_delete localStorage].
    rewrite lookup_delete_ne by (intros H; symmetry in H; now apply slots_differ in H).
    apply lookup_delete_eq. }
  assert (Hm : localStorage (after_delete userId w) !! (METADATA_PREFIX ++ userId) = None).
  { cbn [after_delete localStorage]. apply lookup_delete_eq. }
  split; [reflexivity|]. split; [reflexivity|]. split; [|split; [|split; [|split]]].
  - now rewrite hasStoredKey_spec, Hk.
  - now rewrite getStoredKey_spec, Hk.
  - now rewrite getKeyMetadata_spec, Hm.
  - unfold exportKeyForBackup, try_catch, bindM, getItem, throw.
    cbv beta iota zeta. now rewrite Hk.
  - rewrite deleteKey_spec. f_equal.
    unfold after_delete at 1. cbn [entropy drawn clock ticks].
    rewrite (delete_id (localStorage (after_delete userId w)) (KEY_PREFIX ++ userId) Hk).
    rewrite (delete_id (localStorage (after_delete userId w)) (METADATA_PREFIX ++ userId) Hm).
    reflexivity.
Qed.

Lemma same_record_reads userId w w' :
  same_record userId w w' ->
  fst (getStoredKey userId w') = fst (getStoredKey userId w) /\
  fst (hasStoredKey userId w') = fst (hasStoredKey userId w) /\
  fst (getKeyMetadata userId w') = fst (getKeyMetadata userId w).
Proof.
  intros [Hk Hm].
  rewrite !getStoredKey_spec, !hasStoredKey_spec, !getKeyMetadata_spec.
  cbv zeta. rewrite Hk, Hm. split; [|split; reflexivity].
  destruct (falsy _ || falsy _); [reflexivity|].
  destruct (JSON.parse _); [|reflexivity].
  destruct (importEncryptionKey _); reflexivity.
Qed.

Lemma lookup_other_slots userId other (w : world) name (a b : jsstring) :
  userId <> other ->
  name = KEY_PREFIX ++ other \/ name = METADATA_PREFIX ++ other ->
  (<[METADATA_PREFIX ++ userId := a]> (<[KEY_PREFIX ++ userId := b]> (localStorage w)))
    !! name = localStorage w !! name.
Proof.
  intros Hne [-> | ->].
  - rewrite lookup_insert_ne by (intros H; symmetry in H; now apply slots_differ in H).
    apply lookup_insert_ne. intros H. now apply key_slot_injective in H.
  - rewrite lookup_insert_ne by (intros H; now apply metadata_slot_injective in H).
    apply lookup_insert_ne. apply slots_differ.
Qed.

Lemma same_record_generate userId other w :
  userId <> other -> same_record other w (after_generate userId w).
Proof.
  intros Hne. split; cbn [after_generate localStorage];
    apply (lookup_other_slots userId other); auto.
Qed.

(** The records of different users do not meet: generating, fetching or
    creating, deleting, exporting or importing the key of one user leaves
    both slots of every other user as they were, so that [getStoredKey],
    [hasStoredKey] and [getKeyMetadata] answer for the other user as
    before. *)
Theorem other_users_untouched userId other w :
  userId <> other ->
  same_record other w (snd (generateAndStoreKey userId w)) /\
  same_record other w (snd (getOrCreateKey userId w)) /\
  same_record other w (snd (deleteKey userId w)) /\
  same_record other w (snd (exportKeyForBackup userId w)) /\
  (forall backupData,
     same_record other w (snd (importKeyFromBackup userId backupData w))) /\
  (forall w',
     same_record other w w' ->
     fst (getStoredKey other w') = fst (getStoredKey other w) /\
     fst (hasStoredKey other w') = fst (hasStoredKey other w) /\
     fst (getKeyMetadata other w') = fst (getKeyMetadata other w)).
Proof.
  intros Hne.
  assert (Hrefl : same_record other w w) by (split; reflexivity).
  split; [|split; [|split; [|split; [|split]]]].
  - rewrite generateAndStoreKey_spec. now apply same_record_generate.
  - unfold getOrCreateKey, bindM. rewrite getStoredKey_spec. cbv zeta.
    destruct (falsy _ || falsy _).
    + rewrite generateAndStoreKey_spec. now apply same_record_generate.
    + destruct (JSON.parse _); [|exact Hrefl].
      destruct (importEncryptionKey _); exact Hrefl.
  - rewrite deleteKey_spec. cbn [snd]. split; cbn [after_delete localStorage].
    + rewrite lookup_delete_ne by (intros H; symmetry in H; now apply slots_differ in H).
      apply lookup_delete_ne. intros H. now apply key_slot_injective in H.
    + rewrite lookup_delete_ne by (intros H; now apply metadata_slot_injective in H).
      apply lookup_delete_ne. apply slots_differ.
  - unfold exportKeyForBackup, try_catch, bindM, getItem, throw, lift, Date_now.
    cbv beta iota zeta.
    destruct (falsy _ || falsy _); [exact Hrefl|].
    destruct (JSON.parse _); [|exact Hrefl].
    destruct (JS.get _ _); [|exact Hrefl].
    destruct (Base64.btoa _); split; reflexivity.
  - intros backupData. rewrite importKeyFromBackup_spec.
    destruct (read_backup backupData) as [[[keyData md] k]|?]; [|exact Hrefl].
    split; cbn [snd after_import localStorage]; apply (lookup_other_slots userId other); auto.
  - apply same_record_reads.
Qed.

Lemma other_users_untouched_witness :
  same_record other_user world_with_key
    (snd (deleteKey sample_user world_with_key)) /\
  fst (hasStoredKey other_user (snd (deleteKey sample_user world_with_key)))
    = fst (hasStoredKey other_user world_with_key).
Proof.
  destruct (other_users_untouched sample_user other_user world_with_key)
    as (_ & _ & Hd & _ & _ & Hr).
  - discriminate.
  - split; [exact Hd|]. apply (Hr _ Hd).
Defined.

(** A record that is there and cannot be read is never replaced: when both
    slots hold text and the metadata does not parse or the key data does
    not import, [getOrCreateKey] throws the error of [getStoredKey] and
    generates and stores nothing. *)
Theorem getOrCreateKey_keeps_corrupt_record userId keyData metadataStr w :
  localStorage w !! (KEY_PREFIX ++ userId) = Some keyData ->
  localStorage w !! (METADATA_PREFIX ++ userId) = Some metadataStr ->
  keyData <> [] -> metadataStr <> [] ->
  is_ok (JSON.parse metadataStr) = false \/
  is_ok (importEncryptionKey keyData) = false ->
  getOrCreateKey userId w = (Throw (Error "Failed to retrieve encryption key"), w).
Proof.
  intros Hk Hm Hkn Hmn H. unfold getOrCreateKey, bindM.
  rewrite getStoredKey_spec, Hk, Hm. cbv zeta.
  destruct keyData as [|c1 r1]; [congruence|].
  destruct metadataStr as [|c2 r2]; [congruence|]. cbn [falsy orb text_of].
  destruct (JSON.parse (c2 :: r2)); [|reflexivity].
  destruct (importEncryptionKey (c1 :: r1)); [|reflexivity].
  destruct H; discriminate.
Qed.

Lemma getOrCreateKey_keeps_corrupt_record_witness :
  getOrCreateKey sample_user world_corrupt_metadata
    = (Throw (Error "Failed to retrieve encryption key"), world_corrupt_metadata).
Proof.
  apply (getOrCreateKey_keeps_corrupt_record sample_user
           (Base64.encode (fresh_key sample_world)) (js "{not json")
           world_corrupt_metadata).
  - vm_compute. reflexivity.
  - vm_compute. reflexivity.
  - vm_compute. discriminate.
  - discriminate.
  - left. vm_compute. reflexivity.
Defined.

(** [getKeyMetadata] and [hasStoredKey] agree with [getStoredKey]: when
    [getStoredKey] returns a record, in a world it leaves as it is,
    [getKeyMetadata] returns the metadata of that record and [hasStoredKey]
    is true. *)
Theorem getKeyMetadata_of_stored userId stored w w' :
  getStoredKey userId w = (Ok (Some stored), w') ->
  w' = w /\
  getKeyMetadata userId w = (Ok (metadata stored), w) /\
  hasStoredKey userId w = (Ok true, w).
Proof.
  rewrite getStoredKey_spec, getKeyMetadata_spec, hasStoredKey_spec. cbv zeta.
  destruct (localStorage w !! (KEY_PREFIX ++ userId)) as [[|c1 r1]|];
    cbn [falsy orb]; try discriminate.
  destruct (localStorage w !! (METADATA_PREFIX ++ userId)) as [[|c2 r2]|];
    cbn [falsy orb text_of]; try discriminate.
  destruct (JSON.parse (c2 :: r2)); [|discriminate].
  destruct (importEncryptionKey (c1 :: r1)); [|discriminate].
  intros [= <- <-]. repeat split.
Qed.

Lemma getKeyMetadata_of_stored_witness :
  world_with_key = world_with_key /\
  getKeyMetadata sample_user world_with_key
    = (Ok (metadata {| key := {| raw := fresh_key sample_world |};
                       metadata := key_metadata (now_of sample_world) sample_user |}),
       world_with_key) /\
  hasStoredKey sample_user world_with_key = (Ok true, world_with_key).
Proof.
  apply (getKeyMetadata_of_stored sample_user
           {| key := {| raw := fresh_key sample_world |};
              metadata := key_metadata (now_of sample_world) sample_user |}
           world_with_key world_with_key).
  apply getStoredKey_generated; vm_compute; try reflexivity. discriminate.
Defined.

Lemma exportKeyForBackup_cases userId w :
  exportKeyForBackup userId w =
  let keyData := localStorage w !! (KEY_PREFIX ++ userId) in
  let metadataStr := localStorage w !! (METADATA_PREFIX ++ userId) in
  if falsy keyData || falsy metadataStr
  then (Throw (Error "Failed to export encryption key"), w)
  else match JSON.parse (text_of metadataStr) with
       | Ok metadata =>
           match JS.get metadata (js "version") with
           | Ok version =>
               match Base64.btoa
                       (JSON.stringify
                          (Obj [(js "version", version);
                                (js "keyData", Str (text_of keyData));
                                (js "metadata", metadata);
                                (js "exportedAt", Num (Int (Z.of_N (now_of w))))])) with
               | Ok backupData => (Ok backupData, after_tick w)
               | Throw _ => (Throw (Error "Failed to export encryption key"), after_tick w)
               end
           | Throw _ => (Throw (Error "Failed to export encryption key"), w)
           end
       | Throw _ => (Throw (Error "Failed to export encryption key"), w)
       end.
Proof.
  unfold exportKeyForBackup, try_catch, bindM, getItem, throw, lift, Date_now.
  cbv beta iota zeta. fold (now_of w). fold (after_tick w).
  destruct (falsy _ || falsy _); [reflexivity|].
  destruct (JSON.parse _) as [metadata|?]; [|reflexivity].
  destruct (JS.get metadata (js "version")) as [version|?]; [|reflexivity].
  destruct (Base64.btoa _); reflexivity.
Qed.

(** [exportKeyForBackup] only reads: it never writes to the storage and
    never draws from the random source.  Every failure is its own error, in
    particular when a slot of the user is missing or empty, in which case
    the clock is not read either. *)
Theorem exportKeyForBackup_reads_only userId w :
  (localStorage (snd (exportKeyForBackup userId w)) = localStorage w /\
   drawn (snd (exportKeyForBackup userId w)) = drawn w) /\
  (forall e,
     fst (exportKeyForBackup userId w) = Throw e ->
     e = Error "Failed to export encryption key") /\
  (falsy (localStorage w !! (KEY_PREFIX ++ userId)) = true \/
   falsy (localStorage w !! (METADATA_PREFIX ++ userId)) = true ->
   exportKeyForBackup userId w = (Throw (Error "Failed to export encryption key"), w)).
Proof.
  rewrite exportKeyForBackup_cases. cbv zeta. split; [|split].
  - destruct (falsy _ || falsy _); [split; reflexivity|].
    destruct (JSON.parse _); [|split; reflexivity].
    destruct (JS.get _ _); [|split; reflexivity].
    destruct (Base64.btoa _); split; reflexivity.
  - intros e. destruct (falsy _ || falsy _); [cbn [fst]; congruence|].
    destruct (JSON.parse _); [|cbn [fst]; congruence].
    destruct (JS.get _ _); [|cbn [fst]; congruence].
    destruct (Base64.btoa _); cbn [fst]; congruence.
  - intros [H|H]; rewrite H; rewrite ?orb_true_r; reflexivity.
Qed.

Lemma exportKeyForBackup_reads_only_witness :
  exportKeyForBackup other_user world_with_key
    = (Throw (Error "Failed to export encryption key"), world_with_key).
Proof.
  apply (proj2 (proj2 (exportKeyForBackup_reads_only other_user world_with_key))).
  left. vm_compute. reflexivity.
Defined.

End StorageFacts.
(** * Objects: defining a property on an object that is in order *)

Section ObjectFacts.
Import JS.

Lemma jsstring_eqb_eq a b : jsstring_eqb a b = true <-> a = b.
Proof. unfold jsstring_eqb. destruct (decide (a = b)); split; congruence. Qed.

Lemma has_key_In fields k : has_key fields k = true <-> In k (List.map fst fields).
Proof.
  induction fields as [|[k' v'] fields IH]; cbn [has_key List.map In fst].
  - split; [discriminate|tauto].
  - rewrite orb_true_iff, jsstring_eqb_eq, IH. split; intros [H|H]; auto.
Qed.

Lemma keys_replace fields k v :
  List.map fst (replace fields k v) = List.map fst fields.
Proof.
  induction fields as [|[k' v'] fields IH]; [reflexivity|]. cbn [replace].
  destruct (jsstring_eqb k k') eqn:E.
  - apply jsstring_eqb_eq in E. now subst.
  - cbn [List.map fst]. now rewrite IH.
Qed.

Lemma keys_insert_index fields i k v k' :
  In k' (List.map fst (insert_index fields i k v)) <-> k' = k \/ In k' (List.map fst fields).
Proof.
  induction fields as [|[k0 v0] fields IH]; cbn [insert_index List.map In fst].
  - split; intros [H|H]; auto.
  - destruct (array_index k0) as [j|]; [destruct (j <? i)|];
      cbn [List.map In fst]; rewrite ?IH; split; intuition auto.
Qed.

Lemma NoDup_insert_index fields i k v :
  ~ In k (List.map fst fields) -> List.NoDup (List.map fst fields) ->
  List.NoDup (List.map fst (insert_index fields i k v)).
Proof.
  induction fields as [|[k0 v0] fields IH]; intros Hn Hd;
    cbn [insert_index List.map fst] in *.
  - constructor; [intros []|constructor].
  - inversion Hd as [|? ? Hk0 Hd']; subst.
    destruct (array_index k0) as [j|]; [destruct (j <? i)|];
      cbn [List.map fst].
    + constructor.
      * rewrite keys_insert_index. cbn [In] in Hn. intros [->|H]; tauto.
      * apply IH; [cbn [In] in Hn; tauto|assumption].
    + constructor; assumption.
    + constructor; assumption.
Qed.

Lemma NoDup_set fields k v :
  List.NoDup (List.map fst fields) -> List.NoDup (List.map fst (set fields k v)).
Proof.
  intros Hd. unfold set. destruct (has_key fields k) eqn:Hh.
  - now rewrite keys_replace.
  - assert (Hn : ~ In k (List.map fst fields)).
    { rewrite <- has_key_In. congruence. }
    destruct (array_index k) as [i|].
    + now apply NoDup_insert_index.
    + rewrite map_app. cbn [List.map fst]. apply List.NoDup_app; [assumption| |].
      * constructor; [intros []|constructor].
      * intros x Hx [<-|[]]. tauto.
Qed.

Lemma NoDup_spread_from l acc :
  List.NoDup (List.map fst acc) ->
  List.NoDup (List.map fst (fold_left (fun acc p => set acc (fst p) (snd p)) l acc)).
Proof.
  revert acc. induction l as [|p l IH]; intros acc Hd; [exact Hd|].
  cbn [fold_left]. apply IH. now apply NoDup_set.
Qed.

Lemma has_key_revalue k v fields k' :
  has_key (List.map (revalue k v) fields) k' = has_key fields k'.
Proof.
  induction fields as [|[k0 v0] fields IH]; [reflexivity|].
  cbn [List.map has_key revalue fst]. now rewrite IH.
Qed.

Lemma replace_revalue k v fields k' v' :
  List.map (revalue k v) (replace fields k' v')
  = replace (List.map (revalue k v) fields) k' (snd (revalue k v (k', v'))).
Proof.
  induction fields as [|[k0 v0] fields IH]; [reflexivity|].
  cbn [List.map replace revalue fst snd].
  destruct (jsstring_eqb k' k0) eqn:E.
  - reflexivity.
  - cbn [List.map revalue fst snd]. f_equal. exact IH.
Qed.

Lemma insert_index_revalue k v fields i k' v' :
  List.map (revalue k v) (insert_index fields i k' v')
  = insert_index (List.map (revalue k v) fields) i k' (snd (revalue k v (k', v'))).
Proof.
  induction fields as [|[k0 v0] fields IH]; [reflexivity|].
  cbn [List.map insert_index revalue fst snd].
  destruct (array_index k0) as [j|]; [destruct (j <? i)|]; try reflexivity.
  cbn [List.map revalue fst snd]. f_equal. exact IH.
Qed.

Lemma set_revalue k v fields k' v' :
  List.map (revalue k v) (set fields k' v')
  = set (List.map (revalue k v) fields) k' (snd (revalue k v (k', v'))).
Proof.
  unfold set. rewrite has_key_revalue. destruct (has_key fields k').
  - apply replace_revalue.
  - destruct (array_index k') as [i|].
    + apply insert_index_revalue.
    + now rewrite map_app.
Qed.

Lemma spread_revalue k v l acc :
  fold_left (fun acc p => set acc (fst p) (snd p)) (List.map (revalue k v) l)
    (List.map (revalue k v) acc)
  = List.map (revalue k v) (fold_left (fun acc p => set acc (fst p) (snd p)) l acc).
Proof.
  revert acc. induction l as [|[k0 v0] l IH]; intros acc; [reflexivity|].
  cbn [List.map fold_left]. rewrite <- IH. f_equal.
  now rewrite set_revalue.
Qed.

Lemma revalue_absent k v fields :
  ~ In k (List.map fst fields) -> List.map (revalue k v) fields = fields.
Proof.
  induction fields as [|[k0 v0] fields IH]; intros Hn; [reflexivity|].
  cbn [List.map fst In] in *. rewrite IH by tauto. unfold revalue. cbn [fst snd].
  destruct (jsstring_eqb k k0) eqn:E; [|reflexivity].
  apply jsstring_eqb_eq in E. exfalso. apply Hn. left. congruence.
Qed.

Lemma replace_as_revalue k v fields :
  List.NoDup (List.map fst fields) -> has_key fields k = true ->
  replace fields k v = List.map (revalue k v) fields.
Proof.
  induction fields as [|[k0 v0] fields IH]; intros Hd Hh; [discriminate|].
  cbn [List.map fst has_key replace] in *. inversion Hd as [|? ? Hk0 Hd']; subst.
  unfold revalue at 1. cbn [fst snd].
  destruct (jsstring_eqb k k0) eqn:E.
  - apply jsstring_eqb_eq in E. subst k0. now rewrite revalue_absent.
  - cbn [orb] in Hh. f_equal. now apply IH.
Qed.

(** An object in the order of enumeration stays so when a property whose
    name is not an array index is defined on it. *)
Lemma spread_set fields k v :
  spread (Obj fields) = fields -> array_index k = None ->
  spread (Obj (set fields k v)) = set fields k v.
Proof.
  unfold spread. cbn [own_properties]. intros Hf Hk.
  assert (Hd : List.NoDup (List.map fst fields)).
  { rewrite <- Hf. apply NoDup_spread_from. constructor. }
  destruct (has_key fields k) eqn:Hh.
  - assert (Hs : set fields k v = List.map (revalue k v) fields).
    { unfold set. rewrite Hh. now apply replace_as_revalue. }
    rewrite Hs. pose proof (spread_revalue k v fields []) as H.
    cbn [List.map] in H. now rewrite H, Hf.
  - assert (Hs : set fields k v = fields ++ [(k, v)]).
    { unfold set. now rewrite Hh, Hk. }
    rewrite Hs, fold_left_app, Hf. cbn [fold_left fst snd]. exact Hs.
Qed.

Lemma Forall_set (P : value -> Prop) fields k v :
  array_index k = None ->
  List.Forall (fun p => P (snd p)) fields -> P v ->
  List.Forall (fun p => P (snd p)) (set fields k v).
Proof.
  intros Hk Hf Hv. unfold set. rewrite Hk. destruct (has_key fields k).
  - induction Hf as [|[k0 v0] fields Hp Hf' IH]; [constructor|].
    cbn [replace]. destruct (jsstring_eqb k k0); constructor; auto.
  - apply List.Forall_app. split; [assumption|]. now constructor.
Qed.

End ObjectFacts.
(** * Backups: what is exported and what an import leaves *)

Section BackupFacts.
Import KeyStorage.

Lemma bundle_reads_back keyData fields exportedAt :
  JSON.exact (Obj fields) -> exportedAt <= 8640000000000000 ->
  exists backup,
    JSON.parse (JSON.stringify (backup_bundle keyData (Obj fields) exportedAt))
      = Ok backup /\
    JS.get backup (js "version") = Ok (JS.lookup fields (js "version")) /\
    JS.get backup (js "keyData") = Ok (Str keyData) /\
    JS.get backup (js "metadata") = Ok (Obj fields) /\
    JS.get backup (js "exportedAt") = Ok (Num (Int (Z.of_N exportedAt))).
Proof.
  intros Hm Ht. pose proof (safe_integer_time exportedAt Ht) as Hs.
  pose proof Hm as Hm'. apply exact_Obj in Hm' as [Hf _].
  unfold backup_bundle. cbn [JS.own_properties].
  destruct (lookup_exact fields (js "version") Hf) as [Hv|Hv].
  - rewrite Hv.
    exists (Obj [(js "keyData", Str keyData); (js "metadata", Obj fields);
                 (js "exportedAt", Num (Int (Z.of_N exportedAt)))]).
    split; [|repeat split; reflexivity].
    change (JSON.stringify (Obj ((js "version", Undefined) :: ?l)))
      with (JSON.stringify (Obj l)).
    apply parse_stringify. cbn [JSON.exact snd].
    repeat split; try assumption; try reflexivity; apply Hm.
  - eexists. split.
    + apply parse_stringify. cbn [JSON.exact snd].
      repeat split; try assumption; try reflexivity; apply Hm.
    + repeat split; reflexivity.
Qed.

(** What a backup holds.  For a stored record whose metadata is the text of
    an exact object with no code unit above U+00FF in its JSON form,
    [exportKeyForBackup] returns base64 that [atob] decodes to JSON text;
    the bundle parsed from it has the stored key data, as it is stored and
    not encrypted, the stored metadata, the metadata's version and the time
    of the export.  The call reads the clock once and changes nothing
    else. *)
Theorem exportKeyForBackup_contents userId k fields w :
  k <> [] ->
  localStorage w !! (KEY_PREFIX ++ userId) = Some (Base64.encode k) ->
  localStorage w !! (METADATA_PREFIX ++ userId) = Some (JSON.stringify (Obj fields)) ->
  JSON.exact (Obj fields) -> quotes_latin1 (Obj fields) ->
  exists backupData backupStr backup,
    exportKeyForBackup userId w = (Ok backupData, after_tick w) /\
    Base64.atob backupData = Ok backupStr /\
    JSON.parse backupStr = Ok backup /\
    JS.get backup (js "version") = Ok (JS.lookup fields (js "version")) /\
    JS.get backup (js "keyData") = Ok (Str (Base64.encode k)) /\
    JS.get backup (js "metadata") = Ok (Obj fields) /\
    JS.get backup (js "exportedAt") = Ok (Num (Int (Z.of_N (now_of w)))).
Proof.
  intros Hk Hks Hms Hex Hlat.
  destruct (bundle_reads_back (Base64.encode k) fields (now_of w) Hex (now_of_bound w))
    as (backup & Hparse & Hgets).
  eexists _, _, backup. split; [now apply (exportKeyForBackup_stored userId k fields w)|].
  split; [apply atob_encode, latin1_is_bytes, latin1_backup_bundle, Hlat|].
  split; [exact Hparse|exact Hgets].
Qed.

Lemma exportKeyForBackup_contents_witness :
  exists backupData backupStr backup,
    exportKeyForBackup sample_user world_with_key
      = (Ok backupData, after_tick world_with_key) /\
    Base64.atob backupData = Ok backupStr /\
    JSON.parse backupStr = Ok backup /\
    JS.get backup (js "version")
      = Ok (JS.lookup (key_metadata_fields (now_of sample_world) sample_user)
              (js "version")) /\
    JS.get backup (js "keyData") = Ok (Str (Base64.encode (fresh_key sample_world))) /\
    JS.get backup (js "metadata")
      = Ok (Obj (key_metadata_fields (now_of sample_world) sample_user)) /\
    JS.get backup (js "exportedAt") = Ok (Num (Int (Z.of_N (now_of world_with_key)))).
Proof.
  apply (exportKeyForBackup_contents sample_user (fresh_key sample_world)
           (key_metadata_fields (now_of sample_world) sample_user) world_with_key).
  - discriminate.
  - vm_compute. reflexivity.
  - vm_compute. reflexivity.
  - apply (exact_key_metadata (now_of sample_world) sample_user). vm_compute. discriminate.
  - apply (quotes_latin1_key_metadata (now_of sample_world) sample_user). reflexivity.
Defined.

Lemma read_backup_key backupData keyData backup_metadata k :
  read_backup backupData = Ok (keyData, backup_metadata, k) ->
  importEncryptionKey keyData = Ok k /\ keyData <> [] /\ JS.truthy backup_metadata = true.
Proof.
  unfold read_backup.
  destruct (Base64.atob backupData) as [backupStr|?]; cbn [bind]; [|discriminate].
  destruct (JSON.parse backupStr) as [backup|?]; cbn [bind]; [|discriminate].
  destruct (JS.get backup (js "keyData")) as [kd|?]; cbn [bind]; [|discriminate].
  destruct (JS.get backup (js "metadata")) as [md|?]; cbn [bind]; [|discriminate].
  destruct (JS.truthy md) eqn:Hmd; [|rewrite orb_true_r; discriminate].
  destruct (JS.truthy kd); cbn [negb orb]; [|discriminate].
  destruct (importEncryptionKey (JS.to_string kd)) as [k'|?] eqn:Hi; cbn [bind];
    [|discriminate].
  intros [= <- <- <-]. split; [exact Hi|]. split; [|exact Hmd].
  intros He. rewrite He in Hi. discriminate Hi.
Qed.

Lemma exact_rewritten_metadata fields userId :
  JSON.exact (Obj fields) -> JSON.exact (rewritten_metadata (Obj fields) userId).
Proof.
  intros H. apply exact_Obj in H as [Hf Hs]. unfold rewritten_metadata.
  rewrite Hs. apply exact_Obj. split.
  - apply Forall_set; [reflexivity|exact Hf|exact I].
  - apply spread_set; [exact Hs|reflexivity].
Qed.

(** What [importKeyFromBackup] stores, [getStoredKey] reads back.  When the
    backup passes the checks and its metadata is an exact object, the
    import returns the key of the backup and metadata naming the importing
    user, and afterwards [getStoredKey] returns that same record,
    [hasStoredKey] is true and [getKeyMetadata] is that metadata. *)
Theorem importKeyFromBackup_reads_back userId backupData keyData fields k w :
  read_backup backupData = Ok (keyData, Obj fields, k) ->
  JSON.exact (Obj fields) ->
  exists restored w',
    importKeyFromBackup userId backupData w = (Ok restored, w') /\
    key restored = k /\
    JS.get (metadata restored) (js "userId") = Ok (Str userId) /\
    getStoredKey userId w' = (Ok (Some restored), w') /\
    hasStoredKey userId w' = (Ok true, w') /\
    getKeyMetadata userId w' = (Ok (metadata restored), w').
Proof.
  intros Hr Hex. destruct (read_backup_key _ _ _ _ Hr) as (Hi & Hne & _).
  pose proof (exact_rewritten_metadata fields userId Hex) as Hex'.
  pose proof (parse_stringify _ Hex') as Hp.
  set (md := rewritten_metadata (Obj fields) userId) in *.
  exists {| key := k; metadata := md |}, (after_import userId keyData md w).
  assert (Hks : localStorage (after_import userId keyData md w) !! (KEY_PREFIX ++ userId)
                = Some keyData).
  { cbn [after_import localStorage].
    rewrite lookup_insert_ne by (intros H; symmetry in H; now apply slots_differ in H).
    now rewrite lookup_insert_eq. }
  assert (Hms : localStorage (after_import userId keyData md w)
                  !! (METADATA_PREFIX ++ userId) = Some (JSON.stringify md)).
  { cbn [after_import localStorage]. now rewrite lookup_insert_eq. }
  assert (Hmne : exists c r, JSON.stringify md = c :: r).
  { subst md. unfold rewritten_metadata. eexists _, _. reflexivity. }
  destruct Hmne as (c & r & Hmd).
  split; [|split; [|split; [|split; [|split]]]].
  - rewrite importKeyFromBackup_spec, Hr. reflexivity.
  - reflexivity.
  - cbn [metadata]. subst md. unfold rewritten_metadata. cbn [JS.get]. f_equal.
    now apply lookup_set.
  - rewrite getStoredKey_spec, Hks, Hms. cbv zeta. rewrite Hmd in *.
    destruct keyData as [|c0 r0]; [congruence|]. cbn [falsy orb text_of].
    now rewrite Hp, Hi.
  - now rewrite hasStoredKey_spec, Hks.
  - rewrite getKeyMetadata_spec, Hms. rewrite Hmd in *. now rewrite Hp.
Qed.

Lemma importKeyFromBackup_reads_back_witness :
  exists restored w',
    importKeyFromBackup sample_user sample_backup sample_world = (Ok restored, w') /\
    key restored = sample_key /\
    JS.get (metadata restored) (js "userId") = Ok (Str sample_user) /\
    getStoredKey sample_user w' = (Ok (Some restored), w') /\
    hasStoredKey sample_user w' = (Ok true, w') /\
    getKeyMetadata sample_user w' = (Ok (metadata restored), w').
Proof.
  apply (importKeyFromBackup_reads_back sample_user sample_backup
           (js "AAECAwQFBgcICQoLDA0ODxAREhMUFRYXGBkaGxwdHh8=")
           (key_metadata_fields 1600000000000 (js "someone-else")) sample_key
           sample_world).
  - vm_compute. reflexivity.
  - apply (exact_key_metadata 1600000000000 (js "someone-else")). vm_compute. discriminate.
Defined.

End BackupFacts.

(** * The text round trip on every well-formed string *)

Section MarkFacts.
Import Utf8.

Lemma well_formed_mark rest :
  well_formed (byte_order_mark :: rest) = well_formed rest.
Proof. now rewrite well_formed_cons. Qed.

(** A well-formed string comes back from [encryptText] and [decryptText]
    as it was, less one U+FEFF at its start when it has one: only the
    first is dropped, and nothing else changes. *)
Theorem roundtripText_drops_one_mark text k w :
  is_jsstring text = true -> well_formed text = true ->
  roundtripText text k w = Ok (if starts_with_bom text then List.tl text else text).
Proof.
  intros Hs Hw. unfold roundtripText.
  destruct (roundtrip_text_codec text k w Hs) as (payload & w' & -> & ->).
  f_equal. destruct (starts_with_bom text) eqn:Hb.
  - destruct text as [|c rest]; [discriminate|]. cbn [starts_with_bom] in Hb.
    apply N.eqb_eq in Hb. subst c. cbn [List.tl].
    apply is_jsstring_cons in Hs as [_ Hs]. rewrite well_formed_mark in Hw.
    change (to_scalars (byte_order_mark :: rest))
      with (byte_order_mark :: to_scalars rest).
    change (strip_bom (byte_order_mark :: to_scalars rest)) with (to_scalars rest).
    now apply from_to_scalars.
  - rewrite strip_bom_to_scalars by exact Hb. now apply from_to_scalars.
Qed.

Lemma roundtripText_drops_one_mark_witness :
  roundtripText (0xFEFF :: bom_hi) sample_key sample_world
    = Ok (if starts_with_bom (0xFEFF :: bom_hi) then List.tl (0xFEFF :: bom_hi)
          else 0xFEFF :: bom_hi).
Proof.
  apply (roundtripText_drops_one_mark (0xFEFF :: bom_hi) sample_key sample_world);
    reflexivity.
Defined.

End MarkFacts.

(** * [useEncryption.ts] *)

Section HookFacts.
Import KeyStorage UseEncryption.

(** Signed out, the hook has no key and every function refuses.  When
    there is no user, or the user's id is empty, [initializeKey] touches
    neither the storage nor the random source, drops the key it held and
    ends loading; the hook is not ready, and [encrypt], [decrypt],
    [encryptPhoto] and [decryptPhoto] throw without drawing a nonce. *)
Theorem useEncryption_signed_out user_id st w :
  falsy user_id = true ->
  exists st',
    initializeKey user_id st w = (st', w) /\
    storedKey st' = None /\ isLoading st' = false /\ error st' = error st /\
    isReady st' = false /\ keyMetadata st' = Undefined /\
    (forall text w0, encrypt st' text w0 = (Throw no_key, w0)) /\
    (forall encryptedData, decrypt st' encryptedData = Throw no_key) /\
    (forall file w0, encryptPhoto st' file w0 = (Throw no_key, w0)) /\
    (forall encryptedBlob iv originalType,
       decryptPhoto st' encryptedBlob iv originalType = Throw no_key).
Proof.
  intros Hf. exists (setIsLoading false (setStoredKey None st)). split.
  - destruct user_id as [[|c r]|]; [reflexivity|discriminate Hf|reflexivity].
  - repeat split.
Qed.

Lemma useEncryption_signed_out_witness :
  exists st',
    initializeKey (Some []) hook_with_other_key world_with_key = (st', world_with_key) /\
    storedKey st' = None /\ isLoading st' = false /\
    error st' = error hook_with_other_key /\
    isReady st' = false /\ keyMetadata st' = Undefined /\
    (forall text w0, encrypt st' text w0 = (Throw no_key, w0)) /\
    (forall encryptedData, decrypt st' encryptedData = Throw no_key) /\
    (forall file w0, encryptPhoto st' file w0 = (Throw no_key, w0)) /\
    (forall encryptedBlob iv originalType,
       decryptPhoto st' encryptedBlob iv originalType = Throw no_key).
Proof.
  apply (useEncryption_signed_out (Some []) hook_with_other_key world_with_key).
  reflexivity.
Defined.

(** Signed in, the hook is ready with the user's key.  When
    [getOrCreateKey] returns a record for the user's id, [initializeKey]
    from any state ends with that record, no error and loading over; the
    hook is ready, [keyMetadata] is the record's metadata, and what
    [encrypt] makes of a well-formed string that does not begin with
    U+FEFF, [decrypt] returns. *)
Theorem useEncryption_ready id stored st w w' text :
  id <> [] ->
  getOrCreateKey id w = (Ok stored, w') ->
  is_jsstring text = true ->
  Utf8.well_formed text = true -> Utf8.starts_with_bom text = false ->
  exists st',
    initializeKey (Some id) st w = (st', w') /\
    storedKey st' = Some stored /\ isLoading st' = false /\ error st' = None /\
    isReady st' = true /\ keyMetadata st' = metadata stored /\
    exists payload w'',
      encrypt st' text w' = (Ok payload, w'') /\ decrypt st' payload = Ok text.
Proof.
  intros Hid Hget Hs Hw Hb.
  exists (setIsLoading false
            (setStoredKey (Some stored) (setError None (setIsLoading true st)))).
  split.
  - destruct id as [|c r]; [congruence|]. unfold initializeKey. now rewrite Hget.
  - repeat (split; [reflexivity|]).
    unfold encrypt, decrypt. cbn [storedKey setIsLoading setStoredKey].
    destruct (roundtrip_text_codec text (key stored) w' Hs) as (payload & w'' & He & Hd).
    exists payload, w''. split; [exact He|].
    rewrite Hd, strip_bom_to_scalars by exact Hb. now rewrite from_to_scalars.
Qed.

Lemma useEncryption_ready_witness :
  exists st',
    initializeKey (Some sample_user) initial_state sample_world
      = (st', world_with_key) /\
    storedKey st'
      = Some {| key := {| raw := fresh_key sample_world |};
                metadata := key_metadata (now_of sample_world) sample_user |} /\
    isLoading st' = false /\ error st' = None /\
    isReady st' = true /\
    keyMetadata st'
      = metadata {| key := {| raw := fresh_key sample_world |};
                    metadata := key_metadata (now_of sample_world) sample_user |} /\
    exists payload w'',
      encrypt st' hello_globe world_with_key = (Ok payload, w'') /\
      decrypt st' payload = Ok hello_globe.
Proof.
  apply (useEncryption_ready sample_user
           {| key := {| raw := fresh_key sample_world |};
              metadata := key_metadata (now_of sample_world) sample_user |}
           initial_state sample_world world_with_key hello_globe).
  - discriminate.
  - unfold getOrCreateKey, bindM. rewrite getStoredKey_spec.
    replace (localStorage sample_world !! (KEY_PREFIX ++ sample_user))
      with (@None jsstring) by (vm_compute; reflexivity).
    cbv zeta. cbn [falsy orb]. apply generateAndStoreKey_spec.
  - reflexivity.
  - reflexivity.
  - reflexivity.
Defined.

(** A failure leaves the key the hook held.  When [getOrCreateKey] throws
    for the user's id, [initializeKey] records its error and ends loading
    but does not clear the stored key: a hook that held a key, of whatever
    user, is still ready with that key, error set. *)
Theorem useEncryption_failure_keeps_key id e st w w' :
  id <> [] ->
  getOrCreateKey id w = (Throw e, w') ->
  exists st',
    initializeKey (Some id) st w = (st', w') /\
    error st' = Some (js "Failed to initialize encryption") /\
    isLoading st' = false /\
    storedKey st' = storedKey st /\
    isReady st' = match storedKey st with Some _ => true | None => false end /\
    keyMetadata st' = keyMetadata st /\
    (forall text w0, encrypt st' text w0 = encrypt st text w0).
Proof.
  intros Hid Hget.
  exists (setIsLoading false
            (setError (Some (js "Failed to initialize encryption"))
               (setError None (setIsLoading true st)))).
  split.
  - destruct id as [|c r]; [congruence|]. unfold initializeKey. now rewrite Hget.
  - repeat (split; [reflexivity|]). split; [|split; reflexivity].
    unfold isReady. cbn [storedKey isLoading setIsLoading setError].
    now destruct (storedKey st).
Qed.

Lemma useEncryption_failure_keeps_key_witness :
  exists st',
    initializeKey (Some sample_user) hook_with_other_key world_corrupt_metadata
      = (st', world_corrupt_metadata) /\
    error st' = Some (js "Failed to initialize encryption") /\
    isLoading st' = false /\
    storedKey st' = storedKey hook_with_other_key /\
    isReady st'
      = match storedKey hook_with_other_key with Some _ => true | None => false end /\
    keyMetadata st' = keyMetadata hook_with_other_key /\
    (forall text w0, encrypt st' text w0 = encrypt hook_with_other_key text w0).
Proof.
  apply (useEncryption_failure_keeps_key sample_user
           (Error "Failed to retrieve encryption key") hook_with_other_key
           world_corrupt_metadata world_corrupt_metadata).
  - discriminate.
  - unfold getOrCreateKey, bindM. rewrite getStoredKey_spec.
    replace (localStorage world_corrupt_metadata !! (KEY_PREFIX ++ sample_user))
      with (Some (Base64.encode (fresh_key sample_world))) by (vm_compute; reflexivity).
    replace (localStorage world_corrupt_metadata !! (METADATA_PREFIX ++ sample_user))
      with (Some (js "{not json")) by (vm_compute; reflexivity).
    reflexivity.
Defined.

(** The hook's photo functions: what [encryptPhoto] makes of a file,
    [decryptPhoto] returns with the file's bytes; with no type given the
    result is an [image/jpeg] whatever the file was. *)
Theorem useEncryption_photo stored st file w :
  storedKey st = Some stored ->
  exists enc w',
    encryptPhoto st file w = (Ok enc, w') /\
    blob_type (encryptedBlob enc) = js "application/octet-stream" /\
    decryptPhoto st (encryptedBlob enc) (file_iv enc) None
      = Ok (new_Blob (blob_bytes file) (js "image/jpeg")) /\
    forall type,
      decryptPhoto st (encryptedBlob enc) (file_iv enc) (Some type)
        = Ok (new_Blob (blob_bytes file) type).
Proof.
  intros Hst. unfold encryptPhoto, decryptPhoto. rewrite Hst.
  unfold encryptFile, try_catch, bindM, getRandomValues, lift, ret, subtle_encrypt.
  fold (nonce_of w). fold (after_draw IV_LENGTH w).
  rewrite arrayBufferToBase64_bytes by apply is_bytes_nonce.
  eexists _, _. split; [reflexivity|].
  cbn [encryptedBlob file_iv]. split; [reflexivity|].
  assert (H : forall type,
    decryptFile
      (new_Blob (GCM.encrypt AES.encrypt_block (raw (key stored)) (nonce_of w) []
                   (blob_bytes file)) (js "application/octet-stream"))
      (Base64.encode (nonce_of w)) (key stored) type
    = Ok (new_Blob (blob_bytes file) type)).
  { intros type. unfold decryptFile. cbn [new_Blob blob_bytes].
    rewrite base64ToArrayBuffer_encode by apply is_bytes_nonce.
    cbn [bind]. unfold subtle_decrypt. now rewrite decrypt_encrypt. }
  split; [apply H|]. intros type. apply H.
Qed.

Lemma useEncryption_photo_witness :
  exists enc w',
    encryptPhoto hook_with_other_key
      (new_Blob (hex "89504e470d0a1a0a") (js "image/png")) sample_world = (Ok enc, w') /\
    blob_type (encryptedBlob enc) = js "application/octet-stream" /\
    decryptPhoto hook_with_other_key (encryptedBlob enc) (file_iv enc) None
      = Ok (new_Blob (blob_bytes (new_Blob (hex "89504e470d0a1a0a") (js "image/png")))
              (js "image/jpeg")) /\
    forall type,
      decryptPhoto hook_with_other_key (encryptedBlob enc) (file_iv enc) (Some type)
        = Ok (new_Blob (blob_bytes (new_Blob (hex "89504e470d0a1a0a") (js "image/png")))
                type).
Proof.
  apply (useEncryption_photo
           {| key := other_key; metadata := key_metadata 1600000000000 other_user |}
           hook_with_other_key (new_Blob (hex "89504e470d0a1a0a") (js "image/png"))
           sample_world).
  reflexivity.
Defined.

End HookFacts.
(** * Bounds of [atob] and of [btoa] *)

Section BoundFacts.
Import Base64.

Lemma list_ind4 {A} (P : list A -> Prop) :
  P [] -> (forall a, P [a]) -> (forall a b, P [a; b]) -> (forall a b c, P [a; b; c]) ->
  (forall a b c d rest, P rest -> P (a :: b :: c :: d :: rest)) ->
  forall l, P l.
Proof.
  intros H0 H1 H2 H3 H4.
  fix IH 1. intros [|a [|b [|c [|d rest]]]].
  - exact H0.
  - apply H1.
  - apply H2.
  - apply H3.
  - apply H4, IH.
Qed.

Lemma length_decode_groups vs :
  (4 * List.length (decode_groups vs) <= 3 * List.length vs)%nat.
Proof.
  induction vs as [|a|a b|a b c|a b c d rest IH] using list_ind4;
    cbn [decode_groups List.length] in *; lia.
Qed.

Lemma length_values_of s vs : values_of s = Some vs -> List.length vs = List.length s.
Proof.
  revert vs. induction s as [|c s IH]; intros vs; cbn [values_of].
  - now intros [= <-].
  - destruct (value_of c); [|discriminate].
    destruct (values_of s) as [vs'|]; [|discriminate].
    intros [= <-]. cbn [List.length]. now rewrite (IH vs').
Qed.

Lemma length_strip_padding s : (List.length (strip_padding s) <= List.length s)%nat.
Proof.
  unfold strip_padding. destruct (Nat.eqb _ 0); [|lia].
  destruct (rev s) as [|c1 r1] eqn:Hr; [lia|].
  assert (Hl : List.length s = S (List.length r1)).
  { rewrite <- (length_rev s), Hr. reflexivity. }
  destruct (c1 =? pad); [|lia].
  destruct r1 as [|c2 r2]; [cbn; lia|].
  destruct (c2 =? pad); rewrite length_rev; cbn [List.length] in *; lia.
Qed.

(** [atob] returns at most three code units for every four it is given. *)
Lemma length_atob data binary :
  atob data = Ok binary -> (4 * List.length binary <= 3 * List.length data)%nat.
Proof.
  unfold atob. cbv zeta.
  set (stripped := strip_padding (List.filter _ data)).
  destruct (Nat.eqb _ 1); [discriminate|].
  destruct (values_of stripped) as [vs|] eqn:Hv; [|discriminate].
  intros [= <-]. pose proof (length_decode_groups vs) as Hd.
  apply length_values_of in Hv.
  pose proof (length_strip_padding
                (List.filter (fun c => negb (is_ascii_whitespace c)) data)) as Hs.
  pose proof (filter_length_le (fun c => negb (is_ascii_whitespace c)) data) as Hf.
  fold stripped in Hs. lia.
Qed.

End BoundFacts.

Section ShortFacts.

(** A payload whose ciphertext has fewer than twenty-two characters cannot
    hold the sixteen bytes of a tag: [decryptText] throws on it whatever
    the iv and the key. *)
Theorem decryptText_short_ciphertext payload k :
  (List.length (ciphertext payload) < 22)%nat ->
  decryptText payload k
  = Throw (Error "Failed to decrypt text. Data may be corrupted or key is incorrect.").
Proof.
  intros Hlt. rewrite decryptText_spec.
  destruct (base64ToArrayBuffer (ciphertext payload)) as [ct|?] eqn:Hct; [|reflexivity].
  destruct (base64ToArrayBuffer (iv payload)) as [nonce|?]; [|reflexivity].
  unfold base64ToArrayBuffer in Hct.
  destruct (Base64.atob (ciphertext payload)) as [binary|?] eqn:Ha; [|discriminate].
  cbn [bind] in Hct. injection Hct as <-.
  apply length_atob in Ha. unfold GCM.verify. rewrite length_map.
  replace (Nat.ltb (List.length binary) 16) with true
    by (symmetry; apply Nat.ltb_lt; lia).
  cbn [negb andb]. now rewrite andb_false_r.
Qed.

Lemma decryptText_short_ciphertext_witness :
  decryptText {| ciphertext := js "corrupted"; iv := js "corrupted";
                 algorithm := js "AES-GCM-256" |} sample_key
  = Throw (Error "Failed to decrypt text. Data may be corrupted or key is incorrect.").
Proof.
  apply (decryptText_short_ciphertext
           {| ciphertext := js "corrupted"; iv := js "corrupted";
              algorithm := js "AES-GCM-256" |} sample_key).
  cbn. lia.
Defined.

End ShortFacts.

Section ExportLatin1.
Import KeyStorage.

Lemma not_latin1_bundle k t userId exportedAt :
  latin1 (JSON.quote_body userId) = false ->
  latin1 (JSON.stringify
            (backup_bundle (Base64.encode k) (key_metadata t userId) exportedAt)) = false.
Proof.
  intros H. unfold backup_bundle, key_metadata, key_metadata_fields.
  cbn [JS.own_properties JS.lookup]. rewrite jsstring_eqb_refl.
  cbn [JSON.stringify flat_map snd fst JS.join app JS.print_number].
  unfold JSON.quote. repeat (rewrite ?latin1_app, ?latin1_cons).
  rewrite H. now rewrite ?andb_false_r.
Qed.

Lemma exportKeyForBackup_not_latin1 userId k fields w :
  k <> [] ->
  localStorage w !! (KEY_PREFIX ++ userId) = Some (Base64.encode k) ->
  localStorage w !! (METADATA_PREFIX ++ userId) = Some (JSON.stringify (Obj fields)) ->
  JSON.exact (Obj fields) ->
  latin1 (JSON.stringify (backup_bundle (Base64.encode k) (Obj fields) (now_of w)))
    = false ->
  exportKeyForBackup userId w =
  (Throw (Error "Failed to export encryption key"), after_tick w).
Proof.
  intros Hk Hks Hms Hex Hl.
  unfold exportKeyForBackup, try_catch, bindM, getItem, throw, lift, Date_now.
  cbv beta iota zeta. rewrite Hks, Hms.
  rewrite encode_nonempty by exact Hk. cbn [orb text_of].
  change (falsy (Some (JSON.stringify (Obj fields)))) with false.
  cbv iota. rewrite parse_stringify by exact Hex.
  cbv beta iota zeta. cbn [JS.get]. cbv beta iota zeta. fold (now_of w).
  change (Obj ((js "version", _) :: _))
    with (backup_bundle (Base64.encode k) (Obj fields) (now_of w)).
  unfold Base64.btoa.
  fold (latin1 (JSON.stringify (backup_bundle (Base64.encode k) (Obj fields) (now_of w)))).
  rewrite Hl. reflexivity.
Qed.

(** Whether a generated key can be exported depends on the user id alone:
    right after [generateAndStoreKey(userId)], [exportKeyForBackup(userId)]
    returns a backup when the JSON form of the id has no code unit above
    U+00FF, and throws when it has one. *)
Theorem exportKeyForBackup_by_user_id userId w :
  is_ok (fst (exportKeyForBackup userId (snd (generateAndStoreKey userId w))))
  = latin1 (JSON.quote_body userId).
Proof.
  rewrite generateAndStoreKey_spec. cbn [snd].
  assert (Hk : fresh_key w <> []).
  { intros He. pose proof (length_fresh_key w) as Hl. rewrite He in Hl.
    discriminate Hl. }
  pose proof (generated_key_slot userId w) as Hks.
  pose proof (generated_metadata_slot userId w) as Hms.
  pose proof (exact_key_metadata (now_of w) userId (now_of_bound w)) as Hex.
  unfold key_metadata in Hms, Hex.
  destruct (latin1 (JSON.quote_body userId)) eqn:Hl.
  - rewrite (exportKeyForBackup_stored userId (fresh_key w)
               (key_metadata_fields (now_of w) userId)); auto.
    apply (quotes_latin1_key_metadata (now_of w)) in Hl. exact Hl.
  - rewrite (exportKeyForBackup_not_latin1 userId (fresh_key w)
               (key_metadata_fields (now_of w) userId)); auto.
    apply (not_latin1_bundle (fresh_key w) (now_of w) userId _ Hl).
Qed.

End ExportLatin1.
